(** * TANE: discovery of functional dependencies (tane.py)

    A shallow embedding of [src/tane.py] and the verification of its
    specification.

    Conventions of the embedding.
    - A Python [set] of integers is a [gset nat]; a set of tuples is a
      [gset (list nat)].  Iterating a set walks [elements]; since Python
      gives no order for a set either, every statement below that is about
      a set is stated on membership.
    - A tuple of attributes is a [list nat]; [X[:a] + X[a+1:]] is
      [without X a].
    - A [dict] is a [gmap].  The dictionary [Cplus] holds references to set
      objects: the sets live in [heap] and the dictionary maps a key to the
      address of its set, so that two keys bound to one object are seen to
      share it.
    - A Python exception is a [Raise]; the procedures run in a state and
      exception monad over the fields of the [TANE] object.
    - The file targets Python 3 (see its "Get reduce for Python 3+"): [map]
      and [filter] are lazy there, an iterator that is built and dropped
      runs nothing. *)

From stdpp Require Import gmap list sets sorting.

Set Default Proof Using "Type".

(** ** Exceptions and results *)

Inductive exn : Type :=
  | KeyError | IndexError | TypeError | ValueError | OverflowError
  | OutOfFuel (* not a Python exception: the iteration budget of [run] *).

Inductive res (A : Type) : Type :=
  | Ok (a : A)
  | Raise (e : exn).
Arguments Ok {A} a.
Arguments Raise {A} e.

Definition res_bind {A B} (r : res A) (k : A → res B) : res B :=
  match r with
  | Ok a => k a
  | Raise e => Raise e
  end.

(** ** Stripped partitions: [PPattern] *)

Module PPattern.

(** First loop of [intersection]: [T[t] = i] for the rows of class [i]
    of [desc1], then [S[i] = set([])]. *)
Definition index_rows (i : nat) (T : gmap nat nat) (k : gset nat)
  : gmap nat nat :=
  foldl (λ T t, <[t := i]> T) T (elements k).

Definition index_classes (desc1 : list (gset nat))
  : gmap nat nat * gmap nat (gset nat) :=
  foldl (λ '(T, Sd) '(i, k), (index_rows i T k, <[i := ∅]> Sd))
        (∅, ∅) (imap pair desc1).

(** Second loop, first inner loop: [S[T[t]].add(t)] for the rows of [k]
    known to [T]. *)
Definition collect_rows (T : gmap nat nat) (Sd : gmap nat (gset nat))
    (k : gset nat) : gmap nat (gset nat) :=
  foldl (λ Sd t,
           match T !! t with
           | Some i => <[i := {[t]} ∪ (Sd !!! i)]> Sd
           | None => Sd
           end) Sd (elements k).

(** Second loop, second inner loop: append [S[T[t]]] when it has more
    than one row, and reset it. *)
Definition emit_rows (T : gmap nat nat)
    (acc : gmap nat (gset nat) * list (gset nat)) (k : gset nat)
  : gmap nat (gset nat) * list (gset nat) :=
  foldl (λ '(Sd, new_desc) t,
           match T !! t with
           | Some i =>
               (<[i := ∅]> Sd,
                if decide (1 < size (Sd !!! i))
                then new_desc ++ [Sd !!! i] else new_desc)
           | None => (Sd, new_desc)
           end) acc (elements k).

(** Procedure STRIPPED_PRODUCT. *)
Definition intersection (desc1 desc2 : list (gset nat)) : list (gset nat) :=
  let '(T, Sd) := index_classes desc1 in
  (foldl (λ '(Sd, new_desc) k, emit_rows T (collect_rows T Sd k, new_desc) k)
         (Sd, []) desc2).2.

(** Modelled from the spec: [leq] is inherited from
    [fca.defs.patterns.hypergraphs.TrimmedPartitionPattern], which is not
    part of the sources.  The specification gives it as the refinement
    test: every class of the first partition is wholly contained in some
    single class of the second. *)
Definition leq (desc1 desc2 : list (gset nat)) : bool :=
  forallb (λ c, existsb (λ c', bool_decide (c ⊆ c')) desc2) desc1.

End PPattern.

(** ** The partition cache: [PartitionsManager]

    [self.T] is never reassigned: it is a parameter of the procedures that
    read it. *)

Record PartitionsManager : Type := mkPM {
  (** [cache]: level ↦ [None] or a dictionary tuple ↦ partition *)
  cache : gmap nat (option (gmap (list nat) (list (gset nat))));
  current_level : nat;
}.

(** [{0:None, 1:{(i,):j for i, j in enumerate(T)}}] *)
Definition pm_init (T : list (list (gset nat))) : PartitionsManager :=
  {| cache := <[0 := None]>
                (<[1 := Some (list_to_map (imap (λ i j, ([i], j)) T))]> ∅);
     current_level := 1 |}.

Definition new_level (pm : PartitionsManager) : PartitionsManager :=
  let c := current_level pm + 1 in
  {| cache := <[c := Some ∅]> (cache pm); current_level := c |}.

(** [del self.cache[self.current_level-2]]; the keys are the naturals, so
    a negative index is a missing key. *)
Definition purge_old_level (pm : PartitionsManager) : res PartitionsManager :=
  if decide (current_level pm < 2) then Raise KeyError
  else match cache pm !! (current_level pm - 2) with
       | None => Raise KeyError
       | Some _ =>
           Ok {| cache := delete (current_level pm - 2) (cache pm);
                 current_level := current_level pm |}
       end.

(** [self.cache[len(X)][X]] *)
Definition cache_get (pm : PartitionsManager) (X : list nat)
  : res (list (gset nat)) :=
  match cache pm !! length X with
  | None => Raise KeyError
  | Some None => Raise TypeError
  | Some (Some m) =>
      match m !! X with
      | None => Raise KeyError
      | Some d => Ok d
      end
  end.

(** [self.cache[len(X)][X] = PPattern.intersection(...)]: the right-hand
    side is evaluated first. *)
Definition register_partition (X X0 X1 : list nat) (pm : PartitionsManager)
  : res PartitionsManager :=
  res_bind (cache_get pm X0) (λ d0,
  res_bind (cache_get pm X1) (λ d1,
  match cache pm !! length X with
  | None => Raise KeyError
  | Some None => Raise TypeError
  | Some (Some m) =>
      Ok {| cache := <[length X := Some (<[X := PPattern.intersection d0 d1]> m)]>
                       (cache pm);
            current_level := current_level pm |}
  end)).

Definition check_fd (T : list (list (gset nat))) (pm : PartitionsManager)
    (X : list nat) (y : nat) : res bool :=
  match X with
  | [] => Ok false
  | _ =>
      res_bind (cache_get pm X) (λ left,
      match T !! y with
      | None => Raise IndexError
      | Some d => Ok (PPattern.leq left d)
      end)
  end.

Definition is_superkey (pm : PartitionsManager) (X : list nat) : res bool :=
  res_bind (cache_get pm X) (λ d,
  Ok (match d with [] => true | _ => false end)).

(** ** The state of a [TANE] object and its monad *)

Record TANE : Type := mkTANE {
  rules : list (list nat * nat);
  pmgr : PartitionsManager;
  (** [Cplus]: tuple ↦ address of its set in [heap] *)
  Cplus : gmap (list nat) nat;
  heap : list (gset nat);
}.

Definition M (A : Type) : Type := TANE → res (A * TANE).

Definition ret {A} (a : A) : M A := λ st, Ok (a, st).
Definition raise {A} (e : exn) : M A := λ _, Raise e.
Definition bind {A B} (m : M A) (k : A → M B) : M B :=
  λ st, match m st with
        | Ok (a, st') => k a st'
        | Raise e => Raise e
        end.

Notation "'do' x <- m ; k" := (bind m (λ x, k))
  (at level 10, x pattern, m at level 100, k at level 200,
   format "'[v' 'do'  x  <-  m ; '/' k ']'").
Notation "m ;; k" := (bind m (λ _, k))
  (at level 100, k at level 200, right associativity).

Fixpoint mapM {A B} (f : A → M B) (l : list A) : M (list B) :=
  match l with
  | [] => ret []
  | x :: l' => do y <- f x; do ys <- mapM f l'; ret (y :: ys)
  end.

(** [for x in l: f(x)] *)
Fixpoint forM {A} (l : list A) (f : A → M unit) : M unit :=
  match l with
  | [] => ret tt
  | x :: l' => f x ;; forM l' f
  end.

(** A loop that carries a local variable. *)
Fixpoint foldM {A B} (f : B → A → M B) (b : B) (l : list A) : M B :=
  match l with
  | [] => ret b
  | x :: l' => do b' <- f b x; foldM f b' l'
  end.

(** Lifting the cache operations to the [TANE] object. *)
Definition pm_read {A} (f : PartitionsManager → res A) : M A :=
  λ st, match f (pmgr st) with
        | Ok a => Ok (a, st)
        | Raise e => Raise e
        end.

Definition pm_update (f : PartitionsManager → res PartitionsManager) : M unit :=
  λ st, match f (pmgr st) with
        | Ok pm => Ok (tt, {| rules := rules st; pmgr := pm;
                              Cplus := Cplus st; heap := heap st |})
        | Raise e => Raise e
        end.

(** [self.rules.append(r)] *)
Definition append_rule (r : list nat * nat) : M unit :=
  λ st, Ok (tt, {| rules := rules st ++ [r]; pmgr := pmgr st;
                   Cplus := Cplus st; heap := heap st |}).

(** ** The closure candidates: [rdict] *)

(** [X[:a] + X[a+1:]] *)
Definition without (X : list nat) (a : nat) : list nat :=
  take a X ++ drop (S a) X.

(** The set object at an address. *)
Definition deref (r : nat) : M (gset nat) := λ st, Ok (heap st !!! r, st).

(** A new set object. *)
Definition alloc (s : gset nat) : M nat :=
  λ st, Ok (length (heap st),
            {| rules := rules st; pmgr := pmgr st;
               Cplus := Cplus st; heap := heap st ++ [s] |}).

(** [reduce(set.intersection, refs)]: with one element [reduce] returns
    that very object; with more, [set.intersection] builds new objects, of
    which the last is returned; with none it raises. *)
Definition reduce_intersection (refs : list nat) : M nat :=
  match refs with
  | [] => raise TypeError
  | [r] => ret r
  | r :: refs' =>
      λ st, alloc (foldl (λ s r', s ∩ (heap st !!! r')) (heap st !!! r) refs') st
  end.

(** [rdict.__getitem__], with [recursive_search] inlined; the recursion is
    on keys one shorter, [n] bounds the length of the key. *)
Fixpoint getitem_rec (n : nat) (key : list nat) : M nat :=
  λ st,
    match Cplus st !! key with
    | Some r => Ok (r, st)
    | None =>
        match n with
        | 0 => Raise TypeError
        | S n' =>
            (do refs <- mapM (λ i, getitem_rec n' (without key i))
                             (seq 0 (length key));
             do r <- reduce_intersection refs;
             λ st', Ok (r, {| rules := rules st'; pmgr := pmgr st';
                              Cplus := <[key := r]> (Cplus st');
                              heap := heap st' |})) st
        end
    end.

Definition getitem (key : list nat) : M nat := getitem_rec (length key) key.

(** [s.remove(y)] on the object at [r] *)
Definition set_remove (r : nat) (y : nat) : M unit :=
  λ st, if decide (y ∈ heap st !!! r)
        then Ok (tt, {| rules := rules st; pmgr := pmgr st; Cplus := Cplus st;
                        heap := <[r := (heap st !!! r) ∖ {[y]}]> (heap st) |})
        else Raise KeyError.

(** ** Procedures *)

(** [X.index(y)] *)
Definition index (X : list nat) (y : nat) : res nat :=
  match list_find (λ z, z = y) X with
  | Some (a, _) => Ok a
  | None => Raise ValueError
  end.

(** [i[-1]] *)
Definition last_item (i : list nat) : res nat :=
  match last i with
  | Some x => Ok x
  | None => Raise IndexError
  end.

(** [itertools.combinations(k, 2)] *)
Fixpoint combinations {A} (k : list A) : list (A * A) :=
  match k with
  | [] => []
  | x :: k' => map (pair x) k' ++ combinations k'
  end.

(** Procedure PREFIX_BLOCKS: [blocks.setdefault(atts[:-1],[]).append(atts)]
    for each tuple, then the values of [blocks]. *)
Definition prefix_blocks (L : gset (list nat)) : list (list (list nat)) :=
  (map_to_list
     (foldl (λ (blocks : gmap (list nat) (list (list nat))) atts,
               <[removelast atts := default [] (blocks !! removelast atts) ++ [atts]]>
                 blocks)
            ∅ (elements L))).*2.

Section tane.
  Context (T : list (list (gset nat))).

(** [self.R = range(len(T))] *)
Definition R : list nat := seq 0 (length T).

(** [TANE.__init__]: [Cplus[()]] is bound to the new object
    [set(self.R)]. *)
Definition tane_init : TANE :=
  {| rules := [];
     pmgr := pm_init T;
     Cplus := {[ [] := 0 ]};
     heap := [list_to_set R] |}.

(** Procedure COMPUTE_DEPENDENCIES.  The last statement of the inner
    body, [map(self.Cplus[X].remove, filter(..., self.Cplus[X]))], reads
    [self.Cplus[X]] twice to build its arguments and returns an iterator
    that nothing consumes. *)
Definition compute_dependencies_at (X : list nat) (y : nat) : M unit :=
  do a <- pm_read (λ _, index X y);
  let LHS := without X a in
  do holds <- pm_read (λ pm, check_fd T pm LHS y);
  if (holds : bool) then
    append_rule (LHS, y);;
    (do r <- getitem X; set_remove r y);;
    getitem X;; getitem X;; ret tt
  else ret tt.

Definition compute_dependencies (L : gset (list nat)) : M unit :=
  forM (elements L) (λ X,
    do r <- getitem X;
    do s <- deref r;
    forM (elements (s ∩ list_to_set X)) (compute_dependencies_at X)).

(** [tuple(sorted(X[:b]+X[b+1:]+(y,)))] *)
Definition swap_in (X : list nat) (b y : nat) : list nat :=
  merge_sort (≤) (without X b ++ [y]).

(** Procedure PRUNE: the body of [for y in filter(...)] for a superkey
    [X]. *)
Definition prune_try (X : list nat) (y : nat) : M unit :=
  do refs <- mapM (λ b, getitem (swap_in X b y)) (seq 0 (length X));
  do r' <- reduce_intersection refs;
  do s' <- deref r';
  if decide (y ∈ s') then append_rule (X, y) else ret tt.

(** The body of [for X in L], with [clean_idx] carried along.  The two
    tests are independent [if]s; the [filter] is lazy but the set it
    walks is not changed by the loop, so it walks what the set holds
    when the loop starts. *)
Definition prune_at (clean_idx : gset (list nat)) (X : list nat)
  : M (gset (list nat)) :=
  do r <- getitem X;
  do s <- deref r;
  let clean_idx := if decide (s = ∅) then {[X]} ∪ clean_idx else clean_idx in
  do sk <- pm_read (λ pm, is_superkey pm X);
  if (sk : bool) then
    (do r <- getitem X;
     do s <- deref r;
     forM (filter (λ x, x ∉ X) (elements s)) (prune_try X));;
    ret ({[X]} ∪ clean_idx)
  else ret clean_idx.

(** [L.remove(X)] raises when [X] is missing. *)
Definition set_remove_tuple (L : gset (list nat)) (X : list nat)
  : M (gset (list nat)) :=
  if decide (X ∈ L) then ret (L ∖ {[X]}) else raise KeyError.

(** [prune] changes the set [L] in place; here it returns it. *)
Definition prune (L : gset (list nat)) : M (gset (list nat)) :=
  do clean_idx <- foldM prune_at ∅ (elements L);
  foldM set_remove_tuple L (elements clean_idx).

(** Procedure GENERATE_NEXT_LEVEL: the body of [for i, j in ...]. *)
Definition generate_pair (L : gset (list nat)) (next_L : gset (list nat))
    (ij : list nat * list nat) : M (gset (list nat)) :=
  let '(i, j) := ij in
  do li <- pm_read (λ _, last_item i);
  do lj <- pm_read (λ _, last_item j);
  let X := if decide (li < lj) then i ++ [lj] else j ++ [li] in
  if forallb (λ a, bool_decide (without X a ∈ L)) (seq 0 (length X)) then
    pm_update (register_partition X i j);;
    ret ({[X]} ∪ next_L)
  else ret next_L.

Definition generate_next_level (L : gset (list nat)) : M (gset (list nat)) :=
  pm_update (λ pm, Ok (new_level pm));;
  foldM (λ next_L k, foldM (generate_pair L) next_L (combinations k))
        ∅ (prefix_blocks L).

Definition memory_wipe : M unit := pm_update purge_old_level.

(** [bool(L[l])] *)
Definition level_nonempty (L : list (option (gset (list nat)))) (l : nat)
  : res bool :=
  match L !! l with
  | None => Raise IndexError
  | Some None => Ok false
  | Some (Some Ll) => Ok (bool_decide (Ll ≠ ∅))
  end.

(** The body of the [while] loop of [run]; iterating over [None] is a
    [TypeError]. *)
Definition run_body (Ll : list (option (gset (list nat))) * nat)
  : M (list (option (gset (list nat))) * nat) :=
  let '(L, l) := Ll in
  match L !! l with
  | None => raise IndexError
  | Some None => raise TypeError
  | Some (Some Lcur) =>
      compute_dependencies Lcur;;
      do Lcur <- prune Lcur;
      let L := <[l := Some Lcur]> L in
      do next_L <- generate_next_level Lcur;
      let L := L ++ [Some next_L] in
      let l := l + 1 in
      let L := <[l - 1 := None]> L in
      memory_wipe;;
      ret (L, l)
  end.

(** At most [k] turns of the [while] loop from the loop head [(L, l)]. *)
Fixpoint run_iters (k : nat) (Ll : list (option (gset (list nat))) * nat)
  : M (list (option (gset (list nat))) * nat) :=
  match k with
  | 0 => ret Ll
  | S k' =>
      do c <- pm_read (λ _, level_nonempty Ll.1 Ll.2);
      if (c : bool) then do Ll' <- run_body Ll; run_iters k' Ll'
      else ret Ll
  end.

(** [L1 = set([tuple([i]) for i in self.R])], [L = [None, L1]], [l = 1] *)
Definition run_start : list (option (gset (list nat))) * nat :=
  ([None; Some (list_to_set ((λ i, [i]) <$> R))], 1).

(** Procedure TANE: [TANE(T).run()] with a budget of [fuel] turns of the
    loop; the result is the object after the run. *)
Definition run (fuel : nat) : res TANE :=
  match run_iters fuel run_start tane_init with
  | Ok ((L, l), st) =>
      match level_nonempty L l with
      | Ok true => Raise OutOfFuel
      | Ok false => Ok st
      | Raise e => Raise e
      end
  | Raise e => Raise e
  end.

End tane.

(** ** Stripped partitions as the specification describes them *)

Fixpoint pairwise_disjoint (d : list (gset nat)) : bool :=
  match d with
  | [] => true
  | c :: d' => forallb (λ c', bool_decide (c ## c')) d' && pairwise_disjoint d'
  end.

Definition stripped (d : list (gset nat)) : bool :=
  pairwise_disjoint d && forallb (λ c, bool_decide (2 ≤ size c)) d.

(** ** The store of the closure candidates *)

(** The value read through [Cplus[Z]]. *)
Definition cval (st : TANE) (Z : list nat) : gset nat :=
  match Cplus st !! Z with
  | Some r => heap st !!! r
  | None => ∅
  end.

(** Well-formed store: [Cplus[()]] is bound, every binding points into the
    heap, and a key of two or more attributes shares its object with no
    other key. *)
Record store_ok (st : TANE) : Prop := {
  so_root : is_Some (Cplus st !! []);
  so_bound : ∀ Z r, Cplus st !! Z = Some r → r < length (heap st);
  so_own : ∀ Z Z' r, 2 ≤ length Z →
             Cplus st !! Z = Some r → Cplus st !! Z' = Some r → Z = Z';
}.

(** [st'] extends [st]: cache untouched, bindings kept, objects kept. *)
Record extends (st st' : TANE) : Prop := {
  ex_pmgr : pmgr st' = pmgr st;
  ex_Cplus : Cplus st ⊆ Cplus st';
  ex_heap : heap st `prefix_of` heap st';
}.

(** [Cplus[Z]] is the meet of the values at the keys one attribute
    shorter. *)
Definition meet_of_subsets (st : TANE) (Z : list nat) : Prop :=
  Z ≠ [] ∧
  (∀ a, a < length Z → is_Some (Cplus st !! without Z a)) ∧
  (∀ y, y ∈ cval st Z ↔ ∀ a, a < length Z → y ∈ cval st (without Z a)).

(** What a read of [Cplus[key]] does: it succeeds, keeps what was there,
    binds [key], and every key it binds on the way is a non-empty part of
    [key] whose value is the meet of the values one attribute below. *)
Definition getitem_post (key : list nat) (st : TANE) (r : nat) (st' : TANE)
  : Prop :=
  store_ok st' ∧ extends st st' ∧ rules st' = rules st ∧
  Cplus st' !! key = Some r ∧
  (Cplus st !! key = None → 2 ≤ length key → length (heap st) ≤ r) ∧
  ∀ Z, Cplus st !! Z = None → is_Some (Cplus st' !! Z) →
       Z `sublist_of` key ∧ meet_of_subsets st' Z ∧
       (Z = key ∨ ∃ a, a < length key ∧ Cplus st !! without key a = None).

(** ** Specifications of the procedures *)

(** The test of [compute_dependencies] at the node [X] for the attribute
    [y], and the left-hand side it records. *)
Definition lhs_of (X : list nat) (y : nat) : list nat :=
  match index X y with
  | Ok a => without X a
  | Raise _ => X
  end.

Definition fd_holds (T : list (list (gset nat))) (pm : PartitionsManager)
    (X : list nat) (y : nat) : bool :=
  match check_fd T pm (lhs_of X y) y with
  | Ok true => true
  | _ => false
  end.

Definition is_ok {A} (r : res A) : Prop := ∃ a, r = Ok a.

(** What [compute_dependencies] needs of a node [X] in the state [st]: it
    was not read yet, its immediate subsets were, and the test is defined
    on its attributes. *)
Record cd_ready (T : list (list (gset nat))) (st : TANE) (X : list nat)
  : Prop := {
  cr_new : Cplus st !! X = None;
  cr_nodup : NoDup X;
  cr_sub : ∀ a, a < length X → is_Some (Cplus st !! without X a);
  cr_fd : ∀ y, y ∈ X → is_ok (check_fd T (pmgr st) (lhs_of X y) y);
}.

(** The value [Cplus[X]] starts from: the meet over the immediate
    subsets. *)
Definition meet_below (st : TANE) (X : list nat) (y : nat) : Prop :=
  ∀ a, a < length X → y ∈ cval st (without X a).

(** What [compute_dependencies] leaves at a node. *)
Definition cd_node_post (T : list (list (gset nat))) (st : TANE)
    (X : list nat) (st' : TANE) : Prop :=
  store_ok st' ∧ extends st st' ∧
  (∀ Z, Z ≠ X → Cplus st' !! Z = Cplus st !! Z) ∧
  is_Some (Cplus st' !! X) ∧
  (∀ y, y ∈ cval st' X ↔
        meet_below st X y ∧ ¬ (y ∈ X ∧ fd_holds T (pmgr st) X y)) ∧
  ∃ new, rules st' = rules st ++ new ∧
         ∀ W y, (W, y) ∈ new ↔
                y ∈ X ∧ W = lhs_of X y ∧ meet_below st X y ∧
                fd_holds T (pmgr st) X y.

(** What [compute_dependencies] leaves after the nodes of [L]. *)
Definition cd_post (T : list (list (gset nat))) (st : TANE)
    (L : list (list nat)) (st' : TANE) : Prop :=
  store_ok st' ∧ extends st st' ∧
  (∀ Z, Z ∉ L → Cplus st' !! Z = Cplus st !! Z) ∧
  (∀ X, X ∈ L →
        is_Some (Cplus st' !! X) ∧
        ∀ y, y ∈ cval st' X ↔
             meet_below st X y ∧ ¬ (y ∈ X ∧ fd_holds T (pmgr st) X y)) ∧
  ∃ new, rules st' = rules st ++ new ∧
         ∀ W y, (W, y) ∈ new ↔
                ∃ X, X ∈ L ∧ y ∈ X ∧ W = lhs_of X y ∧ meet_below st X y ∧
                     fd_holds T (pmgr st) X y.

(** The objects after the removals of the inner loop. *)
Definition remove_all (r : nat) (h : list (gset nat)) (ys : list nat)
  : list (gset nat) :=
  foldl (λ h y, <[r := h !!! r ∖ {[y]}]> h) h ys.

(** The keys bound between [st] and [st'] are meets of their immediate
    subsets and satisfy [P]. *)
Definition new_keys (P : list nat → Prop) (st st' : TANE) : Prop :=
  ∀ Z, Cplus st !! Z = None → is_Some (Cplus st' !! Z) →
       meet_of_subsets st' Z ∧ P Z.

(** The second test of [prune]: [y] lies in every [Cplus] of [X] with one
    attribute swapped for [y]. *)
Definition swap_test (st : TANE) (X : list nat) (y : nat) : Prop :=
  ∀ b, b < length X → y ∈ cval st (swap_in X b y).

Definition prune_post (pm : PartitionsManager) (st : TANE)
    (L : list (list nat)) (l : nat) (st' : TANE) : Prop :=
  store_ok st' ∧ extends st st' ∧
  new_keys (λ Z, ∃ X y b, X ∈ L ∧ is_superkey pm X = Ok true ∧
                          y ∈ cval st X ∧ y ∉ X ∧ b < length X ∧
                          Z `sublist_of` swap_in X b y) st st' ∧
  ∃ new, rules st' = rules st ++ new ∧
         ∀ W y, (W, y) ∈ new ↔
                W ∈ L ∧ is_superkey pm W = Ok true ∧
                y ∈ cval st W ∧ y ∉ W ∧ swap_test st' W y.

(** The tuple [generate_next_level] forms from the pair [(i, j)]; [0]
    stands for the last item of an empty tuple, which the procedure never
    meets. *)
Definition merge_pair (i j : list nat) : list nat :=
  if decide (default 0 (last i) < default 0 (last j))
  then i ++ [default 0 (last j)] else j ++ [default 0 (last i)].

(** Admissibility: every tuple with one attribute deleted is in [L]. *)
Definition admissible (L : gset (list nat)) (X : list nat) : Prop :=
  ∀ a, a < length X → without X a ∈ L.

(** The pairs the two loops of [generate_next_level] walk. *)
Definition all_pairs (L : gset (list nat)) : list (list nat * list nat) :=
  mjoin (combinations <$> prefix_blocks L).

(** The object with another cache. *)
Definition set_cache (st : TANE)
    (c : gmap nat (option (gmap (list nat) (list (gset nat))))) : TANE :=
  {| rules := rules st;
     pmgr := {| cache := c; current_level := current_level (pmgr st) |};
     Cplus := Cplus st; heap := heap st |}.

(** What [generate_next_level] leaves: the cache [m'] of the new level
    and the set it returns. *)
Definition gen_post (L : gset (list nat)) (l : nat)
    (m m' : gmap (list nat) (list (gset nat))) (next : gset (list nat)) : Prop :=
  (∀ X, X ∈ next ↔
        ∃ i j, (i, j) ∈ all_pairs L ∧ X = merge_pair i j ∧ admissible L X) ∧
  (∀ X, is_Some (m' !! X) ↔ X ∈ next) ∧
  (∀ X d, m' !! X = Some d →
          ∃ i j, (i, j) ∈ all_pairs L ∧ X = merge_pair i j ∧
                 d = PPattern.intersection (m !!! i) (m !!! j)).

(** The tuples the levels hold: attributes in increasing order. *)
Definition ssorted (X : list nat) : Prop := StronglySorted lt X.

(** ** The loop of [run] *)

(** The states at the head of the [while] loop of [run]. *)
Inductive loop_head (T : list (list (gset nat)))
  : list (option (gset (list nat))) * nat → TANE → Prop :=
  | head_start : loop_head T (run_start T) (tane_init T)
  | head_step Ll st Ll' st' :
      loop_head T Ll st →
      level_nonempty Ll.1 Ll.2 = Ok true →
      run_body T Ll st = Ok (Ll', st') →
      loop_head T Ll' st'.

(** What holds at the head of the loop, whatever the table: [Lcur] is
    [L[l]] and [m] is [cache[l]]. *)
Record level_ok (T : list (list (gset nat)))
    (L : list (option (gset (list nat)))) (l : nat) (st : TANE)
    (Lcur : gset (list nat)) (m : gmap (list nat) (list (gset nat))) : Prop := {
  lo_pos : 0 < l;
  lo_len : length L = S l;
  lo_cur : L !! l = Some (Some Lcur);
  lo_level : current_level (pmgr st) = l;
  lo_dom : dom (cache (pmgr st)) = {[l - 1; l]};
  lo_cache : cache (pmgr st) !! l = Some (Some m);
  lo_store : store_ok st;
  lo_keys : ∀ Z, is_Some (Cplus st !! Z) → length Z < l;
  lo_tuple : ∀ X, X ∈ Lcur →
               ssorted X ∧ length X = l ∧ ∀ x, x ∈ X → x < length T;
  lo_part : ∀ X, X ∈ Lcur ↔ is_Some (m !! X);
  lo_below : ∀ X a, X ∈ Lcur → a < length X →
               is_Some (Cplus st !! without X a);
  lo_prev : 2 ≤ l →
            ∃ mp, cache (pmgr st) !! (l - 1) = Some (Some mp) ∧
                  ∀ X a, X ∈ Lcur → a < length X → is_Some (mp !! without X a);
}.

(** The state after one turn of the loop from [st], given the states after
    [compute_dependencies] ([st1]) and [prune] ([st2]) and the cache [m']
    of the new level. *)
Definition next_state (l : nat) (st st2 : TANE)
    (m' : gmap (list nat) (list (gset nat))) : TANE :=
  {| rules := rules st2;
     pmgr := {| cache := delete (l - 1) (<[S l := Some m']> (cache (pmgr st)));
                current_level := S l |};
     Cplus := Cplus st2; heap := heap st2 |}.

(** One turn of the loop at level [l], procedure by procedure: [st1] is
    the state after [compute_dependencies], [st2] the state after [prune],
    [Lp] what [prune] leaves of [L[l]]. *)
Definition turn (T : list (list (gset nat))) (l : nat) (st : TANE)
    (Lcur : gset (list nat)) (m : gmap (list nat) (list (gset nat)))
    (st' : TANE) (next : gset (list nat))
    (m' : gmap (list nat) (list (gset nat))) : Prop :=
  ∃ st1 st2 Lp,
    cd_post T st (elements Lcur) st1 ∧
    prune_post (pmgr st) st1 (elements Lcur) l st2 ∧
    (∀ X, X ∈ Lp ↔
          X ∈ Lcur ∧ cval st1 X ≠ ∅ ∧ is_superkey (pmgr st) X = Ok false) ∧
    gen_post Lp l m m' next ∧
    st' = next_state l st st2 m'.

(** ** Shrinking *)

(** Every binding of [Cplus] points into the heap. *)
Definition bound (st : TANE) : Prop :=
  ∀ Z r, Cplus st !! Z = Some r → r < length (heap st).

(** From [st] to [st'] the objects stay, the bindings stay, and an object
    only loses attributes. *)
Definition shrinks (st st' : TANE) : Prop :=
  length (heap st) ≤ length (heap st') ∧
  (∀ Z r, Cplus st !! Z = Some r → Cplus st' !! Z = Some r) ∧
  (∀ r, r < length (heap st) → heap st' !!! r ⊆ heap st !!! r).

(** A computation that keeps the store well bound and only shrinks it. *)
Definition monotone {A} (m : M A) : Prop :=
  ∀ st a st', bound st → m st = Ok (a, st') → bound st' ∧ shrinks st st'.

(** One procedure of the object ran from [st] to [st']. *)
Inductive proc_step (T : list (list (gset nat))) (st st' : TANE) : Prop :=
  | step_getitem key r : getitem key st = Ok (r, st') → proc_step T st st'
  | step_cd_at X y :
      compute_dependencies_at T X y st = Ok (tt, st') → proc_step T st st'
  | step_cd L : compute_dependencies T L st = Ok (tt, st') → proc_step T st st'
  | step_prune L L' : prune L st = Ok (L', st') → proc_step T st st'
  | step_generate L next :
      generate_next_level L st = Ok (next, st') → proc_step T st st'
  | step_wipe : memory_wipe st = Ok (tt, st') → proc_step T st st'
  | step_body Ll Ll' : run_body T Ll st = Ok (Ll', st') → proc_step T st st'.

(** [st'] is reached from [st] by running procedures of the object. *)
Inductive later (T : list (list (gset nat))) (st : TANE) : TANE → Prop :=
  | later_refl : later T st st
  | later_step st1 st2 : later T st st1 → proc_step T st1 st2 → later T st st2.

(** ** Tables used as inputs *)

(** A table of three attributes and two rows: the first two columns are
    constant, the third tells the rows apart. *)
Definition T_keep : list (list (gset nat)) := [[{[0;1]}]; [{[0;1]}]; []].

(** A table of two attributes and four rows. *)
Definition T_grid : list (list (gset nat)) :=
  [[{[0;1]}; {[2;3]}]; [{[0;2]}; {[1;3]}]].

(** ** More of the code: definitions *)

(** Two classes of the collection are the same class or share no row. *)
Definition separated (d : list (gset nat)) : Prop :=
  ∀ a b, a ∈ d → b ∈ d → a = b ∨ a ## b.

(** The classes of a collection, as a set of sets of rows. *)
Definition classes (d : list (gset nat)) : gset (gset nat) := list_to_set d.

(** The rules already recorded stay, in their order. *)
Definition keeps_rules {A} (m : M A) : Prop :=
  ∀ st a st', m st = Ok (a, st') → rules st `prefix_of` rules st'.

(** [chr(n)]: the character of code point [n]; a string is the list of its
    code points.  The argument is first converted to a C [int], which
    raises [OverflowError] from [2**31] on; a code point past [0x10FFFF]
    that fits raises [ValueError]. *)
Definition chr (n : N) : res N :=
  if decide (n ≤ 1114111)%N then Ok n
  else if decide (n < 2147483648)%N then Raise ValueError
  else Raise OverflowError.

(** The exception of [chr(65 + i)] for an attribute [i] past [1114046]. *)
Definition chr_error (i : nat) : exn :=
  if decide (N.of_nat i < 2147483583)%N then ValueError else OverflowError.

(** [tostr(atts)]: [''.join([chr(65+i) for i in atts])] *)
Fixpoint tostr (atts : list nat) : res (list N) :=
  match atts with
  | [] => Ok []
  | i :: atts' =>
      res_bind (chr (65 + N.of_nat i)) (λ c,
      res_bind (tostr atts') (λ s, Ok (c :: s)))
  end.

(** ** The meaning of a table *)

(** The attributes of a tuple, as a set. *)
Definition attrs (X : list nat) : gset nat := list_to_set X.

(** A table: every column is a stripped partition of the rows. *)
Definition valid_table (T : list (list (gset nat))) : Prop :=
  ∀ d, d ∈ T → stripped d = true.

(** The rows [t] and [u] have one value in column [a]: they are the same
    row, or one class of the column holds both (a row that is in no class
    shares its value with no other row). *)
Definition agree (T : list (list (gset nat))) (a : nat) (t u : nat) : Prop :=
  t = u ∨ ∃ d c, T !! a = Some d ∧ c ∈ d ∧ t ∈ c ∧ u ∈ c.

(** They have one value in every column of [S]. *)
Definition agree_on (T : list (list (gset nat))) (S : gset nat) (t u : nat)
  : Prop :=
  ∀ a, a ∈ S → agree T a t u.

(** The functional dependency [S → y]: rows that agree on [S] agree on
    [y]. *)
Definition determines (T : list (list (gset nat))) (S : gset nat) (y : nat)
  : Prop :=
  ∀ t u, agree_on T S t u → agree T y t u.

(** No two rows agree on [S]. *)
Definition superkey (T : list (list (gset nat))) (S : gset nat) : Prop :=
  ∀ t u, agree_on T S t u → t = u.

(** [d] is the stripped partition of the attribute set [S]: each class has
    two rows or more and is the set of rows that agree on [S] with any one
    of its rows, and two distinct rows that agree on [S] are in a class. *)
Definition partition_of (T : list (list (gset nat))) (S : gset nat)
    (d : list (gset nat)) : Prop :=
  (∀ c, c ∈ d → 2 ≤ size c ∧ ∀ t u, t ∈ c → (u ∈ c ↔ agree_on T S t u)) ∧
  (∀ t u, t ≠ u → agree_on T S t u → ∃ c, c ∈ d ∧ t ∈ c ∧ u ∈ c).

(** Every partition in the cache is the stripped partition of its tuple. *)
Definition cache_ok (T : list (list (gset nat))) (pm : PartitionsManager)
  : Prop :=
  ∀ k mk X d, cache pm !! k = Some (Some mk) → mk !! X = Some d →
              partition_of T (attrs X) d.

(** A tuple of the table: attributes in increasing order, all of them
    columns. *)
Definition tuple_ok (T : list (list (gset nat))) (X : list nat) : Prop :=
  ssorted X ∧ ∀ x, x ∈ X → x < length T.

(** The sorted tuple of a set of attributes. *)
Definition tuple_of (S : gset nat) : list nat := merge_sort (≤) (elements S).

(** The attribute sets the levels hold: no non-empty proper subset is a
    superkey. *)
Definition genS (T : list (list (gset nat))) (S : gset nat) : Prop :=
  ∀ V, V ⊂ S → V ≠ ∅ → ¬ superkey T V.

(** [y] was removed at a node below [Z]: some set [U] of a level, within
    [Z], holds [y] and the rest of [U], not empty, determines [y]. *)
Definition removedS (T : list (list (gset nat))) (Z : gset nat) (y : nat)
  : Prop :=
  ∃ U, U ⊆ Z ∧ genS T U ∧ y ∈ U ∧ U ∖ {[y]} ≠ ∅ ∧ determines T (U ∖ {[y]}) y.

(** The value of [Cplus[Z]] in closed form. *)
Definition closed_form (T : list (list (gset nat))) (st : TANE)
    (Z : list nat) : Prop :=
  ∀ y, y ∈ cval st Z ↔ y < length T ∧ ¬ removedS T (attrs Z) y.

(** A minimal dependency [W → y]: [W] is not empty, [y] is not in [W],
    [W] determines [y] and no non-empty proper subset of [W] does. *)
Definition min_fd (T : list (list (gset nat))) (W : gset nat) (y : nat)
  : Prop :=
  W ≠ ∅ ∧ y ∉ W ∧ determines T W y ∧
  ∀ V, V ⊂ W → V ≠ ∅ → ¬ determines T V y.

(** The dependencies with left-hand side [W] are found before level [l]:
    by [prune] at level [|W|] when [W] is a superkey, by
    [compute_dependencies] at level [|W| + 1] otherwise. *)
Definition found (T : list (list (gset nat))) (l : nat) (W : list nat)
  : Prop :=
  (superkey T (attrs W) ∧ length W < l) ∨
  (¬ superkey T (attrs W) ∧ S (length W) < l).

(** What holds of the state at the head of the loop at level [l], for a
    table of stripped partitions. *)
Record sem_ok (T : list (list (gset nat))) (l : nat) (st : TANE)
    (Lcur : gset (list nat)) : Prop := {
  se_cache : cache_ok T (pmgr st);
  se_level : ∀ X, X ∈ Lcur ↔
               tuple_ok T X ∧ length X = l ∧ genS T (attrs X);
  se_keys : ∀ Z, is_Some (Cplus st !! Z) → tuple_ok T Z ∧ closed_form T st Z;
  se_bound : ∀ Z, tuple_ok T Z → length Z < l → genS T (attrs Z) →
               is_Some (Cplus st !! Z);
  se_dec : ∀ Z, tuple_ok T Z → Z ≠ [] → length Z < l → genS T (attrs Z) →
             superkey T (attrs Z) ∨ ¬ superkey T (attrs Z);
  se_rules : ∀ W y, (W, y) ∈ rules st ↔
               tuple_ok T W ∧ y < length T ∧ min_fd T (attrs W) y ∧
               found T l W;
}.

(** The computation leaves the rules as they are. *)
Definition silent {A} (m : M A) : Prop :=
  ∀ st a st', m st = Ok (a, st') → rules st' = rules st.

(** The computation appends rules that satisfy [P], none of them twice. *)
Definition appends {A} (P : list nat * nat → Prop) (m : M A) : Prop :=
  ∀ st a st', m st = Ok (a, st') →
    ∃ new, rules st' = rules st ++ new ∧ NoDup new ∧ ∀ r, r ∈ new → P r.

(** The computation appends rules that satisfy [P]. *)
Definition adds {A} (P : list nat * nat → Prop) (m : M A) : Prop :=
  ∀ st a st', m st = Ok (a, st') →
    ∃ new, rules st' = rules st ++ new ∧ Forall P new.

(** The rules in the order of the size of their left-hand sides. *)
Definition by_size (rs : list (list nat * nat)) : Prop :=
  StronglySorted (λ r r', length r.1 ≤ length r'.1) rs.

(** The relation has the rows [0 .. n-1]: every row that a class of the
    table names is one of them. *)
Definition rows_ok (n : nat) (T : list (list (gset nat))) : Prop :=
  ∀ d c t, d ∈ T → c ∈ d → t ∈ c → t < n.

(** The functional dependency [S → y] on the relation of [n] rows: any two
    of its rows that agree on [S] agree on [y].  With [S] empty, [y] is a
    constant column. *)
Definition fd_in (n : nat) (T : list (list (gset nat))) (S : gset nat)
    (y : nat) : Prop :=
  ∀ t u, t < n → u < n → agree_on T S t u → agree T y t u.

(** Two rows and two attributes: the first column is constant, the second
    tells the rows apart. *)
Definition T_const : list (list (gset nat)) := [[{[0; 1]}]; []].

(** Four rows and three attributes: the third column is the exclusive or
    of the first two. *)
Definition T_xor : list (list (gset nat)) :=
  [[{[0; 1]}; {[2; 3]}]; [{[0; 2]}; {[1; 3]}]; [{[0; 3]}; {[1; 2]}]].

(** * Facts *)

Example intersection_ex :
  PPattern.intersection [{[0;1;2]}; {[3;4]}] [{[0;1;3]}; {[2;4]}] = [{[0;1]}].
Proof. vm_compute. reflexivity. Qed.

(** ** The stripped product *)

Section intersection_facts.
Import PPattern.

Lemma index_rows_lookup i (T : gmap nat nat) k t :
  index_rows i T k !! t = if decide (t ∈ k) then Some i else T !! t.
Proof.
  unfold index_rows.
  assert (∀ l (T : gmap nat nat),
    foldl (λ T t, <[t := i]> T) T l !! t
    = if decide (t ∈ l) then Some i else T !! t) as H.
  { induction l as [|x l IH]; intros T0; simpl.
    - destruct (decide (t ∈ [])); [set_solver | done].
    - rewrite IH.
      destruct (decide (t ∈ l)), (decide (t ∈ x :: l)); try done; [set_solver| |].
      + assert (x = t) as -> by set_solver. by rewrite lookup_insert_eq.
      + rewrite lookup_insert_ne; [done|set_solver]. }
  rewrite H. apply decide_ext. set_solver.
Qed.

(** [T] sends a row to the last class of [desc1] that holds it; [S] has an
    empty set for every class. *)
Lemma index_classes_spec desc1 :
  (∀ t i, (index_classes desc1).1 !! t = Some i ↔
     ∃ k, desc1 !! i = Some k ∧ t ∈ k ∧
          ∀ j k', i < j → desc1 !! j = Some k' → t ∉ k') ∧
  (∀ i, (index_classes desc1).2 !!! i = ∅).
Proof.
  unfold index_classes.
  induction desc1 as [|k desc1 IH] using rev_ind.
  - simpl. split; [|intros; by rewrite lookup_total_empty].
    intros t i. rewrite lookup_empty. split; [done|]. by intros (k & ? & _).
  - rewrite imap_app, foldl_app. simpl.
    destruct (foldl _ _ (imap pair desc1)) as [T0 S0] eqn:E. simpl in *.
    destruct IH as [IH1 IH2]. split.
    + intros t i. rewrite Nat.add_0_r, index_rows_lookup. case_decide as Hk.
      * split.
        -- intros [= <-]. exists k. rewrite lookup_app_r, Nat.sub_diag by lia.
           split_and!; [done..|]. intros j k' Hj Hl.
           apply lookup_lt_Some in Hl. rewrite length_app in Hl. simpl in Hl. lia.
        -- intros (k0 & Hl & Ht & Hlast).
           destruct (decide (i = length desc1)) as [->|Hne]; [done|].
           exfalso. assert (i < length desc1).
           { apply lookup_lt_Some in Hl. rewrite length_app in Hl. simpl in Hl. lia. }
           eapply (Hlast (length desc1) k); [lia| |done].
           by rewrite lookup_app_r, Nat.sub_diag by lia.
      * rewrite IH1. split.
        -- intros (k0 & Hl & Ht & Hlast). exists k0.
           split_and!; [by apply lookup_app_l_Some|done|].
           intros j k' Hj Hl'.
           destruct (decide (j < length desc1)).
           ++ rewrite lookup_app_l in Hl' by done. eauto.
           ++ rewrite lookup_app_r in Hl' by lia.
              destruct (j - length desc1) eqn:?; simpl in Hl'; [|done].
              by simplify_eq.
        -- intros (k0 & Hl & Ht & Hlast).
           assert (i < length desc1).
           { destruct (decide (i < length desc1)); [done|].
             rewrite lookup_app_r in Hl by lia.
             destruct (i - length desc1) eqn:?; simpl in Hl; [|done].
             by simplify_eq. }
           rewrite lookup_app_l in Hl by done.
           exists k0. split_and!; [done..|].
           intros j k' Hj Hl'. apply (Hlast j k' Hj). by apply lookup_app_l_Some.
    + intros i. destruct (decide (length desc1 + 0 = i)) as [<-|].
      * by rewrite lookup_total_insert_eq.
      * by rewrite lookup_total_insert_ne.
Qed.

Lemma collect_rows_spec T (Sd : gmap nat (gset nat)) k i t :
  t ∈ collect_rows T Sd k !!! i ↔ t ∈ Sd !!! i ∨ (t ∈ k ∧ T !! t = Some i).
Proof.
  unfold collect_rows.
  assert (∀ l (Sd : gmap nat (gset nat)),
    t ∈ foldl (λ Sd t, match T !! t with
                       | Some i => <[i := {[t]} ∪ (Sd !!! i)]> Sd
                       | None => Sd end) Sd l !!! i
    ↔ t ∈ Sd !!! i ∨ (t ∈ l ∧ T !! t = Some i)) as H.
  { induction l as [|x l IH]; intros S0; simpl.
    - set_solver.
    - rewrite IH. destruct (T !! x) as [j|] eqn:Hx.
      + destruct (decide (j = i)) as [->|].
        * rewrite lookup_total_insert_eq. 
          destruct (decide (t = x)) as [->|]; set_solver.
        * rewrite lookup_total_insert_ne by done.
          split; [set_solver|]. intros [?|[Hin ?]]; [by left|].
          apply elem_of_cons in Hin as [->|?]; [congruence|set_solver].
      + split; [set_solver|]. intros [?|[Hin ?]]; [by left|].
        apply elem_of_cons in Hin as [->|?]; [congruence|set_solver]. }
  rewrite H. set_solver.
Qed.

Lemma emit_rows_spec T (Sd : gmap nat (gset nat)) nd k :
  (∀ i t, t ∈ k → T !! t = Some i → (emit_rows T (Sd, nd) k).1 !!! i = ∅) ∧
  (∀ i, (∀ t, t ∈ k → T !! t ≠ Some i) →
        (emit_rows T (Sd, nd) k).1 !!! i = Sd !!! i) ∧
  (∀ c, c ∈ (emit_rows T (Sd, nd) k).2 ↔
        c ∈ nd ∨ ∃ t i, t ∈ k ∧ T !! t = Some i ∧ c = Sd !!! i ∧ 1 < size c).
Proof.
  unfold emit_rows.
  assert (∀ l (Sd : gmap nat (gset nat)) nd,
    let r := foldl (λ '(Sd, new_desc) t,
           match T !! t with
           | Some i =>
               (<[i := ∅]> Sd,
                if decide (1 < size (Sd !!! i))
                then new_desc ++ [Sd !!! i] else new_desc)
           | None => (Sd, new_desc)
           end) (Sd, nd) l in
    (∀ i t, t ∈ l → T !! t = Some i → r.1 !!! i = ∅) ∧
    (∀ i, (∀ t, t ∈ l → T !! t ≠ Some i) → r.1 !!! i = Sd !!! i) ∧
    (∀ c, c ∈ r.2 ↔
        c ∈ nd ∨ ∃ t i, t ∈ l ∧ T !! t = Some i ∧ c = Sd !!! i ∧ 1 < size c)) as H.
  { induction l as [|x l IH]; intros S0 nd0; simpl.
    - split_and!.
      + intros i t Hin. set_solver.
      + done.
      + intros c. split; [by left|]. intros [?|(t & i & Hin & _)]; [done|set_solver].
    - destruct (T !! x) as [j|] eqn:Hx.
      + specialize (IH (<[j:=∅]> S0)
          (if decide (1 < size (S0 !!! j)) then nd0 ++ [S0 !!! j] else nd0)).
        simpl in IH. destruct IH as (IH1 & IH2 & IH3). split_and!.
        * intros i t Hin Ht.
          destruct (decide (Exists (λ t', T !! t' = Some i) l)) as [He|Hn].
          { apply Exists_exists in He as (t' & ? & ?). eauto. }
          rewrite Exists_exists in Hn.
          rewrite IH2.
          2:{ intros t' ? ?. apply Hn. eauto. }
          apply elem_of_cons in Hin as [->|?]; [|exfalso; apply Hn; eauto].
          assert (j = i) as -> by congruence. by rewrite lookup_total_insert_eq.
        * intros i Hn. rewrite IH2.
          -- rewrite lookup_total_insert_ne; [done|].
             intros ->. eapply Hn; [|done]. set_solver.
          -- intros t ?. apply Hn. set_solver.
        * intros c. rewrite IH3. split.
          -- intros [Hc|(t & i & Hin & Ht & -> & Hsz)].
             ++ case_decide; [|by left].
                apply elem_of_app in Hc as [?|Hc]; [by left|].
                apply list_elem_of_singleton in Hc as ->.
                right. exists x, j. set_solver.
             ++ right. exists t, i.
                destruct (decide (j = i)) as [->|].
                ** rewrite lookup_total_insert_eq, size_empty in Hsz. lia.
                ** rewrite lookup_total_insert_ne in Hsz |- * by done. set_solver.
          -- intros [Hc|(t & i & Hin & Ht & -> & Hsz)].
             ++ left. case_decide; set_solver.
             ++ destruct (decide (j = i)) as [->|].
                ** left. rewrite decide_True by done. set_solver.
                ** right. exists t, i. rewrite lookup_total_insert_ne by done.
                   split_and!; try done.
                   apply elem_of_cons in Hin as [->|?]; [congruence|done].
      + specialize (IH S0 nd0). simpl in IH. destruct IH as (IH1 & IH2 & IH3).
        split_and!.
        * intros i t Hin Ht. apply (IH1 i t); [|done].
          apply elem_of_cons in Hin as [->|?]; [congruence|done].
        * intros i Hn. apply IH2. intros t ?. apply Hn. set_solver.
        * intros c. rewrite IH3. split.
          -- intros [?|(t & i & ? & ?)]; [by left|]. right. exists t, i. set_solver.
          -- intros [?|(t & i & Hin & Ht & ?)]; [by left|]. right. exists t, i.
             split; [|done].
             apply elem_of_cons in Hin as [->|?]; [congruence|done]. }
  specialize (H (elements k) Sd nd). simpl in H. destruct H as (H1 & H2 & H3).
  split_and!.
  - intros i t Hin. apply H1. set_solver.
  - intros i Hn. apply H2. intros t ?. apply Hn. set_solver.
  - intros c. rewrite H3. set_solver.
Qed.

(** The classes of the product: the rows of a class of [desc2] that [T]
    sends to one class of [desc1], when there are at least two. *)
Lemma elem_of_intersection_index desc1 desc2 c :
  c ∈ intersection desc1 desc2 ↔
  ∃ k i, k ∈ desc2 ∧ 1 < size c ∧
         c = filter (λ t, (index_classes desc1).1 !! t = Some i) k.
Proof.
  unfold intersection.
  destruct (index_classes_spec desc1) as [_ HS].
  destruct (index_classes desc1) as [T S0]. simpl in *.
  assert (∀ l (Sd : gmap nat (gset nat)) nd,
    (∀ i, Sd !!! i = ∅) →
    let r := foldl (λ '(Sd, new_desc) k,
                emit_rows T (collect_rows T Sd k, new_desc) k) (Sd, nd) l in
    (∀ c, c ∈ r.2 ↔ c ∈ nd ∨
       ∃ k i, k ∈ l ∧ 1 < size c ∧ c = filter (λ t, T !! t = Some i) k)) as H.
  { induction l as [|k l IH]; intros Sd nd HSd; simpl.
    - intros c0. split; [by left|]. intros [?|(k & i & Hin & _)]; [done|set_solver].
    - destruct (emit_rows_spec T (collect_rows T Sd k) nd k) as (E0 & E1 & E2).
      destruct (emit_rows T (collect_rows T Sd k, nd) k) as [S1 nd1]. simpl in *.
      assert (∀ i, collect_rows T Sd k !!! i = filter (λ t, T !! t = Some i) k) as HC.
      { intros i. apply set_eq. intros t.
        rewrite collect_rows_spec, HSd, elem_of_filter. set_solver. }
      intros c0. rewrite IH.
      + rewrite E2. split.
        * intros [[?|(t & i & Hin & Ht & -> & Hsz)]|(k' & i & Hin & ?)].
          -- by left.
          -- right. exists k, i. rewrite HC in *. set_solver.
          -- right. exists k', i. set_solver.
        * intros [?|(k' & i & Hin & Hsz & ->)]; [by left; left|].
          apply elem_of_cons in Hin as [->|?].
          -- left; right.
             destruct (decide (filter (λ t, T !! t = Some i) k = ∅)) as [Hem|Hne].
             { rewrite Hem, size_empty in Hsz. lia. }
             apply set_choose_L in Hne as [t Ht]. apply elem_of_filter in Ht as [? ?].
             exists t, i. by rewrite HC.
          -- right. exists k', i. set_solver.
      + intros i.
        destruct (decide (filter (λ t, T !! t = Some i) k = ∅)) as [Hem|Hne].
        * rewrite E1, HC; [done|]. intros t Hin Ht.
          assert (t ∈ filter (λ t, T !! t = Some i) k) as Hf
            by (by apply elem_of_filter).
          rewrite Hem in Hf. set_solver.
        * apply set_choose_L in Hne as [t Ht]. apply elem_of_filter in Ht as [? ?].
          eauto. }
  intros. rewrite (H desc2 S0 [] HS). set_solver.
Qed.

Lemma pairwise_disjoint_lookup d :
  pairwise_disjoint d = true →
  ∀ i j a b, d !! i = Some a → d !! j = Some b → i ≠ j → a ## b.
Proof.
  induction d as [|c d IH]; simpl; [by intros _ [|?] ?|].
  intros [Hc Hd]%andb_true_iff. rewrite forallb_forall in Hc.
  assert (∀ c', c' ∈ d → c ## c') as Hc'.
  { intros c' Hin. apply list_elem_of_In, Hc in Hin. by apply bool_decide_eq_true in Hin. }
  intros [|i] [|j] a b Ha Hb Hij; simplify_eq/=.
  - apply Hc'. by eapply list_elem_of_lookup_2.
  - symmetry. apply Hc'. by eapply list_elem_of_lookup_2.
  - eapply (IH Hd i j); eauto.
Qed.

Lemma index_classes_disjoint desc1 t i :
  pairwise_disjoint desc1 = true →
  (index_classes desc1).1 !! t = Some i ↔ ∃ k, desc1 !! i = Some k ∧ t ∈ k.
Proof.
  intros Hd. rewrite (proj1 (index_classes_spec desc1)). split.
  - intros (k & ? & ? & _). eauto.
  - intros (k & Hk & Ht). exists k. split_and!; [done..|].
    intros j k' Hij Hk' Ht'.
    assert (k ## k') as Hdisj
      by (eapply (pairwise_disjoint_lookup _ Hd i j); eauto; lia).
    set_solver.
Qed.

(** With disjoint classes in [desc1], the classes of the product are the
    intersections of a class of each side that keep at least two rows. *)
Lemma elem_of_stripped_product desc1 desc2 c :
  pairwise_disjoint desc1 = true →
  c ∈ intersection desc1 desc2 ↔
  ∃ a b, a ∈ desc1 ∧ b ∈ desc2 ∧ c = a ∩ b ∧ 1 < size c.
Proof.
  intros Hd. rewrite elem_of_intersection_index. split.
  - intros (k & i & Hk & Hsz & ->).
    destruct (decide (filter (λ t, (index_classes desc1).1 !! t = Some i) k = ∅))
      as [Hem|Hne].
    { rewrite Hem, size_empty in Hsz. lia. }
    apply set_choose_L in Hne as [t Ht]. apply elem_of_filter in Ht as [Ht ?].
    apply index_classes_disjoint in Ht as (a & Ha & Hta); [|done].
    exists a, k. split_and!; [by eapply list_elem_of_lookup_2|done| |].
    + apply set_eq. intros t'.
      rewrite elem_of_filter, elem_of_intersection, index_classes_disjoint by done.
      split; [|naive_solver]. intros [(a' & Ha' & ?) ?]. by simplify_eq.
    + done.
  - intros (a & b & Ha & Hb & -> & Hsz).
    apply list_elem_of_lookup in Ha as [i Hi].
    exists b, i. split_and!; [done..|].
    apply set_eq. intros t'.
    rewrite elem_of_filter, elem_of_intersection, index_classes_disjoint by done.
    split; [naive_solver|]. intros [(a' & Ha' & ?) ?]. by simplify_eq.
Qed.

(** C9.  For two stripped partitions (classes pairwise disjoint, each of at
    least two rows) the stripped product is symmetric: [intersection A B]
    and [intersection B A] hold the same classes, compared as sets of sets
    of rows. *)
Theorem intersection_symmetric (A B : list (gset nat)) :
  stripped A = true → stripped B = true →
  list_to_set (PPattern.intersection A B)
  =@{gset (gset nat)} list_to_set (PPattern.intersection B A).
Proof.
  intros [HA _]%andb_true_iff [HB _]%andb_true_iff.
  apply set_eq. intros c.
  rewrite !elem_of_list_to_set, !elem_of_stripped_product by done.
  split; intros (a & b & ? & ? & -> & ?); exists b, a;
    rewrite (comm_L (∩) b a); done.
Qed.

Lemma intersection_symmetric_witness :
  stripped [{[0;1;2]}; {[3;4]}] = true ∧ stripped [{[0;1;3]}; {[2;4]}] = true ∧
  list_to_set (PPattern.intersection [{[0;1;2]}; {[3;4]}] [{[0;1;3]}; {[2;4]}])
  =@{gset (gset nat)}
  list_to_set (PPattern.intersection [{[0;1;3]}; {[2;4]}] [{[0;1;2]}; {[3;4]}]).
Proof.
  split; [vm_compute; reflexivity|].
  split; [vm_compute; reflexivity|].
  apply intersection_symmetric; vm_compute; reflexivity.
Defined.

End intersection_facts.

(** ** Reading the closure candidates *)

Section store_facts.

Lemma without_delete X a : without X a = delete a X.
Proof. unfold without. by rewrite delete_take_drop. Qed.

Lemma length_without X a : a < length X → length (without X a) = length X - 1.
Proof.
  intros H. rewrite without_delete, length_delete; [lia|].
  by apply lookup_lt_is_Some.
Qed.

Lemma sublist_without X a : without X a `sublist_of` X.
Proof. rewrite without_delete. apply sublist_delete. Qed.

Global Instance extends_refl : Reflexive extends.
Proof. intros st. by split. Qed.

Global Instance extends_trans : Transitive extends.
Proof.
  intros s1 s2 s3 [] []. split; try congruence; by etrans.
Qed.

Lemma extends_lookup st st' Z r :
  extends st st' → Cplus st !! Z = Some r → Cplus st' !! Z = Some r.
Proof. intros [_ H _] ?. by eapply lookup_weaken. Qed.

Lemma extends_heap st st' r :
  extends st st' → r < length (heap st) → heap st' !!! r = heap st !!! r.
Proof.
  intros [_ _ [k ->]] ?. by rewrite lookup_total_app_l.
Qed.

Lemma extends_cval st st' Z :
  store_ok st → extends st st' → is_Some (Cplus st !! Z) →
  cval st' Z = cval st Z.
Proof.
  intros Hok Hex [r Hr]. unfold cval.
  rewrite Hr, (extends_lookup _ _ _ _ Hex Hr).
  apply extends_heap; [done|]. by eapply so_bound.
Qed.

Lemma meet_of_subsets_extends st st' Z :
  store_ok st → extends st st' → is_Some (Cplus st !! Z) →
  meet_of_subsets st Z → meet_of_subsets st' Z.
Proof.
  intros Hok Hex HZ (Hne & Hsub & Hval). split_and!; [done| |].
  - intros a Ha. destruct (Hsub a Ha) as [r Hr]. exists r.
    by eapply extends_lookup.
  - intros y. rewrite (extends_cval st st') by done. rewrite Hval.
    apply forall_proper; intros a. apply forall_proper; intros Ha.
    by rewrite (extends_cval st st') by auto.
Qed.

Lemma elem_of_foldl_meet (h : list (gset nat)) (refs : list nat) s y :
  y ∈ foldl (λ s r', s ∩ (h !!! r')) s refs ↔ y ∈ s ∧ ∀ r, r ∈ refs → y ∈ h !!! r.
Proof.
  revert s. induction refs as [|r refs IH]; intros s; simpl.
  - set_solver.
  - rewrite IH. set_solver.
Qed.

(** A hit returns the binding and leaves the object alone. *)
Lemma getitem_rec_hit n key st r :
  Cplus st !! key = Some r → getitem_rec n key st = Ok (r, st).
Proof. intros H. destruct n; simpl; by rewrite H. Qed.

Lemma getitem_hit key st r :
  Cplus st !! key = Some r → getitem key st = Ok (r, st).
Proof. apply getitem_rec_hit. Qed.

Lemma extends_lookup_None st st' Z :
  extends st st' → Cplus st' !! Z = None → Cplus st !! Z = None.
Proof.
  intros Hex HZ. destruct (Cplus st !! Z) eqn:E; [|done].
  eapply extends_lookup in E; [|done]. congruence.
Qed.

Lemma without_ne key a : a < length key → without key a ≠ key.
Proof.
  intros Ha E. apply (f_equal length) in E. rewrite length_without in E; lia.
Qed.

Lemma getitem_rec_spec n key st :
  store_ok st → length key ≤ n →
  ∃ r st', getitem_rec n key st = Ok (r, st') ∧ getitem_post key st r st'.
Proof.
  revert key st. induction n as [|n IH]; intros key st Hok Hlen.
  - destruct key; [|simpl in Hlen; lia].
    destruct (so_root _ Hok) as [r Hr]. exists r, st.
    split; [by apply getitem_rec_hit|].
    split_and!; [done..|congruence|]. intros Z HZ [r' Hr']. congruence.
  - destruct (Cplus st !! key) as [r|] eqn:Hkey.
    { exists r, st. split; [by apply getitem_rec_hit|].
      split_and!; [done..|congruence|]. intros Z HZ [r' Hr']. congruence. }
    simpl. rewrite Hkey.
    (* the reads of the shorter keys *)
    assert (∀ idx st0, store_ok st0 → (∀ i, i ∈ idx → i < length key) →
      ∃ refs st1,
        mapM (λ i, getitem_rec n (without key i)) idx st0 = Ok (refs, st1) ∧
        store_ok st1 ∧ extends st0 st1 ∧ rules st1 = rules st0 ∧
        Forall2 (λ i r, Cplus st1 !! without key i = Some r) idx refs ∧
        ∀ Z, Cplus st0 !! Z = None → is_Some (Cplus st1 !! Z) →
             Z `sublist_of` key ∧ length Z < length key ∧ meet_of_subsets st1 Z ∧
             ∃ a, a < length key ∧ Cplus st0 !! without key a = None)
      as Hmap.
    { induction idx as [|i idx IHis]; intros st0 Hok0 His.
      - exists [], st0. split_and!; [done..|].
        intros Z HZ [r' Hr']. congruence.
      - assert (i < length key) as Hi by (apply His; set_solver).
        destruct (IH (without key i) st0 Hok0)
          as (r & st1 & E1 & Hok1 & Hex1 & Hru1 & Hr & _ & Hnew1).
        { rewrite length_without by done. lia. }
        destruct (IHis st1 Hok1)
          as (refs & st2 & E2 & Hok2 & Hex2 & Hru2 & Hrefs & Hnew2).
        { intros j ?. apply His. set_solver. }
        exists (r :: refs), st2. split_and!.
        + simpl. unfold bind. rewrite E1, E2. done.
        + done.
        + by etrans.
        + congruence.
        + constructor; [by eapply extends_lookup|done].
        + intros Z HZ HZ2. destruct (Cplus st1 !! Z) as [rz|] eqn:HZ1.
          * destruct (Hnew1 Z HZ) as (Hs & Hm & _); [by eauto|].
            split_and!.
            -- etrans; [done|]. apply sublist_without.
            -- apply sublist_length in Hs. rewrite length_without in Hs by done. lia.
            -- by eapply (meet_of_subsets_extends st1 st2); eauto.
            -- exists i. split; [done|].
               destruct (Cplus st0 !! without key i) as [r0|] eqn:E0; [|done].
               rewrite (getitem_rec_hit _ _ _ _ E0) in E1. simplify_eq.
          * destruct (Hnew2 Z HZ1 HZ2) as (? & ? & ? & a & ? & Ha).
            split_and!; [done..|]. exists a. split; [done|].
            by eapply extends_lookup_None. }
    destruct (Hmap (seq 0 (length key)) st Hok)
      as (refs & st1 & E1 & Hok1 & Hex1 & Hru1 & Hrefs & Hnew1).
    { intros i Hi. apply elem_of_seq in Hi. lia. }
    unfold bind at 1. rewrite E1.
    assert (Cplus st1 !! key = None) as Hkey1.
    { destruct (Cplus st1 !! key) eqn:E; [|done].
      destruct (Hnew1 key Hkey) as (_ & ? & _); [by eauto|lia]. }
    assert (length refs = length key) as Hlr.
    { apply Forall2_length in Hrefs. by rewrite length_seq in Hrefs. }
    assert (∀ a, a < length key →
      ∃ r, refs !! a = Some r ∧ Cplus st1 !! without key a = Some r) as Hra.
    { intros a Ha. destruct (lookup_lt_is_Some_2 refs a) as [r Hr]; [lia|].
      exists r. split; [done|].
      eapply Forall2_lookup_lr in Hrefs; [done| |done].
      rewrite lookup_seq. split; [done|lia]. }
    assert (key ≠ []) as Hne.
    { intros ->. destruct (so_root _ Hok). congruence. }
    assert (∀ Z, Cplus st !! Z = None → is_Some (Cplus st1 !! Z) → Z ≠ key) as Hnk.
    { intros Z HZ HZ1 ->. destruct HZ1. congruence. }
    destruct refs as [|r0 refs]; [destruct key; simpl in *; [done|lia]|].
    destruct refs as [|r1 refs].
    + (* one attribute: the object of the empty key itself *)
      simpl. unfold bind, ret. simpl.
      eexists r0, _. split; [done|].
      assert (Cplus st1 !! without key 0 = Some r0) as Hr0.
      { destruct (Hra 0) as (r & Hr & ?); [simpl in *; lia|]. by simplify_eq/=. }
      assert (length key = 1) as Hk1 by (simpl in *; lia).
      assert (extends st1 {| rules := rules st1; pmgr := pmgr st1;
                Cplus := <[key:=r0]> (Cplus st1); heap := heap st1 |}) as Hex2.
      { split; simpl; [done| |done]. by apply insert_subseteq. }
      split_and!.
      * split; simpl.
        -- rewrite lookup_insert_ne by done. apply Hok1.
        -- intros Z r. rewrite lookup_insert. case_decide; [|apply Hok1].
           intros [= <-]. by eapply so_bound.
        -- intros Z Z' r HZ. rewrite !lookup_insert.
           destruct (decide (key = Z)) as [<-|]; [lia|].
           destruct (decide (key = Z')) as [<-|]; [|by apply Hok1].
           intros HrZ [= <-].
           pose proof (so_own _ Hok1 _ _ _ HZ HrZ Hr0) as ->.
           rewrite length_without in HZ; lia.
      * by etrans.
      * done.
      * simpl. by rewrite lookup_insert_eq.
      * intros _ ?. lia.
      * intros Z HZ. simpl. rewrite lookup_insert. case_decide as Hd.
        -- subst Z. intros _. split; [done|]. split; [|by left].
           split_and!; [done| |].
           ++ intros a Ha. simpl. assert (a = 0) as -> by lia.
              rewrite lookup_insert_ne; [eauto|]. apply not_eq_sym, without_ne. lia.
           ++ intros y. unfold cval. simpl. rewrite lookup_insert_eq.
              split.
              ** intros Hy a Ha. assert (a = 0) as -> by lia.
                 rewrite lookup_insert_ne, Hr0; [done|].
                 apply not_eq_sym, without_ne. lia.
              ** intros Hy. specialize (Hy 0).
                 rewrite lookup_insert_ne, Hr0 in Hy; [apply Hy; lia|].
                 apply not_eq_sym, without_ne. lia.
        -- intros HZ1. destruct (Hnew1 Z HZ HZ1) as (Hs & _ & Hm & Ha).
           split; [done|]. split; [|by right].
           by eapply (meet_of_subsets_extends st1).
    + (* two or more: a new object *)
      cbn [reduce_intersection]. unfold bind, alloc. simpl.
      eexists (length (heap st1)), _. split; [done|].
      set (v := foldl (λ s r', s ∩ (heap st1 !!! r')) (heap st1 !!! r0 ∩ heap st1 !!! r1) refs).
      assert (2 ≤ length key) as Hk2 by (simpl in *; lia).
      assert (extends st1 {| rules := rules st1; pmgr := pmgr st1;
                Cplus := <[key:=length (heap st1)]> (Cplus st1);
                heap := heap st1 ++ [v] |}) as Hex2.
      { split; simpl; [done| |by apply prefix_app_r].
        by apply insert_subseteq. }
      split_and!.
      * split; simpl.
        -- rewrite lookup_insert_ne by done. apply Hok1.
        -- intros Z r. rewrite lookup_insert, length_app. simpl.
           case_decide; [intros [= <-]; lia|].
           intros Hr. apply (so_bound _ Hok1) in Hr. lia.
        -- intros Z Z' r HZ. rewrite !lookup_insert.
           destruct (decide (key = Z)) as [<-|], (decide (key = Z')) as [<-|];
             [done| | |by apply Hok1].
           ++ intros [= <-] Hr. apply (so_bound _ Hok1) in Hr. lia.
           ++ intros Hr [= <-]. apply (so_bound _ Hok1) in Hr. lia.
      * by etrans.
      * done.
      * simpl. by rewrite lookup_insert_eq.
      * intros _ _. destruct Hex1 as [_ _ Hp]. by apply prefix_length.
      * intros Z HZ. simpl. rewrite lookup_insert. case_decide as Hd.
        -- subst Z. intros _. split; [done|]. split; [|by left].
           split_and!; [done| |].
           ++ intros a Ha. simpl. destruct (Hra a Ha) as (r & _ & Hr).
              rewrite lookup_insert_ne; [eauto|]. by apply not_eq_sym, without_ne.
           ++ intros y. unfold cval at 1. simpl. rewrite lookup_insert_eq.
              rewrite lookup_total_app_r, Nat.sub_diag by done. simpl.
              unfold v. rewrite elem_of_foldl_meet. split.
              ** intros [Hy01 Hy] a Ha. destruct (Hra a Ha) as (r & Hr & HC).
                 unfold cval. simpl. rewrite lookup_insert_ne
                   by (by apply not_eq_sym, without_ne).
                 rewrite HC, lookup_total_app_l by (by eapply so_bound).
                 destruct a as [|[|a]]; simplify_eq/=; [set_solver..|].
                 apply Hy. by eapply list_elem_of_lookup_2.
              ** intros Hy.
                 assert (∀ a r, (r0 :: r1 :: refs) !! a = Some r → y ∈ heap st1 !!! r) as Hy'.
                 { intros a r Hr. assert (a < length key) as Ha.
                   { apply lookup_lt_Some in Hr. lia. }
                   destruct (Hra a Ha) as (r' & Hr' & HC). simplify_eq.
                   specialize (Hy a Ha). unfold cval in Hy. simpl in Hy.
                   rewrite lookup_insert_ne in Hy by (by apply not_eq_sym, without_ne).
                   rewrite HC, lookup_total_app_l in Hy by (by eapply so_bound).
                   done. }
                 split; [apply elem_of_intersection; split|].
                 --- by apply (Hy' 0).
                 --- by apply (Hy' 1).
                 --- intros r Hr. apply list_elem_of_lookup in Hr as [a Ha].
                     by apply (Hy' (S (S a))).
        -- intros HZ1. destruct (Hnew1 Z HZ HZ1) as (Hs & _ & Hm & Ha).
           split; [done|]. split; [|by right].
           by eapply (meet_of_subsets_extends st1).
Qed.

Lemma getitem_spec key st :
  store_ok st →
  ∃ r st', getitem key st = Ok (r, st') ∧ getitem_post key st r st'.
Proof. intros. by apply getitem_rec_spec. Qed.

End store_facts.

(** ** Procedure COMPUTE_DEPENDENCIES *)

Section compute_dependencies_facts.
Context (T : list (list (gset nat))).

Lemma index_lookup X a y :
  NoDup X → X !! a = Some y → index X y = Ok a.
Proof.
  intros Hnd Ha. unfold index.
  destruct (list_find (λ z, z = y) X) as [[a' z]|] eqn:E.
  - apply list_find_Some in E as (Ha' & -> & _).
    by rewrite (NoDup_lookup _ _ _ _ Hnd Ha Ha').
  - apply list_find_None in E. rewrite Forall_forall in E.
    exfalso. eapply E; [by eapply list_elem_of_lookup_2|done].
Qed.

Lemma index_elem_of X y : y ∈ X → ∃ a, index X y = Ok a ∧ X !! a = Some y.
Proof.
  intros Hy. unfold index.
  destruct (list_find (λ z, z = y) X) as [[a' z]|] eqn:E.
  - apply list_find_Some in E as (Ha' & -> & _). eauto.
  - apply list_find_None in E. rewrite Forall_forall in E.
    exfalso. by eapply E.
Qed.

Lemma lhs_of_lookup X a y :
  NoDup X → X !! a = Some y → lhs_of X y = without X a.
Proof. intros. unfold lhs_of. by erewrite index_lookup. Qed.

Lemma cd_at_spec X y st r :
  Cplus st !! X = Some r → y ∈ heap st !!! r → y ∈ X →
  is_ok (check_fd T (pmgr st) (lhs_of X y) y) →
  compute_dependencies_at T X y st
  = Ok (tt, if fd_holds T (pmgr st) X y
            then {| rules := rules st ++ [(lhs_of X y, y)]; pmgr := pmgr st;
                    Cplus := Cplus st;
                    heap := <[r := heap st !!! r ∖ {[y]}]> (heap st) |}
            else st).
Proof.
  intros Hr Hy HX [b Hb]. unfold compute_dependencies_at, fd_holds.
  destruct (index_elem_of X y HX) as (a & Ha & _).
  unfold lhs_of in *. rewrite Ha in *.
  unfold bind, pm_read. simpl. rewrite Hb.
  destruct b; [|done].
  unfold append_rule. simpl.
  rewrite (getitem_hit X _ r) by done.
  unfold set_remove. simpl. rewrite decide_True by done.
  rewrite !(getitem_hit X _ r) by done. done.
Qed.

Lemma length_remove_all r h ys : length (remove_all r h ys) = length h.
Proof.
  revert h. induction ys as [|y ys IH]; intros h; simpl; [done|].
  unfold remove_all in *. simpl. by rewrite IH, length_insert.
Qed.

Lemma remove_all_lookup_ne r h ys r' :
  r ≠ r' → remove_all r h ys !!! r' = h !!! r'.
Proof.
  revert h. induction ys as [|y ys IH]; intros h Hne; simpl; [done|].
  unfold remove_all in *. simpl. rewrite IH by done.
  by rewrite list_lookup_total_insert_ne.
Qed.

Lemma remove_all_lookup r h ys :
  r < length h → remove_all r h ys !!! r = h !!! r ∖ list_to_set ys.
Proof.
  revert h. induction ys as [|y ys IH]; intros h Hr; simpl.
  - set_solver.
  - unfold remove_all in *. simpl. rewrite IH by (by rewrite length_insert).
    rewrite list_lookup_total_insert_eq by done. set_solver.
Qed.

Lemma cd_loop_spec X r ys st :
  NoDup ys → Cplus st !! X = Some r → r < length (heap st) →
  (∀ y, y ∈ ys → y ∈ heap st !!! r ∧ y ∈ X ∧
                 is_ok (check_fd T (pmgr st) (lhs_of X y) y)) →
  forM ys (compute_dependencies_at T X) st
  = Ok (tt, {| rules := rules st ++
                 ((λ y, (lhs_of X y, y)) <$> filter (λ y, fd_holds T (pmgr st) X y) ys);
               pmgr := pmgr st; Cplus := Cplus st;
               heap := remove_all r (heap st)
                         (filter (λ y, fd_holds T (pmgr st) X y) ys) |}).
Proof.
  revert st. induction ys as [|y ys IH]; intros st Hnd Hr Hlt Hys.
  - simpl. unfold ret. rewrite app_nil_r. by destruct st.
  - apply NoDup_cons in Hnd as [Hy Hnd].
    destruct (Hys y) as (Hyr & HyX & Hok); [set_solver|].
    simpl. unfold bind. rewrite (cd_at_spec X y st r) by done.
    rewrite filter_cons.
    destruct (fd_holds T (pmgr st) X y) eqn:Hfd.
    + rewrite decide_True by done. rewrite IH; simpl.
      * by rewrite <-app_assoc.
      * done.
      * done.
      * by rewrite length_insert.
      * intros y' Hy'. destruct (Hys y') as (? & ? & ?); [set_solver|].
        split_and!; [|done..].
        rewrite list_lookup_total_insert_eq by done. set_solver.
    + rewrite decide_False by (by intros []). rewrite IH; try done.
      intros y' Hy'. apply Hys. set_solver.
Qed.

Lemma prefix_remove_all (h h1 : list (gset nat)) r ys :
  h `prefix_of` h1 → ys = [] ∨ length h ≤ r → h `prefix_of` remove_all r h1 ys.
Proof.
  intros Hp [->|Hr]; [done|].
  revert h1 Hp. induction ys as [|y ys IH]; intros h1 Hp; [done|].
  unfold remove_all in *. simpl. apply IH.
  destruct Hp as [k ->]. rewrite insert_app_r_alt by done. by eexists.
Qed.

Lemma fd_holds_length pm X y :
  NoDup X → y ∈ X → fd_holds T pm X y → 2 ≤ length X.
Proof.
  intros Hnd Hy. unfold fd_holds.
  apply list_elem_of_lookup in Hy as [a Ha].
  rewrite (lhs_of_lookup X a y) by done.
  assert (a < length X) by (by eapply lookup_lt_Some).
  destruct (without X a) eqn:E; simpl; [done|].
  apply (f_equal length) in E. rewrite length_without in E by done.
  simpl in E. lia.
Qed.

Lemma cd_node_spec X st :
  store_ok st → cd_ready T st X →
  ∃ st',
    (do r <- getitem X;
     do s <- deref r;
     forM (elements (s ∩ list_to_set X)) (compute_dependencies_at T X)) st
    = Ok (tt, st') ∧ cd_node_post T st X st'.
Proof.
  intros Hok [Hnew Hnd Hsub Hfd].
  destruct (getitem_spec X st Hok)
    as (r & st1 & E1 & Hok1 & Hex1 & Hru1 & Hr1 & Hfresh & Hnew1).
  assert (∀ Z, Z ≠ X → Cplus st1 !! Z = Cplus st !! Z) as Hsame.
  { intros Z HZ. destruct (Cplus st !! Z) as [rz|] eqn:E.
    - by eapply extends_lookup.
    - destruct (Cplus st1 !! Z) eqn:E'; [|done].
      destruct (Hnew1 Z E) as (_ & _ & [->|(a & Ha & Hn)]); [by eauto|done|].
      destruct (Hsub a Ha). congruence. }
  destruct (Hnew1 X Hnew) as (_ & (_ & _ & Hmeet) & _); [by eauto|].
  assert (∀ y, y ∈ heap st1 !!! r ↔ meet_below st X y) as Hinit.
  { intros y. specialize (Hmeet y). unfold cval at 1 in Hmeet.
    rewrite Hr1 in Hmeet. rewrite Hmeet. unfold meet_below.
    apply forall_proper; intros a. apply forall_proper; intros Ha.
    rewrite (extends_cval st st1); auto. }
  unfold bind. rewrite E1. unfold deref at 1. simpl.
  set (ys := elements (heap st1 !!! r ∩ list_to_set X)).
  assert (pmgr st1 = pmgr st) as Hpm by apply Hex1.
  rewrite (cd_loop_spec X r ys st1); [|apply NoDup_elements|done|by eapply so_bound|].
  2:{ intros y Hy. apply elem_of_elements, elem_of_intersection in Hy as [? Hy].
      apply elem_of_list_to_set in Hy. rewrite Hpm. auto. }
  rewrite Hpm.
  set (hits := filter (λ y, fd_holds T (pmgr st) X y) ys).
  assert (∀ y, y ∈ hits ↔ meet_below st X y ∧ y ∈ X ∧ fd_holds T (pmgr st) X y)
    as Hhits.
  { intros y. unfold hits, ys.
    rewrite list_elem_of_filter, elem_of_elements, elem_of_intersection,
      elem_of_list_to_set, Hinit. tauto. }
  assert (hits = [] ∨ length (heap st) ≤ r) as Hcase.
  { destruct hits as [|y hits'] eqn:Eh; [by left|right].
    destruct (Hhits y) as [(_ & HyX & Hh) _]; [set_solver|].
    apply Hfresh; [done|]. by eapply fd_holds_length. }
  eexists. split; [done|].
  assert (r < length (heap st1)) as Hrlt by (by eapply so_bound).
  split_and!; simpl.
  - split; simpl; [apply Hok1| |apply Hok1].
    intros Z rz Hz. rewrite length_remove_all. by eapply so_bound.
  - destruct Hex1 as [? ? Hp]. split; simpl; [done..|].
    by apply prefix_remove_all.
  - done.
  - eauto.
  - intros y. unfold cval. simpl. rewrite Hr1.
    rewrite remove_all_lookup by done.
    rewrite elem_of_difference, elem_of_list_to_set, Hhits, Hinit. tauto.
  - eexists. split; [by rewrite Hru1|].
    intros W y. rewrite list_elem_of_fmap. split.
    + intros (y' & [= -> ->] & Hy'). apply Hhits in Hy'. tauto.
    + intros (? & -> & ? & ?). exists y. split; [done|]. apply Hhits. tauto.
Qed.

Lemma meet_below_extends st st' X y :
  store_ok st → extends st st' →
  (∀ a, a < length X → is_Some (Cplus st !! without X a)) →
  meet_below st' X y ↔ meet_below st X y.
Proof.
  intros Hok Hex Hsub. unfold meet_below.
  apply forall_proper; intros a. apply forall_proper; intros Ha.
  rewrite (extends_cval st st'); auto.
Qed.

Lemma cd_nodes_spec xs st :
  NoDup xs → store_ok st →
  (∀ X, X ∈ xs → cd_ready T st X) →
  ∃ st',
    forM xs (λ X,
      do r <- getitem X;
      do s <- deref r;
      forM (elements (s ∩ list_to_set X)) (compute_dependencies_at T X)) st
    = Ok (tt, st') ∧ cd_post T st xs st'.
Proof.
  revert st. induction xs as [|X xs IH]; intros st Hnd Hok Hrdy.
  - exists st. split; [done|]. split_and!; [done..| |].
    + intros X HX. by apply elem_of_nil in HX.
    + exists []. split; [by rewrite app_nil_r|].
      intros W y. split; [by intros ?%elem_of_nil|].
      intros (X & HX & _). by apply elem_of_nil in HX.
  - apply NoDup_cons in Hnd as [HX Hnd].
    destruct (cd_node_spec X st Hok) as (st1 & E1 & Hok1 & Hex1 & Hs1 & HX1 & Hv1 & new1 & Hr1 & Hn1).
    { apply Hrdy. set_solver. }
    assert (pmgr st1 = pmgr st) as Hpm by apply Hex1.
    destruct (IH st1 Hnd Hok1) as (st' & E2 & Hok2 & Hex2 & Hs2 & Hv2 & new2 & Hr2 & Hn2).
    { intros X' HX'. destruct (Hrdy X') as [? ? ? ?]; [set_solver|].
      split; [|done| |by rewrite Hpm].
      - rewrite Hs1; [done|]. intros ->. done.
      - intros a Ha. destruct (cr_sub0 a Ha) as [r Hr]. exists r.
        by eapply extends_lookup. }
    exists st'. split.
    { cbn [forM]. unfold bind at 1. by rewrite E1. }
    split_and!.
    + done.
    + by etrans.
    + intros Z HZ. rewrite Hs2, Hs1; [done| |]; set_solver.
    + intros X' HX'. apply elem_of_cons in HX' as [->|HX'].
      * split.
        -- rewrite Hs2 by done. done.
        -- intros y. rewrite (extends_cval st1 st') by done. apply Hv1.
      * destruct (Hv2 X' HX') as [? Hv]. split; [done|].
        intros y. rewrite Hv, Hpm.
        rewrite (meet_below_extends st st1); [done..|].
        apply Hrdy. set_solver.
    + exists (new1 ++ new2). split; [by rewrite Hr2, Hr1, app_assoc|].
      intros W y. rewrite elem_of_app, Hn1, Hn2. split.
      * intros [(? & ? & ? & ?)|(X' & HX' & ? & ? & Hm & Hf)].
        -- exists X. split_and!; [set_solver|done..].
        -- exists X'. split_and!; [set_solver|done..| |by rewrite <-Hpm].
           rewrite <-(meet_below_extends st st1); [done..|].
           apply Hrdy. set_solver.
      * intros (X' & HX' & ? & ? & Hm & Hf).
        apply elem_of_cons in HX' as [->|HX']; [by left|right].
        exists X'. split_and!; [done..| |by rewrite Hpm].
        rewrite (meet_below_extends st st1); [done..|].
        apply Hrdy. set_solver.
Qed.

Lemma compute_dependencies_spec (L : gset (list nat)) st :
  store_ok st →
  (∀ X, X ∈ L → cd_ready T st X) →
  ∃ st', compute_dependencies T L st = Ok (tt, st') ∧
         cd_post T st (elements L) st'.
Proof.
  intros Hok Hrdy. unfold compute_dependencies.
  apply cd_nodes_spec; [apply NoDup_elements|done|].
  intros X HX. apply Hrdy. set_solver.
Qed.

End compute_dependencies_facts.

(** ** Procedure PRUNE *)

Section prune_facts.

Lemma new_keys_refl P st : new_keys P st st.
Proof. intros Z HZ [r Hr]. congruence. Qed.

Lemma new_keys_trans P st st1 st2 :
  store_ok st1 → extends st1 st2 →
  new_keys P st st1 → new_keys P st1 st2 → new_keys P st st2.
Proof.
  intros Hok Hex H1 H2 Z HZ HZ2.
  destruct (Cplus st1 !! Z) as [r|] eqn:E.
  - destruct (H1 Z HZ) as [Hm HP]; [by eauto|]. split; [|done].
    by apply (meet_of_subsets_extends st1 st2); eauto.
  - by apply H2.
Qed.

Lemma new_keys_mono (P Q : list nat → Prop) st st' :
  (∀ Z, P Z → Q Z) → new_keys P st st' → new_keys Q st st'.
Proof. intros HPQ H Z HZ HZ'. destruct (H Z HZ HZ'). auto. Qed.

Lemma length_swap_in X b y : b < length X → length (swap_in X b y) = length X.
Proof.
  intros Hb. unfold swap_in.
  rewrite (Permutation_length (merge_sort_Permutation _ _)).
  rewrite length_app, length_without by done. simpl. lia.
Qed.

(** Reading a family of keys. *)
Lemma getitem_all_spec (g : nat → list nat) idx st :
  store_ok st →
  ∃ refs st',
    mapM (λ b, getitem (g b)) idx st = Ok (refs, st') ∧
    store_ok st' ∧ extends st st' ∧ rules st' = rules st ∧
    new_keys (λ Z, ∃ b, b ∈ idx ∧ Z `sublist_of` g b) st st' ∧
    Forall2 (λ b r, Cplus st' !! g b = Some r) idx refs.
Proof.
  revert st. induction idx as [|b idx IH]; intros st Hok.
  - exists [], st. split_and!; [done..|apply new_keys_refl|done].
  - destruct (getitem_spec (g b) st Hok)
      as (r & st1 & E1 & Hok1 & Hex1 & Hru1 & Hr1 & _ & Hnew1).
    destruct (IH st1 Hok1) as (refs & st2 & E2 & Hok2 & Hex2 & Hru2 & Hnew2 & Hrefs).
    exists (r :: refs), st2. split_and!.
    + simpl. unfold bind. by rewrite E1, E2.
    + done.
    + by etrans.
    + congruence.
    + apply (new_keys_trans _ st st1 st2); [done..| |].
      * intros Z HZ HZ1. destruct (Hnew1 Z HZ HZ1) as (Hs & Hm & _).
        split; [done|]. exists b. split; [set_solver|done].
      * eapply new_keys_mono; [|done]. intros Z (b' & ? & ?).
        exists b'. split; [set_solver|done].
    + constructor; [by eapply extends_lookup|done].
Qed.

Lemma reduce_intersection_spec refs st :
  refs ≠ [] → (∀ r, r ∈ refs → r < length (heap st)) →
  ∃ r' st',
    reduce_intersection refs st = Ok (r', st') ∧
    extends st st' ∧ rules st' = rules st ∧ Cplus st' = Cplus st ∧
    r' < length (heap st') ∧
    ∀ y, y ∈ heap st' !!! r' ↔ ∀ r, r ∈ refs → y ∈ heap st !!! r.
Proof.
  intros Hne Hb. destruct refs as [|r0 [|r1 refs]]; [done| |].
  - exists r0, st. split_and!; [done..|set_solver|].
    intros y. set_solver.
  - cbn [reduce_intersection]. unfold alloc.
    eexists _, _. split; [done|]. split_and!; simpl.
    + split; simpl; [done..|]. by apply prefix_app_r.
    + done.
    + done.
    + rewrite length_app. simpl. lia.
    + intros y. rewrite lookup_total_app_r, Nat.sub_diag by done. simpl.
      rewrite elem_of_foldl_meet. set_solver.
Qed.

Lemma swap_test_extends st st' X y :
  store_ok st → extends st st' →
  (∀ b, b < length X → is_Some (Cplus st !! swap_in X b y)) →
  swap_test st' X y ↔ swap_test st X y.
Proof.
  intros Hok Hex Hs. unfold swap_test.
  apply forall_proper; intros b. apply forall_proper; intros Hb.
  rewrite (extends_cval st st'); auto.
Qed.

Lemma prune_try_spec X y st :
  store_ok st → X ≠ [] →
  ∃ st' new,
    prune_try X y st = Ok (tt, st') ∧
    store_ok st' ∧ extends st st' ∧
    new_keys (λ Z, ∃ b, b < length X ∧ Z `sublist_of` swap_in X b y) st st' ∧
    (∀ b, b < length X → is_Some (Cplus st' !! swap_in X b y)) ∧
    rules st' = rules st ++ new ∧
    (∀ Wy, Wy ∈ new ↔ Wy = (X, y) ∧ swap_test st' X y).
Proof.
  intros Hok HX. unfold prune_try.
  destruct (getitem_all_spec (λ b, swap_in X b y) (seq 0 (length X)) st Hok)
    as (refs & st1 & E1 & Hok1 & Hex1 & Hru1 & Hnew1 & Hrefs).
  assert (length refs = length X) as Hlr.
  { apply Forall2_length in Hrefs. by rewrite length_seq in Hrefs. }
  assert (∀ b, b < length X →
    ∃ r, refs !! b = Some r ∧ Cplus st1 !! swap_in X b y = Some r) as Hrb.
  { intros b Hb. destruct (lookup_lt_is_Some_2 refs b) as [r Hr]; [lia|].
    exists r. split; [done|].
    eapply (Forall2_lookup_lr _ _ _ b b) in Hrefs; [done| |done].
    rewrite lookup_seq. split; [done|lia]. }
  destruct (reduce_intersection_spec refs st1)
    as (r' & st2 & E2 & Hex2 & Hru2 & HC2 & Hr' & Hv2).
  { destruct refs; [|done]. destruct X; simpl in *; [done|lia]. }
  { intros r Hr. apply list_elem_of_lookup in Hr as [b Hb].
    destruct (Hrb b) as (r0 & ? & ?); [apply lookup_lt_Some in Hb; lia|].
    simplify_eq. by eapply so_bound. }
  assert (store_ok st2) as Hok2.
  { destruct Hok1 as [H1 H2 H3]. split; rewrite HC2; [done| |done].
    intros Z r Hr. apply H2 in Hr. destruct Hex2 as [_ _ Hp].
    apply prefix_length in Hp. lia. }
  assert (y ∈ heap st2 !!! r' ↔ swap_test st2 X y) as Htest.
  { rewrite Hv2. unfold swap_test. split.
    - intros Hy b Hb. destruct (Hrb b Hb) as (r & Hr & HC).
      rewrite (extends_cval st1 st2) by eauto. unfold cval. rewrite HC.
      apply Hy. by eapply list_elem_of_lookup_2.
    - intros Hy r Hr. apply list_elem_of_lookup in Hr as [b Hb].
      assert (b < length X) as Hlt by (apply lookup_lt_Some in Hb; lia).
      destruct (Hrb b Hlt) as (r0 & ? & HC). simplify_eq.
      specialize (Hy b Hlt). rewrite (extends_cval st1 st2) in Hy by eauto.
      unfold cval in Hy. by rewrite HC in Hy. }
  assert (new_keys (λ Z, ∃ b, b < length X ∧ Z `sublist_of` swap_in X b y)
            st st2) as Hnew2.
  { intros Z HZ HZ2. rewrite HC2 in HZ2.
    destruct (Hnew1 Z HZ HZ2) as [Hm (b & Hb%elem_of_seq & ?)].
    split; [by apply (meet_of_subsets_extends st1 st2)|].
    exists b. split; [lia|done]. }
  assert (∀ b, b < length X → is_Some (Cplus st2 !! swap_in X b y)) as Hsw.
  { intros b Hb. destruct (Hrb b Hb) as (r & _ & HC). rewrite HC2. eauto. }
  unfold bind. rewrite E1, E2. unfold deref. simpl.
  destruct (decide (y ∈ heap st2 !!! r')) as [Hy|Hy].
  - eexists _, [(X, y)]. split; [done|]. simpl.
    assert (extends st2 {| rules := rules st2 ++ [(X, y)]; pmgr := pmgr st2;
                           Cplus := Cplus st2; heap := heap st2 |}) as Hex3
      by (by split).
    split_and!.
    + by destruct Hok2.
    + etrans; [done|]. by etrans.
    + done.
    + done.
    + congruence.
    + intros Wy. rewrite list_elem_of_singleton.
      rewrite (swap_test_extends st2) by done. tauto.
  - exists st2, []. split; [done|]. split_and!.
    + done.
    + by etrans.
    + done.
    + done.
    + rewrite app_nil_r. congruence.
    + intros Wy. split; [by intros ?%elem_of_nil|]. tauto.
Qed.

Lemma prune_tries_spec X ys st :
  store_ok st → X ≠ [] →
  ∃ st' new,
    forM ys (prune_try X) st = Ok (tt, st') ∧
    store_ok st' ∧ extends st st' ∧
    new_keys (λ Z, ∃ y b, y ∈ ys ∧ b < length X ∧
                          Z `sublist_of` swap_in X b y) st st' ∧
    rules st' = rules st ++ new ∧
    (∀ W y, (W, y) ∈ new ↔ W = X ∧ y ∈ ys ∧ swap_test st' X y) ∧
    (∀ y b, y ∈ ys → b < length X → is_Some (Cplus st' !! swap_in X b y)).
Proof.
  intros Hok HX. revert st Hok. induction ys as [|y ys IH]; intros st Hok.
  - exists st, []. split_and!; [done..|apply new_keys_refl|by rewrite app_nil_r| |].
    + intros W y. split; [by intros ?%elem_of_nil|].
      intros (_ & Hy & _). by apply elem_of_nil in Hy.
    + intros y b Hy. by apply elem_of_nil in Hy.
  - destruct (prune_try_spec X y st Hok HX)
      as (st1 & new1 & E1 & Hok1 & Hex1 & Hnew1 & Hsw1 & Hru1 & Hn1).
    destruct (IH st1 Hok1)
      as (st2 & new2 & E2 & Hok2 & Hex2 & Hnew2 & Hru2 & Hn2 & Hb2).
    exists st2, (new1 ++ new2). split_and!.
    + simpl. unfold bind. by rewrite E1, E2.
    + done.
    + by etrans.
    + apply (new_keys_trans _ st st1 st2); [done..| |].
      * eapply new_keys_mono; [|done]. intros Z (b & ? & ?).
        exists y, b. split; [set_solver|done].
      * eapply new_keys_mono; [|done]. intros Z (y' & b & ? & ?).
        exists y', b. split; [set_solver|done].
    + by rewrite Hru2, Hru1, app_assoc.
    + intros W y'. rewrite elem_of_app, Hn1, Hn2.
      rewrite <-(swap_test_extends st1 st2 X y) by done. split.
      * intros [[[= -> ->] ?]|(-> & ? & ?)]; (split_and!; [done|set_solver|done]).
      * intros (-> & Hy & ?). apply elem_of_cons in Hy as [->|?]; [by left|by right].
    + intros y' b Hy Hb. apply elem_of_cons in Hy as [->|Hy]; [|by apply Hb2].
      destruct (Hsw1 b Hb) as [r Hr]. exists r. by eapply extends_lookup.
Qed.

Lemma prune_at_spec clean X st :
  store_ok st → X ≠ [] → is_Some (Cplus st !! X) →
  is_ok (is_superkey (pmgr st) X) →
  ∃ clean' st' new,
    prune_at clean X st = Ok (clean', st') ∧
    store_ok st' ∧ extends st st' ∧
    new_keys (λ Z, ∃ y b, is_superkey (pmgr st) X = Ok true ∧
                          y ∈ cval st X ∧ y ∉ X ∧ b < length X ∧
                          Z `sublist_of` swap_in X b y) st st' ∧
    rules st' = rules st ++ new ∧
    (∀ W y, (W, y) ∈ new ↔
            W = X ∧ is_superkey (pmgr st) X = Ok true ∧
            y ∈ cval st X ∧ y ∉ X ∧ swap_test st' X y) ∧
    (∀ y b, is_superkey (pmgr st) X = Ok true → y ∈ cval st X → y ∉ X →
            b < length X → is_Some (Cplus st' !! swap_in X b y)) ∧
    (∀ Z, Z ∈ clean' ↔
          Z ∈ clean ∨ Z = X ∧ (cval st X = ∅ ∨ is_superkey (pmgr st) X = Ok true)).
Proof.
  intros Hok HX [r Hr] [sk Hsk]. unfold prune_at.
  unfold bind at 1. rewrite (getitem_hit X st r) by done.
  unfold bind at 1, deref at 1. simpl.
  assert (heap st !!! r = cval st X) as Hv by (unfold cval; by rewrite Hr).
  rewrite Hv.
  unfold bind at 1, pm_read at 1. rewrite Hsk.
  destruct sk.
  - unfold bind at 1. unfold bind at 1. rewrite (getitem_hit X st r) by done.
    unfold bind at 1, deref at 1. simpl. rewrite Hv.
    destruct (prune_tries_spec X (filter (λ x, x ∉ X) (elements (cval st X))) st Hok HX)
      as (st' & new & E & Hok' & Hex' & Hnew' & Hru' & Hn' & Hb').
    rewrite E. unfold ret.
    eexists _, st', new. split; [done|]. split_and!; [done..| |done| | |].
    + eapply new_keys_mono; [|done]. intros Z (y & b & Hy & ? & ?).
      apply list_elem_of_filter in Hy as [? Hy]. apply elem_of_elements in Hy.
      exists y, b. done.
    + intros W y. rewrite Hn', list_elem_of_filter, elem_of_elements. tauto.
    + intros y b _ Hy HyX Hb. apply Hb'; [|done].
      apply list_elem_of_filter. by rewrite elem_of_elements.
    + intros Z. case_decide; set_solver.
  - unfold ret. eexists _, st, []. split; [done|].
    split_and!; [done..|apply new_keys_refl|by rewrite app_nil_r| | |].
    + intros W y. split; [by intros ?%elem_of_nil|]. by intros (_ & ? & _).
    + intros y b ?. done.
    + intros Z. case_decide; set_solver.
Qed.

Lemma prune_nodes_spec l xs clean st :
  store_ok st →
  (∀ X, X ∈ xs → length X = l ∧ X ≠ [] ∧ is_Some (Cplus st !! X) ∧
                 is_ok (is_superkey (pmgr st) X)) →
  ∃ clean' st',
    foldM prune_at clean xs st = Ok (clean', st') ∧
    prune_post (pmgr st) st xs l st' ∧
    (∀ Z, Z ∈ clean' ↔
          Z ∈ clean ∨ Z ∈ xs ∧
            (cval st Z = ∅ ∨ is_superkey (pmgr st) Z = Ok true)).
Proof.
  revert clean st. induction xs as [|X xs IH]; intros clean st Hok Hxs.
  - exists clean, st. split; [done|]. split.
    + split_and!; [done..|apply new_keys_refl|].
      exists []. split; [by rewrite app_nil_r|].
      intros W y. split; [by intros ?%elem_of_nil|].
      intros (HW & _). by apply elem_of_nil in HW.
    + intros Z. split; [by left|]. intros [?|[HZ _]]; [done|].
      by apply elem_of_nil in HZ.
  - destruct (Hxs X) as (Hl & HX & HC & Hsk); [set_solver|].
    destruct (prune_at_spec clean X st Hok HX HC Hsk)
      as (clean1 & st1 & new1 & E1 & Hok1 & Hex1 & Hnew1 & Hru1 & Hn1 & Hb1 & Hc1).
    assert (pmgr st1 = pmgr st) as Hpm by apply Hex1.
    destruct (IH clean1 st1 Hok1)
      as (clean2 & st2 & E2 & (Hok2 & Hex2 & Hnew2 & new2 & Hru2 & Hn2) & Hc2).
    { intros X' HX'. destruct (Hxs X') as (? & ? & [r Hr] & ?); [set_solver|].
      split_and!; [done..| |by rewrite Hpm].
      exists r. by eapply extends_lookup. }
    exists clean2, st2. split; [|split].
    + simpl. unfold bind. by rewrite E1.
    + split_and!.
      * done.
      * by etrans.
      * apply (new_keys_trans _ st st1 st2); [done..| |].
        -- eapply new_keys_mono; [|done]. intros Z (y & b & ? & ? & ? & ? & ?).
           exists X, y, b. split_and!; [set_solver|done..].
        -- eapply new_keys_mono; [|done].
           intros Z (X' & y & b & HX' & ? & Hy & ? & ? & ?).
           exists X', y, b. rewrite <-Hpm. split_and!; [set_solver|done| |done..].
           rewrite <-(extends_cval st st1); [done..|].
           destruct (Hxs X') as (? & ? & ? & ?); [set_solver|done].
      * exists (new1 ++ new2). split; [by rewrite Hru2, Hru1, app_assoc|].
        intros W y. rewrite elem_of_app, Hn1, Hn2, Hpm. split.
        -- intros [(-> & ? & ? & ? & Hs)|(HW & ? & Hy & ? & ?)].
           ++ split_and!; [set_solver|done..|].
              rewrite (swap_test_extends st1 st2); [done..|].
              intros b Hb. by apply Hb1.
           ++ split_and!; [set_solver|done| |done..].
              rewrite <-(extends_cval st st1); [done..|].
              destruct (Hxs W) as (? & ? & ? & ?); [set_solver|done].
        -- intros (HW & ? & Hy & ? & Hs).
           apply elem_of_cons in HW as [->|HW].
           ++ left. split_and!; [done..|].
              rewrite <-(swap_test_extends st1 st2); [done..|].
              intros b Hb. by apply Hb1.
           ++ right. split_and!; [done..| |done|done].
              rewrite (extends_cval st st1); [done..|].
              destruct (Hxs W) as (? & ? & ? & ?); [set_solver|done].
    + intros Z. rewrite Hc2, Hc1, Hpm.
      assert (∀ Z', Z' ∈ xs → cval st1 Z' = cval st Z') as Hcv.
      { intros Z' HZ'. apply extends_cval; [done..|].
        destruct (Hxs Z') as (? & ? & ? & ?); [set_solver|done]. }
      split.
      * intros [[?|[-> ?]]|[HZ ?]]; [by left|right..].
        -- split; [set_solver|done].
        -- split; [set_solver|]. by rewrite <-Hcv.
      * intros [?|[HZ ?]]; [by left; left|].
        apply elem_of_cons in HZ as [->|HZ]; [left; right; done|].
        right. split; [done|]. by rewrite Hcv.
Qed.

Lemma remove_tuples_spec (xs : list (list nat)) (L : gset (list nat)) (st : TANE) :
  NoDup xs → (∀ X, X ∈ xs → X ∈ L) →
  foldM set_remove_tuple L xs st = Ok (L ∖ list_to_set xs, st).
Proof.
  revert L. induction xs as [|X xs IH]; intros L Hnd Hin; simpl.
  - unfold ret. do 2 f_equal. set_solver.
  - apply NoDup_cons in Hnd as [HX Hnd].
    unfold bind, set_remove_tuple at 1. rewrite decide_True by set_solver.
    unfold ret. rewrite IH; [|done|set_solver].
    do 2 f_equal. set_solver.
Qed.

Lemma prune_spec (l : nat) (L : gset (list nat)) (st : TANE) :
  store_ok st →
  (∀ X, X ∈ L → length X = l ∧ X ≠ [] ∧ is_Some (Cplus st !! X) ∧
                is_ok (is_superkey (pmgr st) X)) →
  ∃ L' st',
    prune L st = Ok (L', st') ∧
    prune_post (pmgr st) st (elements L) l st' ∧
    (∀ X, X ∈ L' ↔
          X ∈ L ∧ cval st X ≠ ∅ ∧ is_superkey (pmgr st) X = Ok false).
Proof.
  intros Hok HL. unfold prune.
  destruct (prune_nodes_spec l (elements L) ∅ st Hok)
    as (clean & st' & E & Hpost & Hc).
  { intros X HX. apply HL. set_solver. }
  unfold bind. rewrite E.
  rewrite remove_tuples_spec; [|apply NoDup_elements|].
  2:{ intros X HX. apply elem_of_elements, Hc in HX as [?|[? _]]; set_solver. }
  eexists _, st'. split; [done|]. split; [done|].
  intros X. rewrite elem_of_difference, elem_of_list_to_set, elem_of_elements, Hc,
    elem_of_elements.
  split.
  - intros [HX Hn]. split; [done|].
    destruct (HL X HX) as (_ & _ & _ & [b Hb]).
    split.
    + intros He. apply Hn. right. auto.
    + destruct b; [|done]. exfalso. apply Hn. right. auto.
  - intros (HX & Hne & Hsk). split; [done|].
    intros [?|[_ [?|?]]]; [set_solver|done|congruence].
Qed.

End prune_facts.

(** ** Procedure GENERATE_NEXT_LEVEL *)

Section generate_facts.

Lemma elem_of_combinations_1 {A} (k : list A) x y :
  (x, y) ∈ combinations k → x ∈ k ∧ y ∈ k ∧ (NoDup k → x ≠ y).
Proof.
  induction k as [|z k IH]; simpl; [by intros ?%elem_of_nil|].
  rewrite elem_of_app, list_elem_of_fmap. intros [(y' & [= -> ->] & Hy)|H].
  - split_and!; [set_solver..|]. intros [? _]%NoDup_cons. set_solver.
  - destruct (IH H) as (? & ? & Hne). split_and!; [set_solver..|].
    intros [_ ?]%NoDup_cons. auto.
Qed.

Lemma elem_of_combinations_2 {A} (k : list A) x y :
  x ∈ k → y ∈ k → x ≠ y → (x, y) ∈ combinations k ∨ (y, x) ∈ combinations k.
Proof.
  induction k as [|z k IH]; simpl; [by intros ?%elem_of_nil|].
  intros Hx Hy Hne. rewrite !elem_of_app, !list_elem_of_fmap.
  apply elem_of_cons in Hx as [->|Hx], Hy as [->|Hy]; [done| | |].
  - left; left. eauto.
  - right; left. eauto.
  - destruct (IH Hx Hy Hne); [left|right]; by right.
Qed.

Lemma prefix_blocks_default (xs : list (list nat))
    (B : gmap (list nat) (list (list nat))) p :
  default [] (foldl (λ (blocks : gmap (list nat) (list (list nat))) atts,
             <[removelast atts := default [] (blocks !! removelast atts) ++ [atts]]>
               blocks) B xs !! p)
  = default [] (B !! p) ++ filter (λ a, removelast a = p) xs.
Proof.
  revert B. induction xs as [|x xs IH]; intros B; simpl.
  - by rewrite app_nil_r.
  - rewrite IH, filter_cons. destruct (decide (removelast x = p)) as [<-|Hne].
    + rewrite lookup_insert_eq. simpl. by rewrite <-app_assoc.
    + by rewrite lookup_insert_ne.
Qed.

Lemma elem_of_prefix_blocks L k :
  k ∈ prefix_blocks L → ∃ p, k = filter (λ a, removelast a = p) (elements L).
Proof.
  unfold prefix_blocks. rewrite list_elem_of_fmap.
  intros ([p k'] & -> & Hk). apply elem_of_map_to_list in Hk.
  exists p. simpl.
  pose proof (prefix_blocks_default (elements L) ∅ p) as H.
  rewrite Hk, lookup_empty in H. done.
Qed.

Lemma prefix_blocks_elem_of L x :
  x ∈ L → filter (λ a, removelast a = removelast x) (elements L) ∈ prefix_blocks L.
Proof.
  intros Hx. unfold prefix_blocks.
  pose proof (prefix_blocks_default (elements L) ∅ (removelast x)) as H.
  rewrite lookup_empty in H. simpl in H.
  destruct (foldl _ ∅ (elements L) !! removelast x) as [k|] eqn:E; simpl in H.
  - apply list_elem_of_fmap. exists (removelast x, k). split; [by rewrite H|].
    by apply elem_of_map_to_list.
  - assert (x ∈ filter (λ a, removelast a = removelast x) (elements L)) as Hin.
    { apply list_elem_of_filter. split; [done|]. by apply elem_of_elements. }
    rewrite <-H in Hin. by apply elem_of_nil in Hin.
Qed.

Lemma elem_of_all_pairs_1 L i j :
  (i, j) ∈ all_pairs L →
  i ∈ L ∧ j ∈ L ∧ i ≠ j ∧ removelast i = removelast j.
Proof.
  unfold all_pairs. rewrite list_elem_of_join.
  intros (ps & Hij & Hps). apply list_elem_of_fmap in Hps as (k & -> & Hk).
  apply elem_of_prefix_blocks in Hk as [p ->].
  apply elem_of_combinations_1 in Hij as (Hi & Hj & Hne).
  apply list_elem_of_filter in Hi as [<- Hi], Hj as [Hp Hj].
  rewrite elem_of_elements in Hi, Hj. split_and!; [done..| |done].
  apply Hne. apply NoDup_filter, NoDup_elements.
Qed.

Lemma elem_of_all_pairs_2 L i j :
  i ∈ L → j ∈ L → i ≠ j → removelast i = removelast j →
  (i, j) ∈ all_pairs L ∨ (j, i) ∈ all_pairs L.
Proof.
  intros Hi Hj Hne Hp.
  pose proof (prefix_blocks_elem_of L i Hi) as Hk.
  set (k := filter (λ a, removelast a = removelast i) (elements L)) in *.
  destruct (elem_of_combinations_2 k i j) as [H|H]; [| |done| |].
  - apply list_elem_of_filter. by rewrite elem_of_elements.
  - apply list_elem_of_filter. by rewrite elem_of_elements.
  - left. unfold all_pairs. apply list_elem_of_join. eexists. split; [done|].
    by apply list_elem_of_fmap_2.
  - right. unfold all_pairs. apply list_elem_of_join. eexists. split; [done|].
    by apply list_elem_of_fmap_2.
Qed.

Lemma foldM_app {A B} (f : B → A → M B) (b : B) (l1 l2 : list A) st :
  foldM f b (l1 ++ l2) st = (do b' <- foldM f b l1; foldM f b' l2) st.
Proof.
  revert b st. induction l1 as [|x l1 IH]; intros b st; simpl; [done|].
  unfold bind. destruct (f b x st) as [[b' st']|]; [|done].
  apply IH.
Qed.

Lemma foldM_join {A B C} (f : B → A → M B) (g : C → list A) (b : B)
    (ls : list C) st :
  foldM (λ b k, foldM f b (g k)) b ls st = foldM f b (mjoin (g <$> ls)) st.
Proof.
  revert b st. induction ls as [|l ls IH]; intros b st; simpl; [done|].
  rewrite foldM_app. unfold bind.
  destruct (foldM f b (g l) st) as [[b' st']|]; [|done]. apply IH.
Qed.

Lemma set_cache_id st : set_cache st (cache (pmgr st)) = st.
Proof. by destruct st as [? [] ? ?]. Qed.

Lemma admissible_forallb L X :
  forallb (λ a, bool_decide (without X a ∈ L)) (seq 0 (length X)) = true
  ↔ admissible L X.
Proof.
  rewrite forallb_forall. unfold admissible. split.
  - intros H a Ha. eapply bool_decide_eq_true, H, list_elem_of_In, elem_of_seq. lia.
  - intros H a Ha%list_elem_of_In%elem_of_seq. apply bool_decide_eq_true, H. lia.
Qed.

Global Instance admissible_dec L X : Decision (admissible L X).
Proof.
  refine (cast_if (decide (forallb (λ a, bool_decide (without X a ∈ L))
                                   (seq 0 (length X)) = true)));
    by rewrite <-admissible_forallb.
Defined.

Lemma length_merge_pair i j :
  length i = length j → length (merge_pair i j) = S (length i).
Proof.
  intros H. unfold merge_pair. case_decide; rewrite length_app; simpl; lia.
Qed.

Lemma generate_pair_spec L next i j st l m m' di dj :
  cache (pmgr st) !! l = Some (Some m) →
  cache (pmgr st) !! S l = Some (Some m') →
  length i = l → length j = l → 0 < l →
  m !! i = Some di → m !! j = Some dj →
  generate_pair L next (i, j) st
  = Ok (if decide (admissible L (merge_pair i j))
        then ({[merge_pair i j]} ∪ next,
              set_cache st (<[S l := Some (<[merge_pair i j :=
                                 PPattern.intersection di dj]> m')]>
                              (cache (pmgr st))))
        else (next, st)).
Proof.
  intros Hm Hm' Hi Hj Hl Hdi Hdj. unfold generate_pair.
  assert (∀ x : list nat, 0 < length x → ∃ y, last x = Some y) as Hlast.
  { intros x Hx. destruct (last x) eqn:E; [eauto|].
    apply last_None in E. subst. simpl in Hx. lia. }
  destruct (Hlast i) as [li Hli]; [lia|].
  destruct (Hlast j) as [lj Hlj]; [lia|].
  unfold bind, pm_read, last_item. rewrite Hli, Hlj.
  unfold merge_pair. rewrite Hli, Hlj. simpl.
  set (X := if decide (li < lj) then i ++ [lj] else j ++ [li]).
  assert (length X = S l) as HX.
  { unfold X. case_decide; rewrite length_app; simpl; lia. }
  destruct (forallb _ _) eqn:E.
  - rewrite decide_True by (by apply admissible_forallb).
    unfold pm_update, register_partition, cache_get, res_bind.
    rewrite Hi, Hj, Hm, Hdi, Hdj, HX, Hm'. done.
  - rewrite decide_False; [done|].
    rewrite <-admissible_forallb. congruence.
Qed.

Lemma generate_pairs_spec L ps next st l m m' :
  cache (pmgr st) !! l = Some (Some m) →
  cache (pmgr st) !! S l = Some (Some m') →
  0 < l →
  (∀ i j, (i, j) ∈ ps → length i = l ∧ length j = l ∧
                        is_Some (m !! i) ∧ is_Some (m !! j)) →
  ∃ next' m'',
    foldM (generate_pair L) next ps st
    = Ok (next', set_cache st (<[S l := Some m'']> (cache (pmgr st)))) ∧
    (∀ X, X ∈ next' ↔
          X ∈ next ∨ ∃ i j, (i, j) ∈ ps ∧ X = merge_pair i j ∧ admissible L X) ∧
    (∀ X, is_Some (m'' !! X) ↔
          is_Some (m' !! X) ∨
          ∃ i j, (i, j) ∈ ps ∧ X = merge_pair i j ∧ admissible L X) ∧
    (∀ X d, m'' !! X = Some d →
            m' !! X = Some d ∨
            ∃ i j, (i, j) ∈ ps ∧ X = merge_pair i j ∧ admissible L X ∧
                   d = PPattern.intersection (m !!! i) (m !!! j)).
Proof.
  revert next st m'. induction ps as [|[i j] ps IH]; intros next st m' Hm Hm' Hl Hps.
  - exists next, m'. split_and!.
    + simpl. unfold ret. rewrite insert_id by done. by rewrite set_cache_id.
    + intros X. split; [by left|].
      intros [?|(i & j & H & _)]; [done|]. by apply elem_of_nil in H.
    + intros X. split; [by left|].
      intros [?|(i & j & H & _)]; [done|]. by apply elem_of_nil in H.
    + intros X d ?. by left.
  - destruct (Hps i j) as (Hi & Hj & [di Hdi] & [dj Hdj]); [set_solver|].
    cbn [foldM]. unfold bind.
    rewrite (generate_pair_spec L next i j st l m m' di dj) by done.
    destruct (decide (admissible L (merge_pair i j))) as [Had|Had].
    + set (X0 := merge_pair i j) in *.
      set (m1 := <[X0 := PPattern.intersection di dj]> m').
      set (st1 := set_cache st (<[S l := Some m1]> (cache (pmgr st)))).
      destruct (IH ({[X0]} ∪ next) st1 m1) as (next' & m'' & E & Hn & Hd & He).
      { unfold st1. simpl. rewrite lookup_insert_ne by lia. done. }
      { unfold st1. simpl. by rewrite lookup_insert_eq. }
      { done. }
      { intros i' j' H. apply Hps. set_solver. }
      exists next', m''. split_and!.
      * rewrite E. unfold st1, set_cache. simpl. by rewrite insert_insert_eq.
      * intros X. rewrite Hn. split.
        -- intros [[->%elem_of_singleton|?]%elem_of_union|(i' & j' & ? & ?)].
           ++ right. exists i, j. split_and!; [set_solver|done..].
           ++ by left.
           ++ right. exists i', j'. split; [set_solver|done].
        -- intros [?|(i' & j' & Hin & -> & ?)]; [left; set_solver|].
           apply elem_of_cons in Hin as [[= -> ->]|?]; [left; set_solver|].
           right. eauto.
      * intros X. rewrite Hd. unfold m1. rewrite lookup_insert_is_Some. split.
        -- intros [[<-|[_ ?]]|(i' & j' & ? & ?)].
           ++ right. exists i, j. split_and!; [set_solver|done..].
           ++ by left.
           ++ right. exists i', j'. split; [set_solver|done].
        -- intros [?|(i' & j' & Hin & -> & ?)].
           ++ left. destruct (decide (X0 = X)); [by left|by right].
           ++ apply elem_of_cons in Hin as [[= -> ->]|?]; [left; by left|].
              right. eauto.
      * intros X d HX. destruct (He X d HX) as [H1|(i' & j' & ? & ?)].
        -- unfold m1 in H1. apply lookup_insert_Some in H1 as [[<- <-]|[_ ?]].
           ++ right. exists i, j. split_and!; [set_solver|done..|].
              by rewrite !lookup_total_alt, Hdi, Hdj.
           ++ by left.
        -- right. exists i', j'. split; [set_solver|done].
    + destruct (IH next st m') as (next' & m'' & E & Hn & Hd & He); [done..| |].
      { intros i' j' H. apply Hps. set_solver. }
      exists next', m''. split_and!.
      * done.
      * intros X. rewrite Hn. split.
        -- intros [?|(i' & j' & ? & ?)]; [by left|].
           right. exists i', j'. split; [set_solver|done].
        -- intros [?|(i' & j' & Hin & -> & ?)]; [by left|].
           apply elem_of_cons in Hin as [[= -> ->]|?]; [done|]. right. eauto.
      * intros X. rewrite Hd. split.
        -- intros [?|(i' & j' & ? & ?)]; [by left|].
           right. exists i', j'. split; [set_solver|done].
        -- intros [?|(i' & j' & Hin & -> & ?)]; [by left|].
           apply elem_of_cons in Hin as [[= -> ->]|?]; [done|]. right. eauto.
      * intros X d HX. destruct (He X d HX) as [?|(i' & j' & ? & ?)]; [by left|].
        right. exists i', j'. split; [set_solver|done].
Qed.

Lemma merge_pair_comm i j :
  i ≠ [] → j ≠ [] → i ≠ j → removelast i = removelast j →
  merge_pair i j = merge_pair j i.
Proof.
  intros Hi Hj Hne Hp. unfold merge_pair.
  destruct (last i) as [a|] eqn:Ei; [|by apply last_None in Ei].
  destruct (last j) as [b|] eqn:Ej; [|by apply last_None in Ej].
  simpl. apply last_Some in Ei as [i' ->], Ej as [j' ->].
  rewrite !removelast_last in Hp. subst j'.
  repeat case_decide; try done; try lia.
  assert (a = b) by lia. by subst.
Qed.

Lemma generate_next_level_spec L st l m :
  current_level (pmgr st) = l → 0 < l →
  cache (pmgr st) !! l = Some (Some m) →
  (∀ X, X ∈ L → length X = l ∧ is_Some (m !! X)) →
  ∃ next m',
    generate_next_level L st
    = Ok (next, {| rules := rules st;
                   pmgr := {| cache := <[S l := Some m']> (cache (pmgr st));
                              current_level := S l |};
                   Cplus := Cplus st; heap := heap st |}) ∧
    gen_post L l m m' next.
Proof.
  intros Hcur Hl Hm HL. unfold generate_next_level.
  unfold bind at 1. unfold pm_update at 1, new_level. rewrite Hcur, Nat.add_1_r.
  rewrite foldM_join. fold (all_pairs L).
  set (st1 := {| rules := rules st; pmgr := _; Cplus := _; heap := _ |}).
  destruct (generate_pairs_spec L (all_pairs L) ∅ st1 l m ∅)
    as (next & m' & E & Hn & Hd & He).
  { unfold st1. simpl. rewrite lookup_insert_ne by lia. done. }
  { unfold st1. simpl. by rewrite lookup_insert_eq. }
  { done. }
  { intros i j (Hi & Hj & _)%elem_of_all_pairs_1.
    destruct (HL i Hi), (HL j Hj). done. }
  exists next, m'. split.
  - rewrite E. unfold set_cache, st1. simpl. by rewrite insert_insert_eq.
  - split_and!.
    + intros X. rewrite Hn. set_solver.
    + intros X. rewrite Hd, Hn, lookup_empty, is_Some_alt. set_solver.
    + intros X d HX. destruct (He X d HX) as [H|H].
      * by rewrite lookup_empty in H.
      * destruct H as (i & j & ? & ? & ? & ?). eauto 10.
Qed.

End generate_facts.

(** ** Tuples in increasing order *)

Section tuple_facts.

Lemma ssorted_sublist X Y : X `sublist_of` Y → ssorted Y → ssorted X.
Proof.
  unfold ssorted. induction 1 as [|x X Y Hs IH|x X Y Hs IH]; intros HY.
  - done.
  - apply StronglySorted_inv in HY as [HY Hx]. constructor; [by apply IH|].
    rewrite Forall_forall in *. intros z Hz. apply Hx.
    by eapply elem_of_sublist.
  - apply StronglySorted_inv in HY as [HY _]. by apply IH.
Qed.

Lemma ssorted_NoDup X : ssorted X → NoDup X.
Proof.
  unfold ssorted. induction 1 as [|x X _ IH Hx]; constructor; [|done].
  rewrite Forall_forall in Hx. intros Hin. specialize (Hx _ Hin). lia.
Qed.

Lemma ssorted_without X a : ssorted X → ssorted (without X a).
Proof. apply ssorted_sublist, sublist_without. Qed.

Lemma ssorted_snoc p a b :
  ssorted (p ++ [a]) → a < b → ssorted (p ++ [a; b]).
Proof.
  unfold ssorted. intros Hs Hab.
  change (p ++ [a; b]) with (p ++ [a] ++ [b]). rewrite app_assoc.
  apply StronglySorted_app_2; [|done|repeat constructor].
  intros x y Hx ->%list_elem_of_singleton.
  apply elem_of_app in Hx as [Hx| ->%list_elem_of_singleton]; [|done].
  pose proof (StronglySorted_app_1_elem_of lt p [a] x a Hs Hx) as H.
  rewrite list_elem_of_singleton in H. specialize (H eq_refl). lia.
Qed.

(** Two sorted tuples with the same attributes are the same tuple. *)
Lemma ssorted_ext X Y :
  ssorted X → ssorted Y → (∀ x, x ∈ X ↔ x ∈ Y) → X = Y.
Proof.
  intros HX HY H. apply (StronglySorted_unique_strong lt); [|done..|].
  - intros x y _ _ ? ?. lia.
  - apply NoDup_Permutation; auto using ssorted_NoDup.
Qed.

Lemma ssorted_lookup_lt X a b x y :
  ssorted X → X !! a = Some x → X !! b = Some y → a < b → x < y.
Proof.
  unfold ssorted. intros HX. revert a b.
  induction HX as [|z X _ IH Hz]; intros a b Ha Hb Hab; [done|].
  destruct b as [|b]; [lia|]. destruct a as [|a]; simpl in *.
  - simplify_eq. rewrite Forall_forall in Hz. apply Hz.
    by eapply list_elem_of_lookup_2.
  - apply (IH a b); [done..|lia].
Qed.

Lemma merge_pair_sorted i j :
  ssorted i → ssorted j → i ≠ [] → j ≠ [] → i ≠ j →
  removelast i = removelast j →
  ssorted (merge_pair i j) ∧
  (∀ x, x ∈ merge_pair i j ↔ x ∈ i ∨ x ∈ j).
Proof.
  intros Hsi Hsj Hi Hj Hne Hp. unfold merge_pair.
  destruct (last i) as [a|] eqn:Ei; [|by apply last_None in Ei].
  destruct (last j) as [b|] eqn:Ej; [|by apply last_None in Ej].
  simpl. apply last_Some in Ei as [i' ->], Ej as [j' ->].
  rewrite !removelast_last in Hp. subst j'.
  assert (a ≠ b) by (by intros ->).
  case_decide.
  - split.
    + rewrite <-app_assoc. by apply ssorted_snoc.
    + set_solver.
  - split.
    + rewrite <-app_assoc. apply ssorted_snoc; [done|lia].
    + set_solver.
Qed.

(** A sorted tuple of two or more attributes is formed from its two
    last immediate subsets. *)
Lemma merge_pair_parents X :
  ssorted X → 2 ≤ length X →
  let i := without X (length X - 1) in
  let j := without X (length X - 2) in
  i ≠ j ∧ removelast i = removelast j ∧ merge_pair i j = X.
Proof.
  intros HX Hlen.
  destruct (decide (X = [])) as [->|Hne]; [simpl in Hlen; lia|].
  destruct (exists_last Hne) as (X1 & b & ->).
  destruct (decide (X1 = [])) as [->|Hne1]; [simpl in Hlen; lia|].
  destruct (exists_last Hne1) as (p & a & ->).
  rewrite !length_app. simpl.
  replace (length p + 1 + 1 - 1) with (length (p ++ [a])) by (rewrite length_app; simpl; lia).
  replace (length p + 1 + 1 - 2) with (length p) by lia.
  assert (a < b) as Hab.
  { apply (ssorted_lookup_lt ((p ++ [a]) ++ [b]) (length p) (S (length p))); [done| | |lia].
    - rewrite <-app_assoc. by rewrite lookup_app_r, Nat.sub_diag.
    - rewrite <-app_assoc, lookup_app_r by lia.
      by replace (S (length p) - length p) with 1 by lia. }
  assert (without ((p ++ [a]) ++ [b]) (length (p ++ [a])) = p ++ [a]) as ->.
  { unfold without. rewrite take_app_length.
    rewrite drop_ge by (rewrite !length_app; simpl; lia). by rewrite app_nil_r. }
  assert (without ((p ++ [a]) ++ [b]) (length p) = p ++ [b]) as ->.
  { unfold without. rewrite <-app_assoc, take_app_length.
    rewrite drop_app_ge by lia.
    by replace (S (length p) - length p) with 1 by lia. }
  cbn zeta. split_and!.
  - intros E. apply app_inv_head in E. simplify_eq. lia.
  - by rewrite !removelast_last.
  - unfold merge_pair. rewrite !last_snoc. simpl.
    by rewrite decide_True by done.
Qed.

(** The candidates of the next level, when the level holds sorted tuples
    of one length: the sorted tuples one longer whose immediate subsets
    are all in the level. *)
Lemma next_level_sorted (L : gset (list nat)) l X :
  0 < l → (∀ Y, Y ∈ L → ssorted Y ∧ length Y = l) →
  (∃ i j, (i, j) ∈ all_pairs L ∧ X = merge_pair i j ∧ admissible L X)
  ↔ ssorted X ∧ length X = S l ∧ admissible L X.
Proof.
  intros Hl HL. split.
  - intros (i & j & Hij & -> & Had).
    apply elem_of_all_pairs_1 in Hij as (Hi & Hj & Hne & Hp).
    destruct (HL i Hi) as [Hsi Hli], (HL j Hj) as [Hsj Hlj].
    assert (i ≠ []) by (intros ->; simpl in Hli; lia).
    assert (j ≠ []) by (intros ->; simpl in Hlj; lia).
    destruct (merge_pair_sorted i j) as [HsX _]; auto.
    split_and!; [done| |done]. rewrite length_merge_pair; lia.
  - intros (HsX & HlX & Had).
    destruct (merge_pair_parents X HsX) as (Hne & Hp & Hm); [lia|].
    cbn zeta in *.
    set (i := without X (length X - 1)) in *.
    set (j := without X (length X - 2)) in *.
    assert (i ∈ L) as Hi by (apply Had; lia).
    assert (j ∈ L) as Hj by (apply Had; lia).
    destruct (HL i Hi) as [Hsi Hli], (HL j Hj) as [Hsj Hlj].
    destruct (elem_of_all_pairs_2 L i j) as [H|H]; [done..| |].
    + exists i, j. by rewrite Hm.
    + exists j, i. split; [done|]. rewrite merge_pair_comm, Hm; [done| | |done..].
      * intros E. rewrite E in Hlj. simpl in Hlj. lia.
      * intros E. rewrite E in Hli. simpl in Hli. lia.
Qed.

End tuple_facts.

(** ** The loop of [run] *)

Section run_facts.
Context (T : list (list (gset nat))).

Lemma list_to_map_imap {K} `{Countable K} {A} (g : nat → K) (l : list A) k d :
  Inj (=) (=) g →
  (list_to_map (imap (λ i j, (g i, j)) l) : gmap K A) !! k = Some d
  ↔ ∃ i, k = g i ∧ l !! i = Some d.
Proof.
  intros Hg. revert g Hg. induction l as [|x l IH]; intros g Hg; simpl.
  - rewrite lookup_empty. naive_solver.
  - rewrite lookup_insert_Some. rewrite (IH (g ∘ S)).
    2:{ intros i j Hij. apply Hg in Hij. lia. }
    split.
    + intros [[<- <-]|[_ (i & -> & Hi)]]; [by exists 0|by exists (S i)].
    + intros ([|i] & -> & Hi); simpl in Hi.
      * left. by simplify_eq.
      * right. split; [|by eauto]. intros E. by apply Hg in E.
Qed.

Lemma level_ok_start :
  level_ok T (run_start T).1 1 (tane_init T)
    (list_to_set ((λ i, [i]) <$> R T))
    (list_to_map (imap (λ i j, ([i], j)) T)).
Proof.
  split; simpl.
  - lia.
  - done.
  - done.
  - done.
  - rewrite !dom_insert_L, dom_empty_L. set_solver.
  - done.
  - split.
    + by exists 0.
    + intros Z r Hr. simpl in Hr.
      apply lookup_singleton_Some in Hr as [<- <-]. simpl. lia.
    + intros Z Z' r Hlen Hr. simpl in Hr.
      apply lookup_singleton_Some in Hr as [<- <-]. simpl in Hlen. lia.
  - intros Z [r Hr]. apply lookup_singleton_Some in Hr as [<- <-]. simpl. lia.
  - intros X. rewrite elem_of_list_to_set, list_elem_of_fmap.
    intros (i & -> & Hi). unfold R in Hi. apply elem_of_seq in Hi.
    split_and!; [repeat constructor|done|].
    intros x ->%list_elem_of_singleton. lia.
  - intros X. rewrite elem_of_list_to_set, list_elem_of_fmap. split.
    + intros (i & -> & Hi). unfold R in Hi. apply elem_of_seq in Hi.
      destruct (lookup_lt_is_Some_2 T i) as [d Hd]; [lia|].
      exists d. apply (list_to_map_imap (λ i, [i])); [by intros ?? [=]|]. eauto.
    + intros [d Hd].
      apply (list_to_map_imap (λ i, [i])) in Hd as (i & -> & Hi);
        [|by intros ?? [=]].
      exists i. split; [done|]. apply elem_of_seq.
      apply lookup_lt_Some in Hi. lia.
  - intros X a. rewrite elem_of_list_to_set, list_elem_of_fmap.
    intros (i & -> & Hi) Ha. simpl in Ha.
    assert (a = 0) as -> by lia. unfold without. simpl.
    by rewrite lookup_singleton_eq.
  - lia.
Qed.

Lemma lhs_of_without X y :
  y ∈ X → ∃ a, a < length X ∧ lhs_of X y = without X a.
Proof.
  intros Hy. destruct (index_elem_of X y Hy) as (a & Ha & Hl).
  exists a. split; [by eapply lookup_lt_Some|]. unfold lhs_of. by rewrite Ha.
Qed.

Lemma level_ok_cd_ready L l st Lcur m X :
  level_ok T L l st Lcur m → X ∈ Lcur → cd_ready T st X.
Proof.
  intros Hok HX. destruct (lo_tuple _ _ _ _ _ _ Hok X HX) as (Hs & Hlen & Hlt).
  split.
  - destruct (Cplus st !! X) eqn:E; [|done].
    assert (length X < l) by (eapply lo_keys; eauto). lia.
  - by apply ssorted_NoDup.
  - intros a Ha. by eapply lo_below.
  - intros y Hy. destruct (lhs_of_without X y Hy) as (a & Ha & ->).
    unfold check_fd. destruct (without X a) eqn:E; [by eexists|]. rewrite <-E.
    assert (2 ≤ l) as Hl2.
    { apply (f_equal length) in E. rewrite length_without in E by done.
      simpl in E. lia. }
    destruct (lo_prev _ _ _ _ _ _ Hok Hl2) as (mp & Hmp & Hsub).
    destruct (Hsub X a HX Ha) as [d Hd].
    unfold cache_get. rewrite length_without by done. rewrite Hlen, Hmp, Hd.
    simpl. destruct (lookup_lt_is_Some_2 T y) as [dy ->]; [by apply Hlt|].
    by eexists.
Qed.

Lemma run_body_spec L l st Lcur m :
  level_ok T L l st Lcur m →
  ∃ L' st' next m',
    run_body T (L, l) st = Ok ((L', S l), st') ∧
    turn T l st Lcur m st' next m' ∧
    level_ok T L' (S l) st' next m'.
Proof.
  intros Hok. pose proof Hok as [Hpos Hlen Hcur Hlev Hdom Hm Hst Hkeys Htup Hpart Hbelow Hprev].
  destruct (compute_dependencies_spec T Lcur st Hst) as (st1 & E1 & Hcd).
  { intros X HX. by eapply level_ok_cd_ready. }
  pose proof Hcd as (Hst1 & Hex1 & Hother1 & HL1 & _).
  assert (pmgr st1 = pmgr st) as Hpm1 by apply Hex1.
  destruct (prune_spec l Lcur st1 Hst1) as (Lp & st2 & E2 & Hpr & HLp).
  { intros X HX. destruct (Htup X HX) as (_ & HlenX & _).
    split_and!; [done| | |].
    - intros ->. simpl in HlenX. lia.
    - apply HL1. set_solver.
    - rewrite Hpm1. unfold is_superkey, cache_get. rewrite HlenX, Hm.
      apply Hpart in HX as [d ->]. by eexists. }
  rewrite Hpm1 in Hpr, HLp.
  pose proof Hpr as (Hst2 & Hex2 & Hnew2 & _).
  assert (pmgr st2 = pmgr st) as Hpm2 by (rewrite <-Hpm1; apply Hex2).
  assert (∀ X, X ∈ Lp → X ∈ Lcur) as HLpL by (intros X HX; apply HLp in HX; tauto).
  destruct (generate_next_level_spec Lp st2 l m) as (next & m' & E3 & Hgen).
  { by rewrite Hpm2. }
  { done. }
  { by rewrite Hpm2. }
  { intros X HX%HLpL. split; [by apply Htup|by apply Hpart]. }
  rewrite Hpm2 in E3.
  assert (is_Some (cache (pmgr st) !! (l - 1))) as [prev Hprev'].
  { apply elem_of_dom. rewrite Hdom. set_solver. }
  eexists _, (next_state l st st2 m'), next, m'. split_and!.
  - unfold run_body. rewrite Hcur. unfold bind at 1. rewrite E1.
    unfold bind at 1. rewrite E2. unfold bind at 1. rewrite E3.
    unfold bind, memory_wipe, pm_update, purge_old_level, ret. simpl.
    rewrite decide_False by lia.
    replace (l - 0) with l by lia. replace (S l - 2) with (l - 1) by lia.
    rewrite lookup_insert_ne by lia. rewrite Hprev'.
    rewrite Nat.add_1_r. unfold next_state.
    replace (S l - 1) with l by lia. reflexivity.
  - exists st1, st2, Lp. by split_and!.
  - destruct Hgen as (Hn & Hd & He).
    assert (∀ X, X ∈ next → ∃ i j, i ∈ Lcur ∧ j ∈ Lcur ∧ i ≠ j ∧
              removelast i = removelast j ∧ X = merge_pair i j ∧
              admissible Lp X) as Hnext.
    { intros X (i & j & Hij & -> & Had)%Hn.
      apply elem_of_all_pairs_1 in Hij as (Hi & Hj & ? & ?).
      exists i, j. split_and!; auto. }
    assert (∀ i, i ∈ Lcur → i ≠ []) as Hne.
    { intros i Hi ->. destruct (Htup [] Hi) as (_ & H0 & _). simpl in H0. lia. }
    split; simpl.
    + lia.
    + rewrite length_insert, length_app, length_insert. simpl. lia.
    + rewrite list_lookup_insert_ne by lia.
      rewrite lookup_app_r by (rewrite length_insert; lia).
      rewrite length_insert, Hlen. by replace (S l - S l) with 0 by lia.
    + done.
    + rewrite dom_delete_L, dom_insert_L, Hdom.
      apply set_eq. intros x. rewrite elem_of_difference, !elem_of_union,
        !elem_of_singleton. lia.
    + rewrite lookup_delete_ne by lia. by rewrite lookup_insert_eq.
    + destruct Hst2. by split.
    + intros Z HZ. destruct (Cplus st1 !! Z) eqn:EZ.
      * destruct (decide (Z ∈ elements Lcur)) as [Hin|Hin].
        -- apply elem_of_elements, Htup in Hin as (_ & -> & _). lia.
        -- rewrite Hother1 in EZ by done.
           assert (length Z < l) by (apply Hkeys; eauto). lia.
      * destruct (Hnew2 Z EZ HZ) as [_ (X & y & b & HX & _ & _ & _ & Hb & Hs)].
        apply sublist_length in Hs. rewrite length_swap_in in Hs by done.
        apply elem_of_elements, Htup in HX as (_ & HlX & _). lia.
    + intros X (i & j & Hi & Hj & Hij & Hp & -> & _)%Hnext.
      destruct (Htup i Hi) as (Hsi & Hli & Hbi), (Htup j Hj) as (Hsj & Hlj & Hbj).
      destruct (merge_pair_sorted i j) as [HsX HeX]; auto.
      split_and!; [done|rewrite length_merge_pair; lia|].
      intros x [?|?]%HeX; auto.
    + intros X. by rewrite Hd.
    + intros X a HX Ha. destruct (Hnext X HX) as (_ & _ & _ & _ & _ & _ & _ & Had).
      assert (without X a ∈ Lcur) as Hin by (apply HLpL, Had, Ha).
      destruct (HL1 (without X a)) as [[r Hr] _]; [set_solver|].
      exists r. by eapply extends_lookup.
    + intros _. exists m. rewrite Nat.sub_0_r.
      split.
      * rewrite lookup_delete_ne by lia. rewrite lookup_insert_ne by lia. done.
      * intros X a HX Ha.
        destruct (Hnext X HX) as (_ & _ & _ & _ & _ & _ & _ & Had).
        apply Hpart, HLpL, Had, Ha.
Qed.

Lemma loop_head_level_ok L l st :
  loop_head T (L, l) st → ∃ Lcur m, level_ok T L l st Lcur m.
Proof.
  intros H. remember (L, l) as Ll eqn:E. revert L l E.
  induction H as [|[L0 l0] st0 Ll' st' _ IH _ Hbody]; intros L l E.
  - injection E as <- <-. eexists _, _. apply level_ok_start.
  - destruct (IH L0 l0 eq_refl) as (Lcur & m & Hok).
    destruct (run_body_spec _ _ _ _ _ Hok) as (L' & st'' & next & m' & E' & _ & Hok').
    rewrite E' in Hbody. simplify_eq. eauto.
Qed.

Lemma level_nonempty_level_ok L l st Lcur m :
  level_ok T L l st Lcur m →
  level_nonempty L l = Ok (bool_decide (Lcur ≠ ∅)).
Proof. intros Hok. unfold level_nonempty. by rewrite (lo_cur _ _ _ _ _ _ Hok). Qed.

Lemma ssorted_length X n :
  ssorted X → (∀ x, x ∈ X → x < n) → length X ≤ n.
Proof.
  intros Hs Hlt. rewrite <-(length_seq n 0) at 1.
  apply submseteq_length, NoDup_submseteq; [by apply ssorted_NoDup|].
  intros x Hx%Hlt. apply elem_of_seq. lia.
Qed.

Lemma level_ok_empty L l st Lcur m :
  level_ok T L l st Lcur m → length T < l → Lcur = ∅.
Proof.
  intros Hok Hl. apply set_eq. intros X. split; [|set_solver].
  intros (Hs & Hlen & Hlt)%(lo_tuple _ _ _ _ _ _ Hok).
  pose proof (ssorted_length X (length T) Hs Hlt). lia.
Qed.

Lemma run_iters_spec k L l st :
  loop_head T (L, l) st →
  ∃ L' l' st' Lcur' m',
    run_iters T k (L, l) st = Ok ((L', l'), st') ∧
    loop_head T (L', l') st' ∧
    level_ok T L' l' st' Lcur' m' ∧
    (l + k ≤ l' ∨ Lcur' = ∅).
Proof.
  revert L l st. induction k as [|k IH]; intros L l st Hhead.
  - destruct (loop_head_level_ok _ _ _ Hhead) as (Lcur & m & Hok).
    exists L, l, st, Lcur, m. split_and!; [done..|left; lia].
  - destruct (loop_head_level_ok _ _ _ Hhead) as (Lcur & m & Hok).
    cbn [run_iters]. unfold bind at 1, pm_read. cbn [fst snd].
    rewrite (level_nonempty_level_ok _ _ _ _ _ Hok).
    destruct (decide (Lcur ≠ ∅)) as [Hne|He].
    + rewrite bool_decide_eq_true_2 by done.
      destruct (run_body_spec _ _ _ _ _ Hok) as (L1 & st1 & next & m1 & E1 & _ & Hok1).
      unfold bind. rewrite E1.
      destruct (IH L1 (S l) st1) as (L' & l' & st' & Lcur' & m' & E & Hh & Hok' & Hl).
      { eapply head_step; [exact Hhead| |exact E1]. simpl.
        rewrite (level_nonempty_level_ok _ _ _ _ _ Hok).
        by rewrite bool_decide_eq_true_2. }
      exists L', l', st', Lcur', m'. split_and!; [done..|].
      destruct Hl; [left; lia|by right].
    + rewrite bool_decide_eq_false_2 by done.
      exists L, l, st, Lcur, m. split_and!; [done..|].
      right. destruct (decide (Lcur = ∅)); [done|]. by destruct He.
Qed.

(** The run with enough fuel: it ends at a loop head with an empty
    level. *)
Lemma run_spec k :
  ∃ L l st, run T (length T + k) = Ok st ∧ loop_head T (L, l) st ∧
            level_nonempty L l = Ok false.
Proof.
  destruct (run_iters_spec (length T + k) _ _ _ (head_start T))
    as (L' & l' & st' & Lcur' & m' & E & Hh & Hok & Hl).
  exists L', l', st'. unfold run, run_start. rewrite E.
  assert (Lcur' = ∅) as ->.
  { destruct Hl as [Hl|?]; [|done]. eapply level_ok_empty; [done|lia]. }
  rewrite (level_nonempty_level_ok _ _ _ _ _ Hok).
  rewrite bool_decide_eq_false_2 by (by intros []). done.
Qed.

(** With any fuel the run ends or runs out of fuel. *)
Lemma run_no_exception fuel :
  (∃ st, run T fuel = Ok st) ∨ run T fuel = Raise OutOfFuel.
Proof.
  destruct (run_iters_spec fuel _ _ _ (head_start T))
    as (L' & l' & st' & Lcur' & m' & E & Hh & Hok & Hl).
  unfold run, run_start. rewrite E.
  rewrite (level_nonempty_level_ok _ _ _ _ _ Hok).
  destruct (bool_decide _); eauto.
Qed.

End run_facts.

(** ** The closure candidates only shrink *)

Section shrink_facts.
Context (T : list (list (gset nat))).

Lemma shrinks_refl st : shrinks st st.
Proof. by split_and!. Qed.

Lemma shrinks_trans st1 st2 st3 :
  shrinks st1 st2 → shrinks st2 st3 → shrinks st1 st3.
Proof.
  intros (Hl1 & Hb1 & Hh1) (Hl2 & Hb2 & Hh2). split_and!.
  - lia.
  - auto.
  - intros r Hr. etrans; [apply Hh2; lia|by apply Hh1].
Qed.

Lemma monotone_ret {A} (a : A) : monotone (ret a).
Proof. intros st a' st' Hb [= <- <-]. split; [done|apply shrinks_refl]. Qed.

Lemma monotone_raise {A} e : monotone (raise (A:=A) e).
Proof. by intros st a st' Hb ?. Qed.

Lemma monotone_bind {A B} (m : M A) (k : A → M B) :
  monotone m → (∀ a, monotone (k a)) → monotone (bind m k).
Proof.
  intros Hm Hk st b st' Hb E. unfold bind in E.
  destruct (m st) as [[a st1]|] eqn:E1; [|done].
  destruct (Hm _ _ _ Hb E1) as [Hb1 Hs1].
  destruct (Hk a _ _ _ Hb1 E) as [Hb2 Hs2].
  split; [done|by eapply shrinks_trans].
Qed.

Lemma monotone_mapM {A B} (f : A → M B) l :
  (∀ x, monotone (f x)) → monotone (mapM f l).
Proof.
  intros Hf. induction l as [|x l IH]; simpl; [apply monotone_ret|].
  apply monotone_bind; [done|]. intros y.
  apply monotone_bind; [done|]. intros ys. apply monotone_ret.
Qed.

Lemma monotone_forM {A} (f : A → M unit) l :
  (∀ x, monotone (f x)) → monotone (forM l f).
Proof.
  intros Hf. induction l as [|x l IH]; simpl; [apply monotone_ret|].
  apply monotone_bind; [done|]. by intros _.
Qed.

Lemma monotone_foldM {A B} (f : B → A → M B) b l :
  (∀ b x, monotone (f b x)) → monotone (foldM f b l).
Proof.
  intros Hf. revert b. induction l as [|x l IH]; intros b; simpl;
    [apply monotone_ret|].
  apply monotone_bind; [done|]. intros b'. apply IH.
Qed.

Lemma monotone_pm_read {A} (f : PartitionsManager → res A) :
  monotone (pm_read f).
Proof.
  intros st a st' Hb E. unfold pm_read in E.
  destruct (f (pmgr st)); [|done]. injection E as <- <-.
  split; [done|apply shrinks_refl].
Qed.

Lemma monotone_pm_update f : monotone (pm_update f).
Proof.
  intros st a st' Hb E. unfold pm_update in E.
  destruct (f (pmgr st)); [|done]. injection E as <- <-.
  split; [done|by split_and!].
Qed.

Lemma monotone_append_rule r : monotone (append_rule r).
Proof. intros st a st' Hb [= <- <-]. split; [done|by split_and!]. Qed.

Lemma monotone_deref r : monotone (deref r).
Proof. intros st a st' Hb [= <- <-]. split; [done|apply shrinks_refl]. Qed.

Lemma monotone_alloc s : monotone (alloc s).
Proof.
  intros st a st' Hb [= <- <-]. split.
  - intros Z r Hr. simpl in *. rewrite length_app. apply Hb in Hr. lia.
  - split_and!; simpl.
    + rewrite length_app. lia.
    + done.
    + intros r Hr. by rewrite lookup_total_app_l.
Qed.

Lemma monotone_reduce_intersection refs : monotone (reduce_intersection refs).
Proof.
  destruct refs as [|r [|r' refs]].
  - apply monotone_raise.
  - apply monotone_ret.
  - intros st a st' Hb E. cbn [reduce_intersection] in E.
    by eapply monotone_alloc.
Qed.

Lemma monotone_set_remove r y : monotone (set_remove r y).
Proof.
  intros st a st' Hb E. unfold set_remove in E.
  case_decide; [|done]. injection E as <- <-. split.
  - intros Z r' Hr'. simpl in *. rewrite length_insert. by eapply Hb.
  - split_and!; simpl.
    + by rewrite length_insert.
    + done.
    + intros r' Hr'. destruct (decide (r = r')) as [<-|].
      * rewrite list_lookup_total_insert_eq by done. set_solver.
      * by rewrite list_lookup_total_insert_ne.
Qed.

(** A read binds its key to an object of the heap and keeps every other
    binding. *)
Lemma getitem_rec_shrinks n key st r st' :
  bound st → getitem_rec n key st = Ok (r, st') →
  bound st' ∧ shrinks st st' ∧ Cplus st' !! key = Some r.
Proof.
  revert key st r st'. induction n as [|n IH]; intros key st r st' Hb E;
    simpl in E.
  - destruct (Cplus st !! key) eqn:Hk; [|done]. injection E as <- <-.
    split_and!; [done|apply shrinks_refl|done].
  - destruct (Cplus st !! key) eqn:Hk.
    { injection E as <- <-. split_and!; [done|apply shrinks_refl|done]. }
    unfold bind at 1 in E.
    destruct (mapM _ _ st) as [[refs st1]|] eqn:E1; [|done].
    assert (bound st1 ∧ shrinks st st1 ∧
            ∀ r', r' ∈ refs → r' < length (heap st1)) as (Hb1 & Hs1 & Hrefs).
    { clear E Hk. revert st refs st1 Hb E1.
      generalize (seq 0 (length key)). intros idx.
      induction idx as [|i idx IHi]; intros st refs st1 Hb E1; simpl in E1.
      - injection E1 as <- <-. split_and!; [done|apply shrinks_refl|].
        by intros ? ?%elem_of_nil.
      - unfold bind at 1 in E1.
        destruct (getitem_rec n (without key i) st) as [[r0 st0]|] eqn:E0; [|done].
        destruct (IH _ _ _ _ Hb E0) as (Hb0 & Hs0 & Hr0).
        unfold bind at 1 in E1.
        destruct (mapM _ idx st0) as [[refs' st1']|] eqn:E1'; [|done].
        injection E1 as <- <-.
        destruct (IHi _ _ _ Hb0 E1') as (Hb1 & Hs1 & Hrefs).
        split_and!; [done|by eapply shrinks_trans|].
        intros r' [->|?]%elem_of_cons; [|by auto].
        eapply Hb1. by apply Hs1. }
    unfold bind at 1 in E.
    destruct (reduce_intersection refs st1) as [[r2 st2]|] eqn:E2; [|done].
    injection E as <- <-.
    destruct (monotone_reduce_intersection _ _ _ _ Hb1 E2) as [Hb2 Hs2].
    assert (r2 < length (heap st2)) as Hr2.
    { destruct refs as [|ra [|rb refs]]; simpl in E2; [done| |].
      - injection E2 as <- <-. apply Hrefs. set_solver.
      - injection E2 as <- <-. simpl. rewrite length_app. simpl. lia. }
    assert (Cplus st2 = Cplus st1) as HC2.
    { destruct refs as [|ra [|rb refs]]; simpl in E2; [done| |];
        by injection E2 as <- <-. }
    split_and!.
    + intros Z r'. simpl. intros [[<- <-]|[_ ?]]%lookup_insert_Some; [done|].
      by eapply Hb2.
    + destruct (shrinks_trans _ _ _ Hs1 Hs2) as (Hl & Hbd & Hh).
      split_and!; simpl; [done| |done].
      intros Z r' HZ. rewrite lookup_insert_ne; [by apply Hbd|].
      intros <-. congruence.
    + simpl. by rewrite lookup_insert_eq.
Qed.

Lemma monotone_getitem key : monotone (getitem key).
Proof.
  intros st r st' Hb E.
  destruct (getitem_rec_shrinks _ _ _ _ _ Hb E) as (? & ? & _). done.
Qed.

Lemma monotone_compute_dependencies_at X y :
  monotone (compute_dependencies_at T X y).
Proof.
  unfold compute_dependencies_at.
  apply monotone_bind; [apply monotone_pm_read|]. intros a.
  apply monotone_bind; [apply monotone_pm_read|]. intros [|]; [|apply monotone_ret].
  apply monotone_bind; [apply monotone_append_rule|]. intros _.
  apply monotone_bind.
  { apply monotone_bind; [apply monotone_getitem|]. intros r.
    apply monotone_set_remove. }
  intros _. apply monotone_bind; [apply monotone_getitem|]. intros _.
  apply monotone_bind; [apply monotone_getitem|]. intros _. apply monotone_ret.
Qed.

Lemma monotone_compute_dependencies L : monotone (compute_dependencies T L).
Proof.
  unfold compute_dependencies. apply monotone_forM. intros X.
  apply monotone_bind; [apply monotone_getitem|]. intros r.
  apply monotone_bind; [apply monotone_deref|]. intros s.
  apply monotone_forM. intros y. apply monotone_compute_dependencies_at.
Qed.

Lemma monotone_prune_try X y : monotone (prune_try X y).
Proof.
  unfold prune_try.
  apply monotone_bind; [apply monotone_mapM; intros b; apply monotone_getitem|].
  intros refs. apply monotone_bind; [apply monotone_reduce_intersection|].
  intros r. apply monotone_bind; [apply monotone_deref|]. intros s.
  case_decide; [apply monotone_append_rule|apply monotone_ret].
Qed.

Lemma monotone_prune_at clean X : monotone (prune_at clean X).
Proof.
  unfold prune_at.
  apply monotone_bind; [apply monotone_getitem|]. intros r.
  apply monotone_bind; [apply monotone_deref|]. intros s.
  apply monotone_bind; [apply monotone_pm_read|]. intros [|]; [|apply monotone_ret].
  apply monotone_bind; [|intros _; apply monotone_ret].
  apply monotone_bind; [apply monotone_getitem|]. intros r'.
  apply monotone_bind; [apply monotone_deref|]. intros s'.
  apply monotone_forM. intros y. apply monotone_prune_try.
Qed.

Lemma monotone_prune L : monotone (prune L).
Proof.
  unfold prune. apply monotone_bind.
  - apply monotone_foldM. intros c X. apply monotone_prune_at.
  - intros clean. apply monotone_foldM. intros L' X. unfold set_remove_tuple.
    case_decide; [apply monotone_ret|apply monotone_raise].
Qed.

Lemma monotone_generate_next_level L : monotone (generate_next_level L).
Proof.
  unfold generate_next_level.
  apply monotone_bind; [apply monotone_pm_update|]. intros _.
  apply monotone_foldM. intros next k. apply monotone_foldM.
  intros next' [i j]. unfold generate_pair.
  apply monotone_bind; [apply monotone_pm_read|]. intros li.
  apply monotone_bind; [apply monotone_pm_read|]. intros lj.
  destruct (forallb _ _); [|apply monotone_ret].
  apply monotone_bind; [apply monotone_pm_update|]. intros _. apply monotone_ret.
Qed.

Lemma monotone_memory_wipe : monotone memory_wipe.
Proof. apply monotone_pm_update. Qed.

Lemma monotone_run_body Ll : monotone (run_body T Ll).
Proof.
  destruct Ll as [L l]. unfold run_body.
  destruct (L !! l) as [[Lcur|]|]; [|apply monotone_raise..].
  apply monotone_bind; [apply monotone_compute_dependencies|]. intros _.
  apply monotone_bind; [apply monotone_prune|]. intros Lp.
  apply monotone_bind; [apply monotone_generate_next_level|]. intros next.
  apply monotone_bind; [apply monotone_memory_wipe|]. intros _.
  apply monotone_ret.
Qed.

Lemma monotone_run_iters k Ll : monotone (run_iters T k Ll).
Proof.
  revert Ll. induction k as [|k IH]; intros Ll; simpl; [apply monotone_ret|].
  apply monotone_bind; [apply monotone_pm_read|]. intros [|]; [|apply monotone_ret].
  apply monotone_bind; [apply monotone_run_body|]. intros Ll'. apply IH.
Qed.

Lemma proc_step_shrinks st st' :
  bound st → proc_step T st st' → bound st' ∧ shrinks st st'.
Proof.
  intros Hb [key r E|X y E|L E|L L' E|L next E|E|Ll Ll' E].
  - by eapply monotone_getitem.
  - by eapply monotone_compute_dependencies_at.
  - by eapply monotone_compute_dependencies.
  - by eapply monotone_prune.
  - by eapply monotone_generate_next_level.
  - by eapply monotone_memory_wipe.
  - by eapply monotone_run_body.
Qed.

Lemma later_shrinks st st' :
  bound st → later T st st' → bound st' ∧ shrinks st st'.
Proof.
  intros Hb. induction 1 as [|st1 st2 _ [Hb1 Hs1] Hstep].
  - split; [done|apply shrinks_refl].
  - destruct (proc_step_shrinks _ _ Hb1 Hstep) as [Hb2 Hs2].
    split; [done|by eapply shrinks_trans].
Qed.

Lemma shrinks_cval st st' Z :
  bound st → shrinks st st' → is_Some (Cplus st !! Z) →
  Cplus st' !! Z = Cplus st !! Z ∧ cval st' Z ⊆ cval st Z.
Proof.
  intros Hb (_ & Hbd & Hh) [r Hr]. unfold cval.
  rewrite (Hbd _ _ Hr), Hr. split; [done|]. apply Hh. by eapply Hb.
Qed.

Lemma store_ok_bound st : store_ok st → bound st.
Proof. intros [] ??. eauto. Qed.

End shrink_facts.

(** ** The specification, claim by claim *)

Lemma run_iters_done T k L l st :
  level_nonempty L l = Ok false → run_iters T k (L, l) st = Ok ((L, l), st).
Proof.
  intros H. destruct k; simpl; [done|].
  unfold bind, pm_read. simpl. by rewrite H.
Qed.

Lemma run_one_turn T k L l st L' st' :
  level_nonempty L l = Ok true →
  run_body T (L, l) st = Ok ((L', S l), st') →
  level_nonempty L' (S l) = Ok false →
  run_iters T (S k) (L, l) st = Ok ((L', S l), st').
Proof.
  intros H E H'. cbn [run_iters]. unfold bind at 1, pm_read. cbn [fst snd].
  rewrite H. unfold bind. rewrite E. by apply run_iters_done.
Qed.

Lemma zero_rows_partitions n i d :
  (list_to_map (imap (λ i j, ([i], j)) (replicate n [])) : gmap _ (list (gset nat)))
    !! i = Some d → d = [].
Proof.
  intros H. apply (list_to_map_imap (λ i, [i])) in H as (j & _ & Hj);
    [|by intros ?? [=]].
  by apply lookup_replicate in Hj as [-> _].
Qed.

Lemma run_zero_rows n k : ∃ st, run (replicate n []) (S k) = Ok st.
Proof.
  set (T := replicate n []).
  pose proof (level_ok_start T) as Hok.
  destruct (run_body_spec T _ _ _ _ _ Hok)
    as (L' & st' & next & m' & E & Hturn & Hok').
  assert (next = ∅) as ->.
  { destruct Hturn as (st1 & st2 & Lp & _ & _ & HLp & (Hn & _) & _).
    apply set_eq. intros X. split; [|set_solver].
    intros (i & j & Hij & _)%Hn.
    apply elem_of_all_pairs_1 in Hij as (Hi & _).
    apply HLp in Hi as (Hi & _ & Hsk). exfalso.
    apply (lo_part _ _ _ _ _ _ Hok) in Hi as [d Hd].
    unfold is_superkey, cache_get in Hsk.
    destruct (lo_tuple _ _ _ _ _ _ Hok i) as (_ & Hli & _).
    { apply (lo_part _ _ _ _ _ _ Hok). eauto. }
    rewrite Hli, (lo_cache _ _ _ _ _ _ Hok), Hd in Hsk. simpl in Hsk.
    apply zero_rows_partitions in Hd as ->. done. }
  exists (if decide (n = 0) then tane_init T else st').
  unfold run, run_start. destruct (decide (n = 0)) as [->|Hn].
  - rewrite run_iters_done; [|done]. done.
  - rewrite (run_one_turn T k _ 1 _ L' st'); [| |done|].
    + rewrite (level_nonempty_level_ok _ _ _ _ _ _ Hok').
      by rewrite bool_decide_eq_false_2 by (by intros []).
    + change [None; Some (list_to_set ((λ i, [i]) <$> R T))] with (run_start T).1.
      rewrite (level_nonempty_level_ok _ _ _ _ _ _ Hok).
      f_equal. apply bool_decide_eq_true_2.
      unfold T, R. rewrite length_replicate.
      destruct n; [done|]. simpl. set_solver.
    + rewrite (level_nonempty_level_ok _ _ _ _ _ _ Hok').
      by rewrite bool_decide_eq_false_2 by (by intros []).
Qed.

(** C6.  [run] terminates on every table: [length T] turns of the loop are
    enough, and more fuel changes nothing.  With zero attributes the first
    level is empty, no turn is taken and no rule is produced; with zero
    rows (every partition empty, every attribute set a superkey) the run
    ends without an exception after one turn. *)
Theorem run_terminates (T : list (list (gset nat))) (k : nat) :
  (∃ st, run T (length T + k) = Ok st) ∧
  (run [] k = Ok (tane_init []) ∧ rules (tane_init []) = []) ∧
  (∀ n, ∃ st, run (replicate n []) (S k) = Ok st).
Proof.
  split_and!.
  - destruct (run_spec T k) as (L & l & st & E & _). eauto.
  - unfold run, run_start. by rewrite run_iters_done.
  - done.
  - intros n. apply run_zero_rows.
Qed.

(** C8.  At the end of every turn of the loop of [run] the cache holds
    exactly the levels [current_level - 1] and [current_level] (so at most
    three): the turn adds the new level [l + 1] and its one purge deletes
    level [l - 1], which was there. *)
Theorem cache_two_levels (T : list (list (gset nat)))
    (L : list (option (gset (list nat)))) (l : nat) (st : TANE) :
  loop_head T (L, l) st →
  ∃ L' st' m',
    run_body T (L, l) st = Ok ((L', S l), st') ∧
    current_level (pmgr st) = l ∧ current_level (pmgr st') = S l ∧
    l - 1 ∈ dom (cache (pmgr st)) ∧
    cache (pmgr st') = delete (l - 1) (<[S l := Some m']> (cache (pmgr st))) ∧
    dom (cache (pmgr st')) = {[current_level (pmgr st') - 1;
                               current_level (pmgr st')]} ∧
    size (dom (cache (pmgr st'))) ≤ 3.
Proof.
  intros Hhead. destruct (loop_head_level_ok T _ _ _ Hhead) as (Lcur & m & Hok).
  destruct (run_body_spec T _ _ _ _ _ Hok)
    as (L' & st' & next & m' & E & Hturn & Hok').
  destruct Hturn as (st1 & st2 & Lp & _ & _ & _ & _ & ->).
  exists L', (next_state l st st2 m'), m'. split_and!.
  - done.
  - apply Hok.
  - done.
  - rewrite (lo_dom _ _ _ _ _ _ Hok). set_solver.
  - done.
  - apply (lo_dom _ _ _ _ _ _ Hok').
  - rewrite (lo_dom _ _ _ _ _ _ Hok').
    pose proof (size_union_alt ({[S l - 1]} : gset nat) {[S l]}) as H1.
    pose proof (subseteq_size ({[S l]} ∖ {[S l - 1]} : gset nat) {[S l]}) as H2.
    rewrite !size_singleton in *.
    assert (({[S l]} ∖ {[S l - 1]} : gset nat) ⊆ {[S l]}) by set_solver.
    specialize (H2 H). etrans; [apply Nat.eq_le_incl, H1|]. lia.
Qed.

Lemma cache_two_levels_witness :
  ∃ L' st' m',
    run_body T_grid (run_start T_grid) (tane_init T_grid) = Ok ((L', 2), st') ∧
    current_level (pmgr (tane_init T_grid)) = 1 ∧ current_level (pmgr st') = 2 ∧
    1 - 1 ∈ dom (cache (pmgr (tane_init T_grid))) ∧
    cache (pmgr st')
    = delete (1 - 1) (<[2 := Some m']> (cache (pmgr (tane_init T_grid)))) ∧
    dom (cache (pmgr st')) = {[current_level (pmgr st') - 1;
                               current_level (pmgr st')]} ∧
    size (dom (cache (pmgr st'))) ≤ 3.
Proof.
  exact (cache_two_levels T_grid _ 1 _ (head_start T_grid)).
Defined.

(** C10.  Under the schedule of [run] no cache access misses.  At every
    loop head the cache holds the partition of each candidate of the level
    and, from level two on, of each of its immediate subsets; so every
    test of [compute_dependencies] is defined, the whole turn (with the
    reads of [register_partition] and the purge) raises nothing, and a run
    with any fuel ends or runs out of fuel: it never raises [KeyError]. *)
Theorem no_cache_miss (T : list (list (gset nat)))
    (L : list (option (gset (list nat)))) (l : nat) (st : TANE)
    (Lcur : gset (list nat)) :
  loop_head T (L, l) st → L !! l = Some (Some Lcur) →
  (∀ X, X ∈ Lcur →
        is_ok (cache_get (pmgr st) X) ∧
        (2 ≤ l → ∀ a, a < length X → is_ok (cache_get (pmgr st) (without X a))) ∧
        (∀ y, y ∈ X → is_ok (check_fd T (pmgr st) (lhs_of X y) y)) ∧
        is_ok (is_superkey (pmgr st) X)) ∧
  (∃ Ll' st', run_body T (L, l) st = Ok (Ll', st')) ∧
  (∀ fuel, run T fuel ≠ Raise KeyError).
Proof.
  intros Hhead HL.
  destruct (loop_head_level_ok T _ _ _ Hhead) as (Lcur' & m & Hok).
  assert (Lcur' = Lcur) as ->.
  { pose proof (lo_cur _ _ _ _ _ _ Hok). congruence. }
  split_and!.
  - intros X HX.
    destruct (lo_tuple _ _ _ _ _ _ Hok X HX) as (_ & Hlen & _).
    assert (is_ok (cache_get (pmgr st) X)) as Hget.
    { unfold cache_get. rewrite Hlen, (lo_cache _ _ _ _ _ _ Hok).
      apply (lo_part _ _ _ _ _ _ Hok) in HX as [d ->]. by eexists. }
    split_and!.
    + done.
    + intros Hl a Ha. destruct (lo_prev _ _ _ _ _ _ Hok Hl) as (mp & Hmp & Hsub).
      unfold cache_get. rewrite length_without by done. rewrite Hlen, Hmp.
      destruct (Hsub X a HX Ha) as [d ->]. by eexists.
    + apply (level_ok_cd_ready T _ _ _ _ _ X Hok HX).
    + unfold is_superkey. destruct Hget as [d ->]. by eexists.
  - destruct (run_body_spec T _ _ _ _ _ Hok) as (L' & st' & ? & ? & E & _). eauto.
  - intros fuel. destruct (run_no_exception T fuel) as [[st' ->]| ->]; done.
Qed.

Lemma no_cache_miss_witness :
  (∀ X, X ∈ (list_to_set ((λ i, [i]) <$> R T_grid) : gset (list nat)) →
        is_ok (cache_get (pmgr (tane_init T_grid)) X) ∧
        (2 ≤ 1 → ∀ a, a < length X →
                 is_ok (cache_get (pmgr (tane_init T_grid)) (without X a))) ∧
        (∀ y, y ∈ X →
              is_ok (check_fd T_grid (pmgr (tane_init T_grid)) (lhs_of X y) y)) ∧
        is_ok (is_superkey (pmgr (tane_init T_grid)) X)) ∧
  (∃ Ll' st', run_body T_grid (run_start T_grid) (tane_init T_grid)
              = Ok (Ll', st')) ∧
  (∀ fuel, run T_grid fuel ≠ Raise KeyError).
Proof.
  exact (no_cache_miss T_grid _ 1 _ _ (head_start T_grid) eq_refl).
Defined.

(** C7.  Candidate generation.  From a level [L] of tuples of length [l]
    whose partitions are in the cache, [generate_next_level] returns
    exactly the tuples of length [l + 1] formed, smaller last attribute
    first, from two tuples of one prefix block of [L], all of whose
    immediate subsets are in [L]; when the tuples of [L] are in increasing
    order these are the increasing tuples of length [l + 1] whose immediate
    subsets are all in [L].  The cache of the new level holds exactly the
    returned tuples, each with the stripped product of the partitions of
    two tuples that form it. *)
Theorem generate_next_level_candidates (L : gset (list nat)) (st : TANE)
    (l : nat) (m : gmap (list nat) (list (gset nat))) :
  0 < l → current_level (pmgr st) = l →
  cache (pmgr st) !! l = Some (Some m) →
  (∀ X, X ∈ L → length X = l ∧ is_Some (m !! X)) →
  ∃ next st' m',
    generate_next_level L st = Ok (next, st') ∧
    cache (pmgr st') = <[S l := Some m']> (cache (pmgr st)) ∧
    (∀ X, X ∈ next ↔
          length X = S l ∧
          (∃ i j, i ∈ L ∧ j ∈ L ∧ i ≠ j ∧ removelast i = removelast j ∧
                  X = merge_pair i j) ∧
          ∀ a, a < length X → without X a ∈ L) ∧
    ((∀ X, X ∈ L → ssorted X) →
     ∀ X, X ∈ next ↔
          ssorted X ∧ length X = S l ∧ ∀ a, a < length X → without X a ∈ L) ∧
    (∀ X, is_Some (m' !! X) ↔ X ∈ next) ∧
    (∀ X d, m' !! X = Some d →
            ∃ i j, i ∈ L ∧ j ∈ L ∧ i ≠ j ∧ removelast i = removelast j ∧
                   X = merge_pair i j ∧
                   d = PPattern.intersection (m !!! i) (m !!! j)).
Proof.
  intros Hl Hcur Hm HL.
  destruct (generate_next_level_spec L st l m Hcur Hl Hm HL)
    as (next & m' & E & Hn & Hd & He).
  assert (∀ i, i ∈ L → i ≠ []) as Hne.
  { intros i Hi ->. destruct (HL [] Hi) as [H0 _]. simpl in H0. lia. }
  eexists next, _, m'. split; [exact E|]. split_and!.
  - done.
  - intros X. rewrite Hn. split.
    + intros (i & j & Hij & -> & Had).
      apply elem_of_all_pairs_1 in Hij as (Hi & Hj & Hij & Hp).
      split_and!; [|by eauto 10|done].
      rewrite length_merge_pair; destruct (HL i Hi), (HL j Hj); lia.
    + intros (_ & (i & j & Hi & Hj & Hij & Hp & ->) & Had).
      destruct (elem_of_all_pairs_2 L i j) as [H|H]; [done..| |].
      * exists i, j. done.
      * exists j, i. split; [done|]. split; [|done].
        apply merge_pair_comm; auto.
  - intros Hs X. rewrite Hn. apply next_level_sorted; [done|].
    intros Y HY. split; [by apply Hs|by apply HL].
  - done.
  - intros X d HX. destruct (He X d HX) as (i & j & Hij & -> & ->).
    apply elem_of_all_pairs_1 in Hij as (Hi & Hj & Hij & Hp).
    exists i, j. done.
Qed.

Lemma generate_next_level_candidates_witness :
  ∃ next st',
    generate_next_level {[ [0]; [1] ]} (tane_init T_grid) = Ok (next, st') ∧
    ∀ X, X ∈ next ↔
         ssorted X ∧ length X = 2 ∧
         ∀ a, a < length X → without X a ∈ ({[ [0]; [1] ]} : gset (list nat)).
Proof.
  destruct (generate_next_level_candidates {[ [0]; [1] ]} (tane_init T_grid) 1
              (list_to_map (imap (λ i j, ([i], j)) T_grid)))
    as (next & st' & m' & E & _ & _ & Hs & _).
  - lia.
  - reflexivity.
  - reflexivity.
  - intros X [->%elem_of_singleton| ->%elem_of_singleton]%elem_of_union;
      (split; [reflexivity|vm_compute; eauto]).
  - exists next, st'. split; [exact E|]. apply Hs.
    intros X [->%elem_of_singleton| ->%elem_of_singleton]%elem_of_union;
      repeat constructor.
Defined.

(** C4 (evaluation at the failing input).  On [T_keep] the node [(0, 1)] of
    level two is tested for [y = 1] with the left-hand side [(0,)]: the
    test holds and the rule is recorded, yet after [compute_dependencies]
    the set [Cplus[(0, 1)]] still holds the attribute [2], which is not a
    member of [(0, 1)]: the last statement of the loop body builds an
    iterator and drops it. *)
Example compute_dependencies_keeps_outside :
  ∃ L st st',
    run_iters T_keep 1 (run_start T_keep) (tane_init T_keep) = Ok ((L, 2), st) ∧
    L !! 2 = Some (Some {[ [0; 1] ]}) ∧
    check_fd T_keep (pmgr st) [0] 1 = Ok true ∧
    compute_dependencies T_keep {[ [0; 1] ]} st = Ok (tt, st') ∧
    ([0], 1) ∈ rules st' ∧ ([0], 1) ∉ rules st ∧
    1 ∉ cval st' [0; 1] ∧
    2 ∈ cval st' [0; 1] ∧ 2 ∉ [0; 1].
Proof.
  destruct (run_iters T_keep 1 (run_start T_keep) (tane_init T_keep))
    as [[[L l] st]|] eqn:E; vm_compute in E; [|done].
  injection E as <- <- <-.
  eexists _, _, _. split; [reflexivity|].
  split; [vm_compute; reflexivity|].
  split; [vm_compute; reflexivity|].
  split; [vm_compute; reflexivity|].
  split_and!.
  - vm_compute. set_solver.
  - vm_compute. set_solver.
  - vm_compute. set_solver.
  - vm_compute. set_solver.
  - set_solver.
Qed.

(** C5.  The closure candidates.  [Cplus[()]] starts as the set of all
    attributes.  The first read of [Cplus[X]] for a key [X] that is not
    bound succeeds; [X] is not empty; every key it binds on the way, [X]
    among them, gets the intersection of the values at its immediate
    subsets, which are all bound afterwards (memoization), and the keys
    bound before keep their objects and values.  From then on, whatever
    procedures of the object run, [X] stays bound to the same object, a
    read returns it without recomputing, and its value only shrinks: at any
    later state it is within the value first stored, and between any two
    later states the later value is within the earlier one. *)
Theorem Cplus_first_read_then_shrinks (T : list (list (gset nat)))
    (st : TANE) (X : list nat) :
  store_ok st → Cplus st !! X = None →
  cval (tane_init T) [] = list_to_set (R T) ∧
  ∃ r st1,
    getitem X st = Ok (r, st1) ∧ X ≠ [] ∧ Cplus st1 !! X = Some r ∧
    (∀ a, a < length X → is_Some (Cplus st1 !! without X a)) ∧
    (∀ y, y ∈ cval st1 X ↔ ∀ a, a < length X → y ∈ cval st1 (without X a)) ∧
    (∀ Z, Cplus st !! Z = None → is_Some (Cplus st1 !! Z) →
          meet_of_subsets st1 Z) ∧
    (∀ Z, is_Some (Cplus st !! Z) →
          Cplus st1 !! Z = Cplus st !! Z ∧ cval st1 Z = cval st Z) ∧
    ∀ st2, later T st1 st2 →
           Cplus st2 !! X = Some r ∧ getitem X st2 = Ok (r, st2) ∧
           cval st2 X ⊆ cval st1 X ∧
           ∀ st3, later T st2 st3 →
                  getitem X st3 = Ok (r, st3) ∧ cval st3 X ⊆ cval st2 X.
Proof.
  intros Hok HX. split; [done|].
  destruct (getitem_spec X st Hok)
    as (r & st1 & E & Hok1 & Hex & _ & Hr & _ & Hnew).
  destruct (Hnew X HX) as (_ & (Hne & Hsub & Hval) & _); [by eauto|].
  exists r, st1. split_and!; try done.
  - intros Z HZ HZ1. by destruct (Hnew Z HZ HZ1) as (_ & ? & _).
  - intros Z [r' Hr']. split.
    + rewrite Hr'. by eapply extends_lookup.
    + apply extends_cval; eauto.
  - intros st2 Hlater.
    destruct (later_shrinks T st1 st2) as [Hb2 Hs2];
      [by apply store_ok_bound|done|].
    destruct (shrinks_cval st1 st2 X) as [HC Hsub'];
      [by apply store_ok_bound|done|by eauto|].
    rewrite Hr in HC. split_and!; [done| |done|].
    { by apply getitem_hit. }
    intros st3 Hlater3.
    destruct (later_shrinks T st2 st3) as [_ Hs3]; [done..|].
    destruct (shrinks_cval st2 st3 X) as [HC3 Hsub3]; [done..|by eauto|].
    rewrite HC in HC3. split; [by apply getitem_hit|done].
Qed.

Lemma Cplus_first_read_then_shrinks_witness :
  ∃ r st1,
    getitem [0; 1] (tane_init T_grid) = Ok (r, st1) ∧
    (∀ y, y ∈ cval st1 [0; 1] ↔
          ∀ a, a < 2 → y ∈ cval st1 (without [0; 1] a)) ∧
    ∀ st2, later T_grid st1 st2 →
           cval st2 [0; 1] ⊆ cval st1 [0; 1] ∧
           ∀ st3, later T_grid st2 st3 → cval st3 [0; 1] ⊆ cval st2 [0; 1].
Proof.
  destruct (Cplus_first_read_then_shrinks T_grid (tane_init T_grid) [0; 1])
    as (_ & r & st1 & E & _ & _ & _ & Hval & _ & _ & Hlater).
  - apply (lo_store _ _ _ _ _ _ (level_ok_start T_grid)).
  - reflexivity.
  - exists r, st1. split; [exact E|]. split; [exact Hval|].
    intros st2 H2. destruct (Hlater st2 H2) as (_ & _ & Hsub & H3).
    split; [exact Hsub|]. intros st3 H23. apply (H3 st3 H23).
Defined.

(** ** More on the stripped product *)

Section product_facts.
Import PPattern.

Lemma pairwise_disjoint_separated d : pairwise_disjoint d = true → separated d.
Proof.
  intros Hd a b [i Hi]%list_elem_of_lookup [j Hj]%list_elem_of_lookup.
  destruct (decide (i = j)) as [->|Hij]; [left; congruence|].
  right. by eapply (pairwise_disjoint_lookup d Hd i j).
Qed.

Lemma stripped_size d c : stripped d = true → c ∈ d → 2 ≤ size c.
Proof.
  intros [_ Hs]%andb_true_iff Hc. rewrite forallb_forall in Hs.
  apply list_elem_of_In, Hs in Hc. by apply bool_decide_eq_true in Hc.
Qed.

(** The last class that holds a row. *)
Lemma last_class (desc1 : list (gset nat)) t :
  (∃ k, k ∈ desc1 ∧ t ∈ k) →
  ∃ i k, desc1 !! i = Some k ∧ t ∈ k ∧
         ∀ j k', i < j → desc1 !! j = Some k' → t ∉ k'.
Proof.
  induction desc1 as [|k0 desc1 IH] using rev_ind.
  - intros (k & Hk & _). by apply elem_of_nil in Hk.
  - intros (k & Hk & Ht). destruct (decide (t ∈ k0)) as [H0|H0].
    + exists (length desc1), k0. split_and!.
      * by rewrite lookup_app_r, Nat.sub_diag by lia.
      * done.
      * intros j k' Hj Hl. apply lookup_lt_Some in Hl.
        rewrite length_app in Hl. simpl in Hl. lia.
    + destruct IH as (i & k1 & Hi & Ht1 & Hlast).
      { apply elem_of_app in Hk as [Hk|Hk]; [by eauto|].
        apply list_elem_of_singleton in Hk as ->. done. }
      exists i, k1. split_and!; [by apply lookup_app_l_Some|done|].
      intros j k' Hij Hj. destruct (decide (j < length desc1)).
      * rewrite lookup_app_l in Hj by done. eauto.
      * rewrite lookup_app_r in Hj by lia.
        destruct (j - length desc1) eqn:?; simpl in Hj; [|done].
        by simplify_eq.
Qed.

(** With separated classes in [desc1], the rows sent to the class [i] are
    the rows of that class, when one row at least is sent there. *)
Lemma index_classes_separated desc1 t i :
  separated desc1 →
  (index_classes desc1).1 !! t = Some i →
  ∃ a, desc1 !! i = Some a ∧ t ∈ a ∧
       ∀ t', (index_classes desc1).1 !! t' = Some i ↔ t' ∈ a.
Proof.
  intros Hsep Ht. pose proof (proj1 (index_classes_spec desc1)) as Hspec.
  apply Hspec in Ht as (a & Ha & Hta & Hlast).
  exists a. split_and!; [done..|]. intros t'. rewrite Hspec. split.
  - intros (a' & Ha' & ? & _). by simplify_eq.
  - intros Ht'. exists a. split_and!; [done..|].
    intros j k' Hij Hj Hin.
    destruct (Hsep a k') as [->|Hdisj];
      [by eapply list_elem_of_lookup_2..| |set_solver].
    by eapply Hlast.
Qed.

Lemma elem_of_separated_product desc1 desc2 c :
  separated desc1 →
  c ∈ intersection desc1 desc2 ↔
  ∃ a b, a ∈ desc1 ∧ b ∈ desc2 ∧ c = a ∩ b ∧ 1 < size c.
Proof.
  intros Hsep. rewrite elem_of_intersection_index. split.
  - intros (k & i & Hk & Hsz & ->).
    destruct (decide (filter (λ t, (index_classes desc1).1 !! t = Some i) k = ∅))
      as [Hem|Hne].
    { rewrite Hem, size_empty in Hsz. lia. }
    apply set_choose_L in Hne as [t Ht]. apply elem_of_filter in Ht as [Ht ?].
    destruct (index_classes_separated desc1 t i Hsep Ht) as (a & Ha & Hta & Hall).
    exists a, k. split_and!; [by eapply list_elem_of_lookup_2|done| |done].
    apply set_eq. intros t'.
    rewrite elem_of_filter, elem_of_intersection, Hall. done.
  - intros (a & b & Ha & Hb & -> & Hsz).
    destruct (decide (a ∩ b = ∅)) as [Hem|Hne].
    { rewrite Hem, size_empty in Hsz. lia. }
    apply set_choose_L in Hne as [t Ht].
    apply elem_of_intersection in Ht as [Hta Htb].
    destruct (last_class desc1 t) as (i & a' & Hi & Hta' & Hlast); [by eauto|].
    assert ((index_classes desc1).1 !! t = Some i) as HT.
    { apply (proj1 (index_classes_spec desc1)). eauto. }
    destruct (index_classes_separated desc1 t i Hsep HT) as (a2 & Ha2 & _ & Hall).
    assert (a2 = a) as ->.
    { simplify_eq. destruct (Hsep a' a) as [->|Hd];
        [by eapply list_elem_of_lookup_2|done|done|set_solver]. }
    exists b, i. split_and!; [done..|].
    apply set_eq. intros t'.
    rewrite elem_of_filter, elem_of_intersection, Hall. done.
Qed.

Lemma product_separated desc1 desc2 :
  separated desc1 → separated desc2 → separated (intersection desc1 desc2).
Proof.
  intros H1 H2 c c'.
  rewrite !elem_of_separated_product by done.
  intros (a & b & Ha & Hb & -> & _) (a' & b' & Ha' & Hb' & -> & _).
  destruct (H1 a a' Ha Ha') as [->|?], (H2 b b' Hb Hb') as [->|?];
    [by left|right; set_solver..].
Qed.

Lemma size_gt_1_subseteq (c c' : gset nat) : c ⊆ c' → 1 < size c → 1 < size c'.
Proof. intros H%subseteq_size. lia. Qed.

End product_facts.

(** X1.  The classes of the stripped product.  When the classes of the
    first argument are pairwise equal or disjoint, [intersection] returns
    exactly the intersections of a class of each argument that keep two
    rows or more. *)
Theorem intersection_classes (desc1 desc2 : list (gset nat)) (c : gset nat) :
  separated desc1 →
  c ∈ PPattern.intersection desc1 desc2 ↔
  ∃ a b, a ∈ desc1 ∧ b ∈ desc2 ∧ c = a ∩ b ∧ 1 < size c.
Proof. apply elem_of_separated_product. Qed.

Lemma intersection_classes_witness :
  {[0; 1]} ∈ PPattern.intersection [{[0;1;2]}; {[3;4]}] [{[0;1;3]}; {[2;4]}] ↔
  ∃ a b : gset nat, a ∈ [{[0;1;2]}; {[3;4]}] ∧ b ∈ [{[0;1;3]}; {[2;4]}] ∧
         {[0; 1]} = a ∩ b ∧ 1 < size ({[0; 1]} : gset nat).
Proof.
  apply (intersection_classes [{[0;1;2]}; {[3;4]}] [{[0;1;3]}; {[2;4]}] {[0;1]}).
  apply pairwise_disjoint_separated. vm_compute. reflexivity.
Defined.

(** X2.  Whatever the arguments, every class [intersection] returns has two
    rows or more and lies inside one class of each argument: the product
    refines both sides and holds no singleton. *)
Theorem intersection_refines (desc1 desc2 : list (gset nat)) :
  Forall (λ c, 1 < size c ∧
               (∃ a, a ∈ desc1 ∧ c ⊆ a) ∧ (∃ b, b ∈ desc2 ∧ c ⊆ b))
         (PPattern.intersection desc1 desc2).
Proof.
  apply Forall_forall. intros c Hc.
  apply elem_of_intersection_index in Hc as (k & i & Hk & Hsz & ->).
  split; [done|].
  destruct (decide (filter (λ t, (PPattern.index_classes desc1).1 !! t = Some i) k = ∅))
    as [Hem|Hne].
  { rewrite Hem, size_empty in Hsz. lia. }
  apply set_choose_L in Hne as [t Ht]. apply elem_of_filter in Ht as [Ht ?].
  apply (proj1 (index_classes_spec desc1)) in Ht as (a & Ha & _).
  split.
  - exists a. split; [by eapply list_elem_of_lookup_2|].
    intros t' [Ht' _]%elem_of_filter.
    apply (proj1 (index_classes_spec desc1)) in Ht' as (a' & Ha' & ? & _).
    by simplify_eq.
  - exists k. split; [done|]. intros t' [_ ?]%elem_of_filter. done.
Qed.

(** X3.  The product keeps the classes apart: when any two classes of each
    argument are equal or disjoint, so are any two classes of the
    product. *)
Theorem intersection_separated (desc1 desc2 : list (gset nat)) :
  separated desc1 → separated desc2 →
  separated (PPattern.intersection desc1 desc2).
Proof. apply product_separated. Qed.

Lemma intersection_separated_witness :
  separated [{[0;1;2]}; {[3;4]}] ∧ separated [{[0;1;3]}; {[2;4]}] ∧
  separated (PPattern.intersection [{[0;1;2]}; {[3;4]}] [{[0;1;3]}; {[2;4]}]).
Proof.
  assert (separated [{[0;1;2]}; {[3;4]}]) as H1
    by (apply pairwise_disjoint_separated; vm_compute; reflexivity).
  assert (separated [{[0;1;3]}; {[2;4]}]) as H2
    by (apply pairwise_disjoint_separated; vm_compute; reflexivity).
  split; [exact H1|]. split; [exact H2|].
  exact (intersection_separated _ _ H1 H2).
Defined.

(** X4.  The product of a stripped partition with itself gives back its
    classes. *)
Theorem intersection_idempotent (A : list (gset nat)) :
  stripped A = true →
  classes (PPattern.intersection A A) = classes A.
Proof.
  intros HA. pose proof HA as [Hd _]%andb_true_iff.
  apply pairwise_disjoint_separated in Hd.
  apply set_eq. intros c. unfold classes.
  rewrite !elem_of_list_to_set, elem_of_separated_product by done. split.
  - intros (a & b & Ha & Hb & -> & Hsz).
    destruct (Hd a b Ha Hb) as [->|Hdisj].
    + by replace (b ∩ b) with b by set_solver.
    + replace (a ∩ b) with (∅ : gset nat) in Hsz by set_solver.
      rewrite size_empty in Hsz. lia.
  - intros Hc. exists c, c. split_and!; [done..|set_solver|].
    pose proof (stripped_size A c HA Hc). lia.
Qed.

Lemma intersection_idempotent_witness :
  stripped [{[0;1;2]}; {[3;4]}] = true ∧
  classes (PPattern.intersection [{[0;1;2]}; {[3;4]}] [{[0;1;2]}; {[3;4]}])
  = classes [{[0;1;2]}; {[3;4]}].
Proof.
  split; [vm_compute; reflexivity|].
  apply intersection_idempotent. vm_compute. reflexivity.
Defined.

(** X5.  The product is associative on classes: for collections with
    separated classes the two ways of multiplying three partitions give the
    same set of classes. *)
Theorem intersection_assoc (A B C : list (gset nat)) :
  separated A → separated B →
  classes (PPattern.intersection (PPattern.intersection A B) C)
  = classes (PPattern.intersection A (PPattern.intersection B C)).
Proof.
  intros HA HB. apply set_eq. intros c. unfold classes.
  rewrite !elem_of_list_to_set.
  rewrite (elem_of_separated_product (PPattern.intersection A B))
    by (by apply product_separated).
  rewrite (elem_of_separated_product A) by done. split.
  - intros (ab & c' & Hab & Hc' & -> & Hsz).
    apply elem_of_separated_product in Hab as (a & b & Ha & Hb & -> & _); [|done].
    exists a, (b ∩ c'). split_and!; [done| |set_solver|done].
    apply elem_of_separated_product; [done|].
    exists b, c'. split_and!; [done..|].
    eapply size_gt_1_subseteq; [|done]. set_solver.
  - intros (a & bc & Ha & Hbc & -> & Hsz).
    apply elem_of_separated_product in Hbc as (b & c' & Hb & Hc' & -> & _); [|done].
    exists (a ∩ b), c'. split_and!; [|done|set_solver|done].
    apply elem_of_separated_product; [done|].
    exists a, b. split_and!; [done..|].
    eapply size_gt_1_subseteq; [|done]. set_solver.
Qed.

Lemma intersection_assoc_witness :
  separated [{[0;1;2]}; {[3;4]}] ∧ separated [{[0;1;3]}; {[2;4]}] ∧
  classes (PPattern.intersection
             (PPattern.intersection [{[0;1;2]}; {[3;4]}] [{[0;1;3]}; {[2;4]}])
             [{[0;1;4]}])
  = classes (PPattern.intersection [{[0;1;2]}; {[3;4]}]
               (PPattern.intersection [{[0;1;3]}; {[2;4]}] [{[0;1;4]}])).
Proof.
  assert (separated [{[0;1;2]}; {[3;4]}]) as H1
    by (apply pairwise_disjoint_separated; vm_compute; reflexivity).
  assert (separated [{[0;1;3]}; {[2;4]}]) as H2
    by (apply pairwise_disjoint_separated; vm_compute; reflexivity).
  split; [exact H1|]. split; [exact H2|].
  exact (intersection_assoc _ _ [{[0;1;4]}] H1 H2).
Defined.

(** ** The partition cache *)

Section manager_facts.

Lemma cache_get_Ok pm X d :
  cache_get pm X = Ok d ↔
  ∃ m, cache pm !! length X = Some (Some m) ∧ m !! X = Some d.
Proof.
  unfold cache_get. destruct (cache pm !! length X) as [[m|]|]; [|naive_solver..].
  destruct (m !! X) eqn:E; naive_solver.
Qed.

Lemma register_partition_Ok X X0 X1 pm d0 d1 m :
  cache_get pm X0 = Ok d0 → cache_get pm X1 = Ok d1 →
  cache pm !! length X = Some (Some m) →
  register_partition X X0 X1 pm
  = Ok {| cache := <[length X := Some (<[X := PPattern.intersection d0 d1]> m)]>
                     (cache pm);
          current_level := current_level pm |}.
Proof.
  intros H0 H1 Hm. unfold register_partition. rewrite H0, H1. simpl.
  by rewrite Hm.
Qed.

Lemma purge_old_level_Ok pm pm' :
  purge_old_level pm = Ok pm' ↔
  2 ≤ current_level pm ∧ is_Some (cache pm !! (current_level pm - 2)) ∧
  pm' = {| cache := delete (current_level pm - 2) (cache pm);
           current_level := current_level pm |}.
Proof.
  unfold purge_old_level. case_decide.
  - split; [done|]. intros (? & _). lia.
  - destruct (cache pm !! (current_level pm - 2)) eqn:E.
    + split.
      * intros [= <-]. split_and!; [lia|by eauto|done].
      * intros (_ & _ & ->). done.
    + split; [done|]. intros (_ & [? ?] & _). done.
Qed.

End manager_facts.

(** X6.  Registering then looking up.  When the two parents are cached and
    the level of [X] exists, [register_partition] succeeds; afterwards the
    cache gives for [X] the stripped product of the parents' partitions,
    every other tuple is looked up as before, and the current level is
    unchanged. *)
Theorem register_partition_lookup (X X0 X1 : list nat) (pm : PartitionsManager)
    (d0 d1 : list (gset nat)) (m : gmap (list nat) (list (gset nat))) :
  cache_get pm X0 = Ok d0 → cache_get pm X1 = Ok d1 →
  cache pm !! length X = Some (Some m) →
  ∃ pm',
    register_partition X X0 X1 pm = Ok pm' ∧
    cache_get pm' X = Ok (PPattern.intersection d0 d1) ∧
    current_level pm' = current_level pm ∧
    ∀ Y, Y ≠ X → cache_get pm' Y = cache_get pm Y.
Proof.
  intros H0 H1 Hm. eexists. split; [by apply register_partition_Ok|].
  split_and!.
  - unfold cache_get. simpl. by rewrite !lookup_insert_eq.
  - done.
  - intros Y HY. unfold cache_get. simpl.
    destruct (decide (length Y = length X)) as [->|Hne].
    + rewrite lookup_insert_eq, Hm. by rewrite lookup_insert_ne.
    + by rewrite lookup_insert_ne.
Qed.

Lemma register_partition_lookup_witness :
  ∃ pm',
    register_partition [0; 1] [0] [1] (new_level (pm_init T_grid)) = Ok pm' ∧
    cache_get pm' [0; 1]
    = Ok (PPattern.intersection [{[0;1]}; {[2;3]}] [{[0;2]}; {[1;3]}]) ∧
    current_level pm' = 2 ∧
    ∀ Y, Y ≠ [0; 1] →
         cache_get pm' Y = cache_get (new_level (pm_init T_grid)) Y.
Proof.
  apply (register_partition_lookup [0; 1] [0] [1] (new_level (pm_init T_grid))
           [{[0;1]}; {[2;3]}] [{[0;2]}; {[1;3]}] ∅); reflexivity.
Defined.

(** X7.  The purge.  [purge_old_level] succeeds exactly when the current
    level is at least two and the level two behind is in the cache, and
    then it removes that level and nothing else.  So it raises [KeyError]
    on a fresh manager, and a purge that succeeded cannot be repeated: the
    next one, with no [new_level] in between, raises [KeyError]. *)
Theorem purge_old_level_once (T : list (list (gset nat)))
    (pm : PartitionsManager) :
  (∀ pm', purge_old_level pm = Ok pm' ↔
          2 ≤ current_level pm ∧
          is_Some (cache pm !! (current_level pm - 2)) ∧
          pm' = {| cache := delete (current_level pm - 2) (cache pm);
                   current_level := current_level pm |}) ∧
  (∀ pm', purge_old_level pm = Ok pm' → purge_old_level pm' = Raise KeyError) ∧
  purge_old_level (pm_init T) = Raise KeyError ∧
  (is_Some (cache pm !! (current_level pm - 1)) → 1 ≤ current_level pm →
   ∃ pm', purge_old_level (new_level pm) = Ok pm' ∧
          dom (cache pm')
          = {[current_level pm + 1]} ∪ dom (cache pm) ∖ {[current_level pm - 1]}).
Proof.
  split_and!.
  - apply purge_old_level_Ok.
  - intros pm' (Hl & _ & ->)%purge_old_level_Ok.
    unfold purge_old_level. simpl. rewrite decide_False by lia.
    by rewrite lookup_delete_eq.
  - done.
  - intros [prev Hprev] Hl. eexists. split.
    + apply purge_old_level_Ok. simpl. split_and!; [lia| |done].
      replace (current_level pm + 1 - 2) with (current_level pm - 1) by lia.
      rewrite lookup_insert_ne by lia. eauto.
    + simpl. replace (current_level pm + 1 - 2) with (current_level pm - 1) by lia.
      rewrite dom_delete_L, dom_insert_L. apply set_eq. intros x.
      rewrite elem_of_difference, !elem_of_union, elem_of_difference,
        !elem_of_singleton.
      split.
      * intros [[->|Hx] Hne]; [by left|by right].
      * intros [->|[Hx Hne]]; (split; [tauto|lia || done]).
Qed.

(** X8.  The cache a manager starts with.  A tuple of one attribute is
    looked up as the column of the table, and raises [KeyError] when the
    table has no such column; a longer tuple raises [KeyError] (its level
    does not exist); the empty tuple raises [TypeError] (level 0 is
    [None]), so [is_superkey] of the empty tuple raises too, while
    [check_fd] answers [False] for an empty left-hand side without looking
    anything up. *)
Theorem pm_init_lookup (T : list (list (gset nat))) :
  (∀ i, cache_get (pm_init T) [i]
        = match T !! i with Some d => Ok d | None => Raise KeyError end) ∧
  (∀ X, 2 ≤ length X → cache_get (pm_init T) X = Raise KeyError) ∧
  cache_get (pm_init T) [] = Raise TypeError ∧
  is_superkey (pm_init T) [] = Raise TypeError ∧
  (∀ y, check_fd T (pm_init T) [] y = Ok false).
Proof.
  split_and!.
  - intros i.
    assert (cache (pm_init T) !! 1
            = Some (Some (list_to_map (imap (λ i j, ([i], j)) T)))) as Hc by done.
    unfold cache_get. cbn [length]. rewrite Hc.
    destruct (T !! i) as [d|] eqn:E.
    + assert ((list_to_map (imap (λ i j, ([i], j)) T)
                : gmap (list nat) (list (gset nat))) !! [i] = Some d) as ->; [|done].
      apply (list_to_map_imap (λ i, [i])); [by intros ?? [=]|]. eauto.
    + destruct ((list_to_map (imap (λ i j, ([i], j)) T)
                  : gmap (list nat) (list (gset nat))) !! [i]) as [d|] eqn:E'; [|done].
      apply (list_to_map_imap (λ i, [i])) in E' as (j & [= <-] & Hj);
        [|by intros ?? [=]].
      congruence.
  - intros X HX. unfold cache_get, pm_init. simpl.
    rewrite lookup_insert_ne by lia. rewrite lookup_insert_ne by lia. done.
  - done.
  - done.
  - done.
Qed.

(** ** The dictionary of closure candidates *)

Section rdict_facts.

Lemma getitem_rec_unbound n key st :
  Cplus st = ∅ → getitem_rec n key st = Raise TypeError.
Proof.
  intros He. revert key. induction n as [|n IH]; intros key; simpl.
  - by rewrite He, lookup_empty.
  - rewrite He, lookup_empty. unfold bind at 1.
    destruct (length key) as [|k]; simpl; [done|].
    unfold bind at 1. by rewrite IH.
Qed.

Lemma getitem_singleton a st r :
  Cplus st !! [] = Some r → Cplus st !! [a] = None →
  getitem [a] st
  = Ok (r, {| rules := rules st; pmgr := pmgr st;
              Cplus := <[ [a] := r ]> (Cplus st); heap := heap st |}).
Proof.
  intros Hr Ha. unfold getitem. simpl. rewrite Ha.
  unfold bind at 1. simpl. unfold bind at 1.
  change (without [a] 0) with (@nil nat). rewrite Hr. done.
Qed.

End rdict_facts.

(** X9.  Sharing in the closure candidates.  When [()] is bound and the
    one-attribute key [(a,)] is not, reading [Cplus[(a,)]] builds no set: it
    binds the key to the very object of [Cplus[()]] ([reduce] over a list
    of one element returns that element).  A [remove] through the new key
    is therefore seen through [()] as well.  The first read of an unbound
    key of two attributes or more gets an object the heap did not hold. *)
Theorem getitem_shares_object (st : TANE) (a : nat) (r : nat) :
  Cplus st !! [] = Some r → Cplus st !! [a] = None →
  (∃ st1, getitem [a] st = Ok (r, st1) ∧
          Cplus st1 = <[ [a] := r ]> (Cplus st) ∧ heap st1 = heap st ∧
          ∀ y, y ∈ cval st [] → r < length (heap st) →
               ∃ st2, (do r' <- getitem [a]; set_remove r' y) st = Ok (tt, st2) ∧
                      cval st2 [] = cval st [] ∖ {[y]} ∧
                      cval st2 [a] = cval st [] ∖ {[y]}) ∧
  (store_ok st →
   ∀ key r' st1, 2 ≤ length key → Cplus st !! key = None →
                 getitem key st = Ok (r', st1) → length (heap st) ≤ r').
Proof.
  intros Hr Ha. split.
  - eexists. split; [by apply getitem_singleton|]. split_and!; [done..|].
    intros y Hy Hlen. unfold cval in Hy. rewrite Hr in Hy.
    eexists. split.
    + unfold bind. rewrite (getitem_singleton a st r) by done.
      unfold set_remove. simpl. rewrite decide_True by done. done.
    + unfold cval. simpl. rewrite lookup_insert_eq.
      rewrite lookup_insert_ne by done. rewrite Hr.
      by rewrite list_lookup_total_insert_eq.
  - intros Hok key r' st1 Hlen Hkey E.
    destruct (getitem_spec key st Hok) as (r2 & st2 & E2 & _ & _ & _ & _ & Hfresh & _).
    rewrite E in E2. injection E2 as <- <-. by apply Hfresh.
Qed.

Lemma getitem_shares_object_witness :
  ∃ st2, (do r' <- getitem [0]; set_remove r' 1) (tane_init T_grid) = Ok (tt, st2) ∧
         cval st2 [] = cval (tane_init T_grid) [] ∖ {[1]} ∧
         cval st2 [0] = cval (tane_init T_grid) [] ∖ {[1]}.
Proof.
  destruct (getitem_shares_object (tane_init T_grid) 0 0)
    as [(st1 & _ & _ & _ & H) _]; [reflexivity..|].
  apply (H 1); [vm_compute; set_solver|simpl; lia].
Defined.

(** X10.  A dictionary with no entry cannot be read: whatever the key, the
    read ends in [reduce] over an empty list and raises [TypeError].  The
    entry for [()] that [TANE.__init__] stores is what every read rests
    on. *)
Theorem getitem_needs_root (st : TANE) (key : list nat) :
  Cplus st = ∅ → getitem key st = Raise TypeError.
Proof. apply getitem_rec_unbound. Qed.

Lemma getitem_needs_root_witness :
  getitem [0; 1] {| rules := []; pmgr := pm_init T_grid; Cplus := ∅; heap := [] |}
  = Raise TypeError.
Proof.
  apply (getitem_needs_root
           {| rules := []; pmgr := pm_init T_grid; Cplus := ∅; heap := [] |} [0; 1]).
  reflexivity.
Defined.

(** ** The procedures of [TANE] *)

Section procedure_facts.
Context (T : list (list (gset nat))).

Lemma prefix_blocks_keys (xs : list (list nat))
    (B : gmap (list nat) (list (list nat))) p :
  is_Some (foldl (λ (blocks : gmap (list nat) (list (list nat))) atts,
             <[removelast atts := default [] (blocks !! removelast atts) ++ [atts]]>
               blocks) B xs !! p)
  ↔ is_Some (B !! p) ∨ ∃ x, x ∈ xs ∧ removelast x = p.
Proof.
  revert B. induction xs as [|x xs IH]; intros B; simpl.
  - split; [by left|]. intros [?|(x & Hx & _)]; [done|]. by apply elem_of_nil in Hx.
  - rewrite IH, lookup_insert_is_Some. split.
    + intros [[<-|[_ ?]]|(x' & ? & ?)].
      * right. exists x. split; [left|done].
      * by left.
      * right. exists x'. split; [by right|done].
    + intros [?|(x' & Hx' & Hp)].
      * left. destruct (decide (removelast x = p)); [by left|by right].
      * apply elem_of_cons in Hx' as [->|?]; [left; by left|].
        right. eauto.
Qed.

Lemma prefix_blocks_nonempty (L : gset (list nat)) k :
  k ∈ prefix_blocks L →
  ∃ p x, x ∈ L ∧ removelast x = p ∧
         k = filter (λ a, removelast a = p) (elements L).
Proof.
  unfold prefix_blocks. rewrite list_elem_of_fmap.
  intros ([p k'] & -> & Hk). apply elem_of_map_to_list in Hk. simpl.
  pose proof (prefix_blocks_default (elements L) ∅ p) as H.
  rewrite Hk, lookup_empty in H. simpl in H.
  assert (is_Some (foldl (λ (blocks : gmap (list nat) (list (list nat))) atts,
             <[removelast atts := default [] (blocks !! removelast atts) ++ [atts]]>
               blocks) ∅ (elements L) !! p)) as Hs by eauto.
  apply prefix_blocks_keys in Hs as [Hs|(x & Hx & Hp)].
  - rewrite lookup_empty in Hs. by destruct Hs.
  - exists p, x. split_and!; [by apply elem_of_elements|done..].
Qed.

(** Inversion of one turn of the loop. *)
Lemma run_body_inv L l st L' l' st' :
  run_body T (L, l) st = Ok ((L', l'), st') →
  ∃ Lcur Lp next,
    L !! l = Some (Some Lcur) ∧ l' = l + 1 ∧
    L' = <[l := None]> (<[l := Some Lp]> L ++ [Some next]).
Proof.
  unfold run_body. destruct (L !! l) as [[Lcur|]|] eqn:E; [|done..].
  unfold bind at 1. destruct (compute_dependencies T Lcur st) as [[[] st1]|]; [|done].
  unfold bind at 1. destruct (prune Lcur st1) as [[Lp st2]|]; [|done].
  unfold bind at 1. destruct (generate_next_level Lp st2) as [[next st3]|]; [|done].
  unfold bind at 1. destruct (memory_wipe st3) as [[[] st4]|]; [|done].
  intros [= <- <- <-]. exists Lcur, Lp, next. split_and!; [done..|].
  by rewrite Nat.add_sub.
Qed.

Lemma wipe_level {A} (l : nat) (d x y z : A) :
  <[l := d]> (<[l := y]> (replicate l d ++ [x]) ++ [z])
  = replicate (l + 1) d ++ [z].
Proof.
  assert (<[l := y]> (replicate l d ++ [x]) = replicate l d ++ [y]) as ->.
  { rewrite insert_app_r_alt by (rewrite length_replicate; lia).
    by rewrite length_replicate, Nat.sub_diag. }
  rewrite <-app_assoc.
  rewrite insert_app_r_alt by (rewrite length_replicate; lia).
  rewrite length_replicate, Nat.sub_diag. simpl.
  by rewrite Nat.add_1_r, replicate_S_end, <-app_assoc.
Qed.

Lemma loop_head_wiped L l st :
  loop_head T (L, l) st →
  ∃ Lcur, L = replicate l None ++ [Some Lcur].
Proof.
  intros H. remember (L, l) as Ll eqn:E. revert L l E.
  induction H as [|[L0 l0] st0 [L1 l1] st1 _ IH _ Hbody]; intros L l E.
  - injection E as <- <-. by eexists.
  - injection E as <- <-.
    destruct (IH L0 l0 eq_refl) as [Lcur0 ->].
    apply run_body_inv in Hbody as (Lcur & Lp & next & _ & -> & ->).
    exists next. apply wipe_level.
Qed.

Lemma keeps_rules_ret {A} (a : A) : keeps_rules (ret a).
Proof. by intros st a' st' [= <- <-]. Qed.

Lemma keeps_rules_raise {A} e : keeps_rules (raise (A:=A) e).
Proof. by intros st a st' ?. Qed.

Lemma keeps_rules_bind {A B} (m : M A) (k : A → M B) :
  keeps_rules m → (∀ a, keeps_rules (k a)) → keeps_rules (bind m k).
Proof.
  intros Hm Hk st b st' E. unfold bind in E.
  destruct (m st) as [[a st1]|] eqn:E1; [|done].
  etrans; [by eapply Hm|by eapply Hk].
Qed.

Lemma keeps_rules_mapM {A B} (f : A → M B) l :
  (∀ x, keeps_rules (f x)) → keeps_rules (mapM f l).
Proof.
  intros Hf. induction l as [|x l IH]; simpl; [apply keeps_rules_ret|].
  apply keeps_rules_bind; [done|]. intros y.
  apply keeps_rules_bind; [done|]. intros ys. apply keeps_rules_ret.
Qed.

Lemma keeps_rules_forM {A} (f : A → M unit) l :
  (∀ x, keeps_rules (f x)) → keeps_rules (forM l f).
Proof.
  intros Hf. induction l as [|x l IH]; simpl; [apply keeps_rules_ret|].
  apply keeps_rules_bind; [done|]. by intros _.
Qed.

Lemma keeps_rules_foldM {A B} (f : B → A → M B) b l :
  (∀ b x, keeps_rules (f b x)) → keeps_rules (foldM f b l).
Proof.
  intros Hf. revert b. induction l as [|x l IH]; intros b; simpl;
    [apply keeps_rules_ret|].
  apply keeps_rules_bind; [done|]. intros b'. apply IH.
Qed.

Lemma keeps_rules_pm_read {A} (f : PartitionsManager → res A) :
  keeps_rules (pm_read f).
Proof.
  intros st a st' E. unfold pm_read in E.
  destruct (f (pmgr st)); [|done]. by injection E as <- <-.
Qed.

Lemma keeps_rules_pm_update f : keeps_rules (pm_update f).
Proof.
  intros st a st' E. unfold pm_update in E.
  destruct (f (pmgr st)); [|done]. by injection E as <- <-.
Qed.

Lemma keeps_rules_append_rule r : keeps_rules (append_rule r).
Proof. intros st a st' [= <- <-]. simpl. by apply prefix_app_r. Qed.

Lemma keeps_rules_deref r : keeps_rules (deref r).
Proof. by intros st a st' [= <- <-]. Qed.

Lemma keeps_rules_reduce_intersection refs :
  keeps_rules (reduce_intersection refs).
Proof.
  destruct refs as [|r [|r' refs]].
  - apply keeps_rules_raise.
  - apply keeps_rules_ret.
  - by intros st a st' [= <- <-].
Qed.

Lemma keeps_rules_set_remove r y : keeps_rules (set_remove r y).
Proof.
  intros st a st' E. unfold set_remove in E.
  case_decide; [|done]. by injection E as <- <-.
Qed.

Lemma keeps_rules_getitem_rec n key : keeps_rules (getitem_rec n key).
Proof.
  revert key. induction n as [|n IH]; intros key st r st' E; simpl in E.
  - destruct (Cplus st !! key); [|done]. by injection E as <- <-.
  - destruct (Cplus st !! key); [by injection E as <- <-|].
    revert E. apply keeps_rules_bind.
    { apply keeps_rules_mapM. intros i. apply IH. }
    intros refs. apply keeps_rules_bind; [apply keeps_rules_reduce_intersection|].
    intros r' st1 a st2 [= <- <-]. done.
Qed.

Lemma keeps_rules_getitem key : keeps_rules (getitem key).
Proof. apply keeps_rules_getitem_rec. Qed.

Lemma keeps_rules_compute_dependencies L :
  keeps_rules (compute_dependencies T L).
Proof.
  unfold compute_dependencies. apply keeps_rules_forM. intros X.
  apply keeps_rules_bind; [apply keeps_rules_getitem|]. intros r.
  apply keeps_rules_bind; [apply keeps_rules_deref|]. intros s.
  apply keeps_rules_forM. intros y. unfold compute_dependencies_at.
  apply keeps_rules_bind; [apply keeps_rules_pm_read|]. intros a.
  apply keeps_rules_bind; [apply keeps_rules_pm_read|].
  intros [|]; [|apply keeps_rules_ret].
  apply keeps_rules_bind; [apply keeps_rules_append_rule|]. intros _.
  apply keeps_rules_bind.
  { apply keeps_rules_bind; [apply keeps_rules_getitem|]. intros r'.
    apply keeps_rules_set_remove. }
  intros _. apply keeps_rules_bind; [apply keeps_rules_getitem|]. intros _.
  apply keeps_rules_bind; [apply keeps_rules_getitem|]. intros _.
  apply keeps_rules_ret.
Qed.

Lemma keeps_rules_prune L : keeps_rules (prune L).
Proof.
  unfold prune. apply keeps_rules_bind.
  - apply keeps_rules_foldM. intros c X. unfold prune_at.
    apply keeps_rules_bind; [apply keeps_rules_getitem|]. intros r.
    apply keeps_rules_bind; [apply keeps_rules_deref|]. intros s.
    apply keeps_rules_bind; [apply keeps_rules_pm_read|].
    intros [|]; [|apply keeps_rules_ret].
    apply keeps_rules_bind; [|intros _; apply keeps_rules_ret].
    apply keeps_rules_bind; [apply keeps_rules_getitem|]. intros r'.
    apply keeps_rules_bind; [apply keeps_rules_deref|]. intros s'.
    apply keeps_rules_forM. intros y. unfold prune_try.
    apply keeps_rules_bind;
      [apply keeps_rules_mapM; intros b; apply keeps_rules_getitem|].
    intros refs. apply keeps_rules_bind; [apply keeps_rules_reduce_intersection|].
    intros r2. apply keeps_rules_bind; [apply keeps_rules_deref|]. intros s2.
    case_decide; [apply keeps_rules_append_rule|apply keeps_rules_ret].
  - intros clean. apply keeps_rules_foldM. intros L' X. unfold set_remove_tuple.
    case_decide; [apply keeps_rules_ret|apply keeps_rules_raise].
Qed.

Lemma keeps_rules_generate_next_level L : keeps_rules (generate_next_level L).
Proof.
  unfold generate_next_level.
  apply keeps_rules_bind; [apply keeps_rules_pm_update|]. intros _.
  apply keeps_rules_foldM. intros next k. apply keeps_rules_foldM.
  intros next' [i j]. unfold generate_pair.
  apply keeps_rules_bind; [apply keeps_rules_pm_read|]. intros li.
  apply keeps_rules_bind; [apply keeps_rules_pm_read|]. intros lj.
  destruct (forallb _ _); [|apply keeps_rules_ret].
  apply keeps_rules_bind; [apply keeps_rules_pm_update|]. intros _.
  apply keeps_rules_ret.
Qed.

Lemma keeps_rules_run_body Ll : keeps_rules (run_body T Ll).
Proof.
  destruct Ll as [L l]. unfold run_body.
  destruct (L !! l) as [[Lcur|]|]; [|apply keeps_rules_raise..].
  apply keeps_rules_bind; [apply keeps_rules_compute_dependencies|]. intros _.
  apply keeps_rules_bind; [apply keeps_rules_prune|]. intros Lp.
  apply keeps_rules_bind; [apply keeps_rules_generate_next_level|]. intros next.
  apply keeps_rules_bind; [apply keeps_rules_pm_update|]. intros _.
  apply keeps_rules_ret.
Qed.

Lemma keeps_rules_run_iters k Ll : keeps_rules (run_iters T k Ll).
Proof.
  revert Ll. induction k as [|k IH]; intros Ll; simpl; [apply keeps_rules_ret|].
  apply keeps_rules_bind; [apply keeps_rules_pm_read|].
  intros [|]; [|apply keeps_rules_ret].
  apply keeps_rules_bind; [apply keeps_rules_run_body|]. intros Ll'. apply IH.
Qed.

Lemma proc_step_keeps_rules st st' :
  proc_step T st st' → rules st `prefix_of` rules st'.
Proof.
  intros [key r E|X y E|L E|L L' E|L next E|E|Ll Ll' E].
  - by eapply keeps_rules_getitem.
  - revert E. unfold compute_dependencies_at.
    apply keeps_rules_bind; [apply keeps_rules_pm_read|]. intros a.
    apply keeps_rules_bind; [apply keeps_rules_pm_read|].
    intros [|]; [|apply keeps_rules_ret].
    apply keeps_rules_bind; [apply keeps_rules_append_rule|]. intros _.
    apply keeps_rules_bind.
    { apply keeps_rules_bind; [apply keeps_rules_getitem|]. intros r'.
      apply keeps_rules_set_remove. }
    intros _. apply keeps_rules_bind; [apply keeps_rules_getitem|]. intros _.
    apply keeps_rules_bind; [apply keeps_rules_getitem|]. intros _.
    apply keeps_rules_ret.
  - by eapply keeps_rules_compute_dependencies.
  - by eapply keeps_rules_prune.
  - by eapply keeps_rules_generate_next_level.
  - by eapply keeps_rules_pm_update.
  - by eapply keeps_rules_run_body.
Qed.

Lemma later_keeps_rules st st' :
  later T st st' → rules st `prefix_of` rules st'.
Proof.
  induction 1 as [|st1 st2 _ IH Hstep]; [done|].
  etrans; [done|]. by apply proc_step_keeps_rules.
Qed.

End procedure_facts.

(** X11.  [prefix_blocks] cuts the level into blocks: every block is not
    empty, holds no tuple twice, and is made of exactly the tuples of [L]
    with one prefix ([atts[:-1]]); every tuple of [L] is in a block, and
    in one only. *)
Theorem prefix_blocks_partition (L : gset (list nat)) :
  (∀ k, k ∈ prefix_blocks L →
        k ≠ [] ∧ NoDup k ∧
        ∃ p, ∀ x, x ∈ k ↔ x ∈ L ∧ removelast x = p) ∧
  (∀ x, x ∈ L → ∃ k, k ∈ prefix_blocks L ∧ x ∈ k) ∧
  (∀ k k' x, k ∈ prefix_blocks L → k' ∈ prefix_blocks L →
             x ∈ k → x ∈ k' → k = k').
Proof.
  split_and!.
  - intros k (p & x & Hx & Hp & ->)%prefix_blocks_nonempty. split_and!.
    + intros Hnil.
      assert (x ∈ filter (λ a, removelast a = p) (elements L)) as Hin.
      { apply list_elem_of_filter. split; [done|]. by apply elem_of_elements. }
      rewrite Hnil in Hin. by apply elem_of_nil in Hin.
    + apply NoDup_filter, NoDup_elements.
    + exists p. intros y. rewrite list_elem_of_filter, elem_of_elements. tauto.
  - intros x Hx. eexists. split; [by apply prefix_blocks_elem_of|].
    apply list_elem_of_filter. split; [done|]. by apply elem_of_elements.
  - intros k k' x (p & _ & _ & _ & ->)%prefix_blocks_nonempty
      (p' & _ & _ & _ & ->)%prefix_blocks_nonempty
      [Hp _]%list_elem_of_filter [Hp' _]%list_elem_of_filter.
    assert (p = p') as -> by congruence. done.
Qed.

(** X12.  What [compute_dependencies] does to a level that is ready (no
    node read yet, distinct attributes in a node, immediate subsets bound,
    tests defined).  It raises nothing and binds the nodes of the level and
    no other key.  At a node [X] the value [Cplus[X]] ends as the
    intersection of the values at the immediate subsets, less the members
    [y] of [X] whose test [check_fd(X minus y, y)] holds; an attribute
    outside [X] is never removed.  The rules appended are exactly those
    [(X minus y, y)]. *)
Theorem compute_dependencies_post (T : list (list (gset nat)))
    (L : gset (list nat)) (st : TANE) :
  store_ok st → (∀ X, X ∈ L → cd_ready T st X) →
  ∃ st',
    compute_dependencies T L st = Ok (tt, st') ∧
    pmgr st' = pmgr st ∧
    (∀ Z, Z ∉ L → Cplus st' !! Z = Cplus st !! Z) ∧
    (∀ Z, is_Some (Cplus st !! Z) → cval st' Z = cval st Z) ∧
    (∀ X, X ∈ L →
          is_Some (Cplus st' !! X) ∧
          ∀ y, y ∈ cval st' X ↔
               meet_below st X y ∧ ¬ (y ∈ X ∧ fd_holds T (pmgr st) X y)) ∧
    (∀ X y, X ∈ L → y ∉ X → meet_below st X y → y ∈ cval st' X) ∧
    ∃ new, rules st' = rules st ++ new ∧
           ∀ W y, (W, y) ∈ new ↔
                  ∃ X, X ∈ L ∧ y ∈ X ∧ W = lhs_of X y ∧ meet_below st X y ∧
                       fd_holds T (pmgr st) X y.
Proof.
  intros Hok Hrdy.
  destruct (compute_dependencies_spec T L st Hok Hrdy)
    as (st' & E & Hok' & Hex & Hother & HL & new & Hru & Hnew).
  exists st'. split_and!.
  - done.
  - apply Hex.
  - intros Z HZ. apply Hother. by rewrite elem_of_elements.
  - intros Z HZ. by apply extends_cval.
  - intros X HX. apply HL. by apply elem_of_elements.
  - intros X y HX Hy Hm. apply HL; [by apply elem_of_elements|]. tauto.
  - exists new. split; [done|]. intros W y. rewrite Hnew.
    by setoid_rewrite elem_of_elements.
Qed.

Lemma compute_dependencies_post_witness :
  ∃ st', compute_dependencies T_grid (list_to_set ((λ i, [i]) <$> R T_grid))
           (tane_init T_grid) = Ok (tt, st') ∧
         pmgr st' = pmgr (tane_init T_grid) ∧
         ∃ new, rules st' = rules (tane_init T_grid) ++ new.
Proof.
  destruct (compute_dependencies_post T_grid
              (list_to_set ((λ i, [i]) <$> R T_grid)) (tane_init T_grid))
    as (st' & E & Hpm & _ & _ & _ & _ & new & Hru & _).
  - apply (lo_store _ _ _ _ _ _ (level_ok_start T_grid)).
  - intros X HX. exact (level_ok_cd_ready T_grid _ _ _ _ _ X (level_ok_start T_grid) HX).
  - exists st'. split; [exact E|]. split; [exact Hpm|]. exists new. exact Hru.
Defined.

(** X13.  What [prune] does to a level of bound, cached, non-empty nodes of
    one length.  It raises nothing ([L.remove] always finds its tuple), it
    keeps exactly the nodes whose [Cplus] is not empty and that are not
    superkeys, it changes no value of [Cplus] that was stored and not the
    cache, and the rules it appends are exactly the [(X, y)] with [X] a
    superkey of the level, [y] in [Cplus[X]] and not in [X], and [y] in
    every [Cplus] of [X] with one attribute swapped for [y]. *)
Theorem prune_keeps_and_records (l : nat) (L : gset (list nat)) (st : TANE) :
  store_ok st →
  (∀ X, X ∈ L → length X = l ∧ X ≠ [] ∧ is_Some (Cplus st !! X) ∧
                is_ok (is_superkey (pmgr st) X)) →
  ∃ L' st',
    prune L st = Ok (L', st') ∧
    (∀ X, X ∈ L' ↔
          X ∈ L ∧ cval st X ≠ ∅ ∧ is_superkey (pmgr st) X = Ok false) ∧
    pmgr st' = pmgr st ∧
    (∀ Z, is_Some (Cplus st !! Z) → cval st' Z = cval st Z) ∧
    ∃ new, rules st' = rules st ++ new ∧
           ∀ W y, (W, y) ∈ new ↔
                  W ∈ L ∧ is_superkey (pmgr st) W = Ok true ∧
                  y ∈ cval st W ∧ y ∉ W ∧ swap_test st' W y.
Proof.
  intros Hok HL.
  destruct (prune_spec l L st Hok HL)
    as (L' & st' & E & (Hok' & Hex & _ & new & Hru & Hnew) & HL').
  exists L', st'. split_and!; [done..|apply Hex| |].
  - intros Z HZ. by apply extends_cval.
  - exists new. split; [done|]. intros W y. rewrite Hnew.
    by rewrite elem_of_elements.
Qed.

Lemma prune_keeps_and_records_witness :
  ∃ st1 L' st',
    compute_dependencies T_grid (list_to_set ((λ i, [i]) <$> R T_grid))
      (tane_init T_grid) = Ok (tt, st1) ∧
    prune (list_to_set ((λ i, [i]) <$> R T_grid)) st1 = Ok (L', st') ∧
    pmgr st' = pmgr st1 ∧
    ∀ X, X ∈ L' ↔
         X ∈ (list_to_set ((λ i, [i]) <$> R T_grid) : gset (list nat)) ∧
         cval st1 X ≠ ∅ ∧ is_superkey (pmgr st1) X = Ok false.
Proof.
  pose proof (level_ok_start T_grid) as Hok.
  destruct (compute_dependencies_spec T_grid
              (list_to_set ((λ i, [i]) <$> R T_grid)) (tane_init T_grid))
    as (st1 & E1 & Hok1 & Hex1 & _ & HL1 & _).
  { apply (lo_store _ _ _ _ _ _ Hok). }
  { intros X HX. exact (level_ok_cd_ready T_grid _ _ _ _ _ X Hok HX). }
  destruct (prune_keeps_and_records 1 (list_to_set ((λ i, [i]) <$> R T_grid)) st1)
    as (L' & st' & E & HL' & Hpm & _).
  - exact Hok1.
  - intros X HX. destruct (lo_tuple _ _ _ _ _ _ Hok X HX) as (_ & Hlen & _).
    split; [exact Hlen|]. split.
    { intros ->. simpl in Hlen. lia. }
    split.
    { apply HL1. apply elem_of_elements. exact HX. }
    replace (pmgr st1) with (pmgr (tane_init T_grid)) by (symmetry; apply Hex1).
    unfold is_superkey, cache_get. rewrite Hlen.
    rewrite (lo_cache _ _ _ _ _ _ Hok).
    apply (lo_part _ _ _ _ _ _ Hok) in HX as [d ->]. eexists. reflexivity.
  - exists st1, L', st'. split; [exact E1|]. split; [exact E|].
    split; [exact Hpm|exact HL'].
Defined.

(** X14.  [run] raises no exception, whatever the table (its partitions
    need not even be partitions): no [KeyError] from the cache or from
    [L.remove], no [IndexError] from [i[-1]] or [self.T[y]], no
    [ValueError] from [X.index(y)], no [TypeError] from [reduce] or from a
    level that is [None].  With any number of turns allowed it ends or is
    still running. *)
Theorem run_raises_nothing (T : list (list (gset nat))) (fuel : nat) :
  (∃ st, run T fuel = Ok st) ∨ run T fuel = Raise OutOfFuel.
Proof. apply run_no_exception. Qed.

(** X15.  The shape of the levels.  At every head of the loop of [run] the
    list [L] holds [None] for every level below [l] and the current level
    last; the level is at most the number of attributes plus one; its
    tuples are strictly increasing tuples of [l] attributes of the table,
    each with its partition in the cache, and none is bound in [Cplus]
    yet. *)
Theorem levels_shape (T : list (list (gset nat)))
    (L : list (option (gset (list nat)))) (l : nat) (st : TANE) :
  loop_head T (L, l) st →
  ∃ Lcur,
    L = replicate l None ++ [Some Lcur] ∧ 1 ≤ l ∧
    (Lcur ≠ ∅ → l ≤ length T) ∧
    ∀ X, X ∈ Lcur →
         ssorted X ∧ length X = l ∧ (∀ x, x ∈ X → x < length T) ∧
         is_ok (cache_get (pmgr st) X) ∧ Cplus st !! X = None.
Proof.
  intros Hhead. destruct (loop_head_wiped T _ _ _ Hhead) as [Lcur ->].
  destruct (loop_head_level_ok T _ _ _ Hhead) as (Lcur' & m & Hok).
  assert (Lcur' = Lcur) as ->.
  { pose proof (lo_cur _ _ _ _ _ _ Hok) as H.
    rewrite lookup_app_r in H by (rewrite length_replicate; lia).
    rewrite length_replicate, Nat.sub_diag in H. simpl in H. congruence. }
  exists Lcur. split_and!.
  - done.
  - apply Hok.
  - intros Hne. destruct (decide (l ≤ length T)); [done|].
    destruct Hne. eapply level_ok_empty; [done|lia].
  - intros X HX. destruct (lo_tuple _ _ _ _ _ _ Hok X HX) as (Hs & Hlen & Hlt).
    split_and!; [done..| |].
    + unfold cache_get. rewrite Hlen, (lo_cache _ _ _ _ _ _ Hok).
      apply (lo_part _ _ _ _ _ _ Hok) in HX as [d ->]. by eexists.
    + destruct (Cplus st !! X) eqn:E; [|done].
      assert (length X < l) by (eapply lo_keys; eauto). lia.
Qed.

Lemma levels_shape_witness :
  ∃ Lcur,
    (run_start T_grid).1 = replicate 1 None ++ [Some Lcur] ∧ 1 ≤ 1 ∧
    (Lcur ≠ ∅ → 1 ≤ length T_grid) ∧
    ∀ X, X ∈ Lcur →
         ssorted X ∧ length X = 1 ∧ (∀ x, x ∈ X → x < length T_grid) ∧
         is_ok (cache_get (pmgr (tane_init T_grid)) X) ∧
         Cplus (tane_init T_grid) !! X = None.
Proof.
  exact (levels_shape T_grid _ 1 _ (head_start T_grid)).
Defined.

(** X16.  Rules are only appended: whatever procedures of the object run,
    the rules recorded before are still there afterwards, in the same
    order, as the beginning of the list. *)
Theorem rules_only_appended (T : list (list (gset nat))) (st st' : TANE) :
  later T st st' → ∃ new, rules st' = rules st ++ new.
Proof. intros H. by apply (later_keeps_rules T). Qed.

Lemma rules_only_appended_witness :
  ∃ Ll' st' new,
    run_body T_grid (run_start T_grid) (tane_init T_grid) = Ok (Ll', st') ∧
    rules st' = rules (tane_init T_grid) ++ new.
Proof.
  destruct (run_body_spec T_grid _ _ _ _ _ (level_ok_start T_grid))
    as (L' & st' & next & m' & E & _ & _).
  destruct (rules_only_appended T_grid (tane_init T_grid) st') as [new Hnew].
  - eapply later_step; [apply later_refl|]. eapply step_body. exact E.
  - exists (L', 2), st', new. split; [exact E|exact Hnew].
Defined.

(** ** Naming a tuple *)

Section tostr_facts.

Lemma tostr_Ok atts s :
  tostr atts = Ok s ↔
  (∀ i, i ∈ atts → (N.of_nat i ≤ 1114046)%N) ∧
  s = (λ i, (65 + N.of_nat i)%N) <$> atts.
Proof.
  revert s. induction atts as [|i atts IH]; intros s; simpl.
  - split.
    + intros [= <-]. split; [|done]. by intros ? ?%elem_of_nil.
    + intros [_ ->]. done.
  - unfold chr. destruct (decide (65 + N.of_nat i ≤ 1114111)%N) as [Hi|Hi]; simpl.
    + destruct (tostr atts) as [s'|e] eqn:E; simpl.
      * destruct (proj1 (IH s') eq_refl) as [Hall ->]. split.
        -- intros [= <-]. split; [|done].
           intros j [->|?]%elem_of_cons; [lia|by apply Hall].
        -- intros [_ ->]. done.
      * split; [done|]. intros [Hall ->]. exfalso.
        assert (Raise e = Ok ((λ i, (65 + N.of_nat i)%N) <$> atts)) as Habs; [|done].
        apply IH. split; [|done]. intros j Hj. apply Hall. by right.
    + assert (∀ e, Raise e = Ok s ↔
                (∀ j, j ∈ i :: atts → (N.of_nat j ≤ 1114046)%N) ∧
                s = (λ j, (65 + N.of_nat j)%N) <$> i :: atts) as Hno.
      { intros e. split; [done|]. intros [Hall _]. exfalso. apply Hi.
        specialize (Hall i).
        assert (N.of_nat i ≤ 1114046)%N by (apply Hall; left). lia. }
      destruct (decide (65 + N.of_nat i < 2147483648)%N); simpl; apply Hno.
Qed.

Lemma tostr_Raise pre i post :
  (∀ j, j ∈ pre → (N.of_nat j ≤ 1114046)%N) → (1114046 < N.of_nat i)%N →
  tostr (pre ++ i :: post) = Raise (chr_error i).
Proof.
  intros Hpre Hi. induction pre as [|j pre IH]; simpl.
  - unfold chr, chr_error. rewrite decide_False by lia.
    destruct (decide (65 + N.of_nat i < 2147483648)%N).
    + by rewrite decide_True by lia.
    + by rewrite decide_False by lia.
  - unfold chr at 1. rewrite decide_True.
    + simpl. rewrite IH; [done|]. intros j' Hj'. apply Hpre. by right.
    + assert (N.of_nat j ≤ 1114046)%N by (apply Hpre; left). lia.
Qed.

End tostr_facts.

(** X17.  Naming a tuple.  [tostr] succeeds exactly when every attribute is
    at most 1114046; otherwise it raises what [chr] raises at the first
    attribute past that bound: [ValueError] when the attribute is below
    [2**31 - 65], [OverflowError] from there on.  The name has one
    character per attribute, the attribute is read back from its character
    by subtracting 65, so two tuples with one name are the same tuple; and
    the name of a concatenation is the concatenation of the names. *)
Theorem tostr_names :
  (∀ atts, is_ok (tostr atts) ↔ ∀ i, i ∈ atts → (N.of_nat i ≤ 1114046)%N) ∧
  (∀ pre i post,
     (∀ j, j ∈ pre → (N.of_nat j ≤ 1114046)%N) → (1114046 < N.of_nat i)%N →
     tostr (pre ++ i :: post)
     = Raise (if decide (N.of_nat i < 2147483583)%N
              then ValueError else OverflowError)) ∧
  (∀ atts s, tostr atts = Ok s →
             length s = length atts ∧
             (λ c, N.to_nat (c - 65)) <$> s = atts) ∧
  (∀ a b s, tostr a = Ok s → tostr b = Ok s → a = b) ∧
  (∀ a b sa sb, tostr a = Ok sa → tostr b = Ok sb →
                tostr (a ++ b) = Ok (sa ++ sb)) ∧
  tostr [0; 1; 25] = Ok [65; 66; 90]%N.
Proof.
  assert (∀ atts s, tostr atts = Ok s →
            (λ c, N.to_nat (c - 65)) <$> s = atts) as Hback.
  { intros atts s [_ ->]%tostr_Ok. rewrite <-list_fmap_compose.
    rewrite <-(list_fmap_id atts) at 2. apply list_fmap_ext.
    intros _ i _. simpl. lia. }
  split_and!.
  - intros atts. split.
    + intros [s Hs]. by apply tostr_Ok in Hs as [? _].
    + intros Hall. eexists. apply tostr_Ok. done.
  - intros pre i post Hpre Hi. by apply tostr_Raise.
  - intros atts s Hs. split; [|by apply Hback].
    apply tostr_Ok in Hs as [_ ->]. by rewrite length_fmap.
  - intros a b s Ha Hb. apply Hback in Ha, Hb. congruence.
  - intros a b sa sb [Ha ->]%tostr_Ok [Hb ->]%tostr_Ok. apply tostr_Ok. split.
    + intros i [?|?]%elem_of_app; auto.
    + by rewrite fmap_app.
  - done.
Qed.

(** ** What the partitions mean *)

Section meaning_facts.
Context (T : list (list (gset nat))).

Lemma agree_refl a t : agree T a t t.
Proof. by left. Qed.

Lemma agree_sym a t u : agree T a t u → agree T a u t.
Proof. intros [->|(d & c & ? & ? & ? & ?)]; [by left|right; eauto 10]. Qed.

Lemma valid_table_separated d : valid_table T → d ∈ T → separated d.
Proof.
  intros HT Hd. apply pairwise_disjoint_separated.
  by apply HT in Hd as [? _]%andb_true_iff.
Qed.

Lemma agree_trans a t u v :
  valid_table T → agree T a t u → agree T a u v → agree T a t v.
Proof.
  intros HT [->|(d & c & Hd & Hc & Ht & Hu)]; [done|].
  intros [<-|(d' & c' & Hd' & Hc' & Hu' & Hv)]; [right; eauto 10|].
  assert (d' = d) as -> by congruence.
  destruct (valid_table_separated d HT) with c c' as [->|Hdisj];
    [by eapply list_elem_of_lookup_2|done..| |set_solver].
  right. eauto 10.
Qed.

Lemma agree_on_refl S t : agree_on T S t t.
Proof. intros a _. apply agree_refl. Qed.

Lemma agree_on_sym S t u : agree_on T S t u → agree_on T S u t.
Proof. intros H a Ha. by apply agree_sym, H. Qed.

Lemma agree_on_trans S t u v :
  valid_table T → agree_on T S t u → agree_on T S u v → agree_on T S t v.
Proof. intros HT H1 H2 a Ha. eapply agree_trans; eauto. Qed.

Lemma agree_on_mono S S' t u : S ⊆ S' → agree_on T S' t u → agree_on T S t u.
Proof. intros HS H a Ha. apply H. set_solver. Qed.

Lemma agree_on_union S S' t u :
  agree_on T (S ∪ S') t u ↔ agree_on T S t u ∧ agree_on T S' t u.
Proof.
  split.
  - intros H. split; intros a Ha; apply H; set_solver.
  - intros [H1 H2] a [?|?]%elem_of_union; auto.
Qed.

Lemma agree_on_singleton a t u : agree_on T {[a]} t u ↔ agree T a t u.
Proof.
  split.
  - intros H. apply H. set_solver.
  - intros H b ->%elem_of_singleton. done.
Qed.

Lemma superkey_mono S S' : S ⊆ S' → superkey T S → superkey T S'.
Proof. intros HS H t u Htu. apply H. by eapply agree_on_mono. Qed.

Lemma determines_mono S S' y : S ⊆ S' → determines T S y → determines T S' y.
Proof. intros HS H t u Htu. apply H. by eapply agree_on_mono. Qed.

Lemma superkey_determines S y : superkey T S → determines T S y.
Proof. intros H t u Htu. rewrite (H t u Htu). apply agree_refl. Qed.

Lemma determines_member S y : y ∈ S → determines T S y.
Proof. intros Hy t u Htu. by apply Htu. Qed.

Lemma size_ge_2_other (c : gset nat) t : 2 ≤ size c → ∃ u, u ∈ c ∧ u ≠ t.
Proof.
  intros Hsz. destruct (decide (c ∖ {[t]} = ∅)) as [He|Hne].
  - assert (c ⊆ {[t]}) as Hsub.
    { intros x Hx. apply elem_of_singleton.
      destruct (decide (x = t)) as [|Hxt]; [done|].
      assert (x ∈ c ∖ {[t]}) as Hin
        by (apply elem_of_difference; by rewrite elem_of_singleton).
      rewrite He in Hin. by apply elem_of_empty in Hin. }
    apply subseteq_size in Hsub. rewrite size_singleton in Hsub. lia.
  - apply set_choose_L in Hne as [u Hu].
    apply elem_of_difference in Hu as [Hu Hut]. rewrite elem_of_singleton in Hut.
    by exists u.
Qed.

Lemma size_ge_2_pair (c : gset nat) t u : t ∈ c → u ∈ c → t ≠ u → 2 ≤ size c.
Proof.
  intros Ht Hu Hne.
  assert ({[t; u]} ⊆ c) as Hsub by set_solver.
  apply subseteq_size in Hsub.
  rewrite size_union, !size_singleton in Hsub by set_solver. lia.
Qed.

Lemma partition_of_separated S d : partition_of T S d → separated d.
Proof.
  intros [Hc _] c c' Hin Hin'.
  destruct (decide (c ∩ c' = ∅)) as [He|Hne]; [right; set_solver|].
  apply set_choose_L in Hne as [t [Ht Ht']%elem_of_intersection].
  left. apply set_eq. intros u.
  destruct (Hc c Hin) as [_ H1], (Hc c' Hin') as [_ H2].
  by rewrite (H1 t u Ht), (H2 t u Ht').
Qed.

Lemma partition_of_column a d :
  valid_table T → T !! a = Some d → partition_of T {[a]} d.
Proof.
  intros HT Ha.
  assert (d ∈ T) as Hd by (by eapply list_elem_of_lookup_2).
  split.
  - intros c Hc. split; [by eapply stripped_size; eauto|].
    intros t u Ht. rewrite agree_on_singleton. split.
    + intros Hu. right. eauto 10.
    + intros [<-|(d' & c' & Hd' & Hc' & Ht' & Hu)]; [done|].
      assert (d' = d) as -> by congruence.
      destruct (valid_table_separated d HT Hd c c') as [->|?];
        [done..| |set_solver].
      done.
  - intros t u Hne Htu. apply agree_on_singleton in Htu as [?|Htu]; [done|].
    destruct Htu as (d' & c & Hd' & Hc & ? & ?).
    assert (d' = d) as -> by congruence. eauto.
Qed.

Lemma partition_of_product S1 S2 d1 d2 :
  partition_of T S1 d1 → partition_of T S2 d2 →
  partition_of T (S1 ∪ S2) (PPattern.intersection d1 d2).
Proof.
  intros H1 H2. pose proof (partition_of_separated _ _ H1) as Hsep.
  destruct H1 as [Hc1 Hp1], H2 as [Hc2 Hp2]. split.
  - intros c (a & b & Ha & Hb & -> & Hsz)%elem_of_separated_product; [|done].
    split; [lia|]. intros t u [Hta Htb]%elem_of_intersection.
    destruct (Hc1 a Ha) as [_ Ea], (Hc2 b Hb) as [_ Eb].
    rewrite elem_of_intersection, (Ea t u Hta), (Eb t u Htb).
    by rewrite agree_on_union.
  - intros t u Hne [Ht1 Ht2]%agree_on_union.
    destruct (Hp1 t u Hne Ht1) as (a & Ha & Hta & Hua).
    destruct (Hp2 t u Hne Ht2) as (b & Hb & Htb & Hub).
    exists (a ∩ b). split_and!; [|set_solver..].
    apply elem_of_separated_product; [done|].
    exists a, b. split_and!; [done..|].
    assert (2 ≤ size (a ∩ b)); [|lia].
    apply (size_ge_2_pair _ t u); set_solver.
Qed.

Lemma partition_of_superkey S d :
  partition_of T S d → d = [] ↔ superkey T S.
Proof.
  intros [Hc Hp]. split.
  - intros -> t u Htu. destruct (decide (t = u)) as [|Hne]; [done|].
    destruct (Hp t u Hne Htu) as (c & Hin & _). by apply elem_of_nil in Hin.
  - intros Hsk. destruct d as [|c d]; [done|]. exfalso.
    destruct (Hc c) as [Hsz Hcl]; [left|].
    destruct (decide (c = ∅)) as [->|Hne]; [rewrite size_empty in Hsz; lia|].
    apply set_choose_L in Hne as [t Ht].
    destruct (size_ge_2_other c t Hsz) as (u & Hu & Hne).
    apply Hne. symmetry. apply Hsk. by apply (Hcl t u Ht).
Qed.

Lemma leq_true d d' :
  PPattern.leq d d' = true ↔ ∀ c, c ∈ d → ∃ c', c' ∈ d' ∧ c ⊆ c'.
Proof.
  unfold PPattern.leq. rewrite forallb_forall. split.
  - intros H c Hc%list_elem_of_In. apply H, existsb_exists in Hc as (c' & Hc' & Hs).
    exists c'. split; [by apply list_elem_of_In|]. by apply bool_decide_eq_true in Hs.
  - intros H c Hc%list_elem_of_In. destruct (H c Hc) as (c' & Hc' & Hs).
    apply existsb_exists. exists c'. split; [by apply list_elem_of_In|].
    by apply bool_decide_eq_true.
Qed.

Lemma partition_of_leq S d y dy :
  partition_of T S d → partition_of T {[y]} dy →
  PPattern.leq d dy = true ↔ determines T S y.
Proof.
  intros [Hc Hp] Hy. pose proof (partition_of_separated _ _ Hy) as Hsep.
  destruct Hy as [Hcy Hpy]. rewrite leq_true. split.
  - intros Hle t u Htu. destruct (decide (t = u)) as [->|Hne]; [by left|].
    destruct (Hp t u Hne Htu) as (c & Hin & Ht & Hu).
    destruct (Hle c Hin) as (c' & Hin' & Hsub).
    destruct (Hcy c' Hin') as [_ Hcl].
    apply agree_on_singleton. apply (Hcl t u); set_solver.
  - intros Hdet c Hin. destruct (Hc c Hin) as [Hsz Hcl].
    destruct (decide (c = ∅)) as [->|Hne]; [rewrite size_empty in Hsz; lia|].
    apply set_choose_L in Hne as [t Ht].
    destruct (size_ge_2_other c t Hsz) as (u0 & Hu0 & Hne0).
    assert (agree_on T {[y]} t u0) as Hy0.
    { apply agree_on_singleton, Hdet. by apply (Hcl t u0 Ht). }
    destruct (Hpy t u0) as (c' & Hin' & Ht' & _); [done..|].
    exists c'. split; [done|]. intros u Hu.
    destruct (Hcy c' Hin') as [_ Hcl'].
    apply (Hcl' t u Ht'). apply agree_on_singleton, Hdet.
    by apply (Hcl t u Ht).
Qed.

Lemma attrs_singleton i : attrs [i] = {[i]}.
Proof. unfold attrs. simpl. by rewrite union_empty_r_L. Qed.

Lemma elem_of_attrs X x : x ∈ attrs X ↔ x ∈ X.
Proof. unfold attrs. by rewrite elem_of_list_to_set. Qed.

Lemma cache_ok_init : valid_table T → cache_ok T (pm_init T).
Proof.
  intros HT k mk X d Hk HX. unfold pm_init in Hk. simpl in Hk.
  apply lookup_insert_Some in Hk as [[_ ?]|[_ Hk]]; [done|].
  apply lookup_insert_Some in Hk as [[_ [= <-]]|[_ Hk]];
    [|by rewrite lookup_empty in Hk].
  apply (list_to_map_imap (λ i, [i])) in HX as (i & -> & Hi);
    [|by intros ?? [=]].
  rewrite attrs_singleton. by apply partition_of_column.
Qed.

Lemma cache_ok_turn L l st Lcur m st' next m' :
  level_ok T L l st Lcur m → cache_ok T (pmgr st) →
  turn T l st Lcur m st' next m' → cache_ok T (pmgr st').
Proof.
  intros Hok Hc (st1 & st2 & Lp & _ & _ & HLp & (_ & _ & He) & ->).
  intros k mk X d Hk HX. unfold next_state in Hk. simpl in Hk.
  apply lookup_delete_Some in Hk as [Hne Hk].
  apply lookup_insert_Some in Hk as [[_ [= <-]]|[_ Hk]]; [|by eapply Hc].
  destruct (He X d HX) as (i & j & Hij & -> & ->).
  apply elem_of_all_pairs_1 in Hij as (Hi & Hj & Hne' & Hp).
  apply HLp in Hi as (Hi & _), Hj as (Hj & _).
  destruct (lo_tuple _ _ _ _ _ _ Hok i Hi) as (Hsi & Hli & _).
  destruct (lo_tuple _ _ _ _ _ _ Hok j Hj) as (Hsj & Hlj & _).
  pose proof (lo_pos _ _ _ _ _ _ Hok) as Hl.
  assert (i ≠ []) by (intros ->; simpl in Hli; lia).
  assert (j ≠ []) by (intros ->; simpl in Hlj; lia).
  destruct (merge_pair_sorted i j) as [_ Hel]; auto.
  assert (attrs (merge_pair i j) = attrs i ∪ attrs j) as ->.
  { apply set_eq. intros x. rewrite elem_of_union, !elem_of_attrs. apply Hel. }
  pose proof (lo_cache _ _ _ _ _ _ Hok) as Hm.
  apply (lo_part _ _ _ _ _ _ Hok) in Hi as [di Hdi], Hj as [dj Hdj].
  rewrite !lookup_total_alt, Hdi, Hdj. simpl.
  apply partition_of_product; by eapply Hc.
Qed.

Lemma loop_head_cache_ok Ll st :
  valid_table T → loop_head T Ll st → cache_ok T (pmgr st).
Proof.
  intros HT. induction 1 as [|[L l] st [L' l'] st' Hhead IH _ Hbody].
  - by apply cache_ok_init.
  - destruct (loop_head_level_ok T _ _ _ Hhead) as (Lcur & m & Hok).
    destruct (run_body_spec T _ _ _ _ _ Hok)
      as (L2 & st2 & next & m' & E & Hturn & _).
    rewrite E in Hbody. injection Hbody as <- <- <-.
    by eapply cache_ok_turn.
Qed.

Lemma is_superkey_meaning pm X d :
  cache_get pm X = Ok d → partition_of T (attrs X) d →
  is_superkey pm X = Ok (bool_decide (d = [])) ∧
  (d = [] ↔ superkey T (attrs X)).
Proof.
  intros Hget Hd. split; [|by apply partition_of_superkey].
  unfold is_superkey. rewrite Hget. simpl. by destruct d.
Qed.

Lemma check_fd_meaning pm X y d dy :
  valid_table T → X ≠ [] →
  cache_get pm X = Ok d → partition_of T (attrs X) d → T !! y = Some dy →
  check_fd T pm X y = Ok (PPattern.leq d dy) ∧
  (PPattern.leq d dy = true ↔ determines T (attrs X) y).
Proof.
  intros HT HX Hget Hd Hy. split.
  - unfold check_fd. destruct X; [done|]. rewrite Hget. simpl. by rewrite Hy.
  - apply partition_of_leq; [done|]. by apply partition_of_column.
Qed.

End meaning_facts.

(** X18.  The cache holds the right partitions.  For a table of stripped
    partitions, at every head of the loop of [run] each partition in the
    cache, at whatever level, is the stripped partition of its tuple: its
    classes have two rows or more, a class is the set of rows that agree
    with one of its rows on every attribute of the tuple, and any two
    distinct rows that agree on the tuple are in a class. *)
Theorem cache_holds_partitions (T : list (list (gset nat)))
    (Ll : list (option (gset (list nat))) * nat) (st : TANE) :
  valid_table T → loop_head T Ll st →
  ∀ k mk X d, cache (pmgr st) !! k = Some (Some mk) → mk !! X = Some d →
              partition_of T (attrs X) d.
Proof. intros HT Hhead. by apply (loop_head_cache_ok T Ll). Qed.

Lemma cache_holds_partitions_witness :
  valid_table T_grid ∧
  ∃ Ll' st' mk,
    run_body T_grid (run_start T_grid) (tane_init T_grid) = Ok (Ll', st') ∧
    cache (pmgr st') !! 2 = Some (Some mk) ∧
    ∀ X d, mk !! X = Some d → partition_of T_grid (attrs X) d.
Proof.
  assert (valid_table T_grid) as HT.
  { intros d Hd. unfold T_grid in Hd.
    repeat (apply elem_of_cons in Hd as [->|Hd]; [by vm_compute|]).
    by apply elem_of_nil in Hd. }
  split; [exact HT|].
  destruct (run_body_spec T_grid _ _ _ _ _ (level_ok_start T_grid))
    as (L' & st' & next & m' & E & _ & Hok).
  exists (L', 2), st', m'. split; [exact E|].
  split; [exact (lo_cache _ _ _ _ _ _ Hok)|].
  intros X d HX.
  apply (cache_holds_partitions T_grid (L', 2) st' HT) with 2 m'.
  - eapply head_step; [apply head_start|done|exact E].
  - exact (lo_cache _ _ _ _ _ _ Hok).
  - exact HX.
Defined.

(** X19.  What [is_superkey] answers.  When the cache holds for [X] its
    stripped partition, [is_superkey(X)] returns [True] exactly when no two
    distinct rows agree on every attribute of [X]. *)
Theorem is_superkey_correct (T : list (list (gset nat)))
    (pm : PartitionsManager) (X : list nat) (d : list (gset nat)) :
  cache_get pm X = Ok d → partition_of T (attrs X) d →
  ∃ b, is_superkey pm X = Ok b ∧ (b = true ↔ superkey T (attrs X)).
Proof.
  intros Hget Hd. destruct (is_superkey_meaning T pm X d Hget Hd) as [E Hiff].
  eexists. split; [exact E|]. rewrite <-Hiff. apply bool_decide_eq_true.
Qed.

Lemma is_superkey_correct_witness :
  cache_get (pm_init T_grid) [0] = Ok [{[0; 1]}; {[2; 3]}] ∧
  partition_of T_grid (attrs [0]) [{[0; 1]}; {[2; 3]}] ∧
  ∃ b, is_superkey (pm_init T_grid) [0] = Ok b ∧
       (b = true ↔ superkey T_grid (attrs [0])).
Proof.
  assert (valid_table T_grid) as HT.
  { intros d Hd. unfold T_grid in Hd.
    repeat (apply elem_of_cons in Hd as [->|Hd]; [by vm_compute|]).
    by apply elem_of_nil in Hd. }
  assert (partition_of T_grid (attrs [0]) [{[0; 1]}; {[2; 3]}]) as Hp.
  { rewrite attrs_singleton. by apply partition_of_column. }
  split_and!; [done|done|].
  exact (is_superkey_correct T_grid (pm_init T_grid) [0] _ eq_refl Hp).
Defined.

(** X20.  What [check_fd] answers.  On a table of stripped partitions, when
    the left-hand side [X] is not empty, the cache holds its stripped
    partition and [y] is a column of the table, [check_fd(X, y)] returns
    [True] exactly when any two rows that agree on every attribute of [X]
    agree on [y] ([leq] being the refinement test). *)
Theorem check_fd_correct (T : list (list (gset nat)))
    (pm : PartitionsManager) (X : list nat) (y : nat) (d : list (gset nat)) :
  valid_table T → X ≠ [] → y < length T →
  cache_get pm X = Ok d → partition_of T (attrs X) d →
  ∃ b, check_fd T pm X y = Ok b ∧ (b = true ↔ determines T (attrs X) y).
Proof.
  intros HT HX Hy Hget Hd.
  destruct (lookup_lt_is_Some_2 T y Hy) as [dy Hdy].
  destruct (check_fd_meaning T pm X y d dy HT HX Hget Hd Hdy) as [E Hiff].
  eexists. split; [exact E|exact Hiff].
Qed.

Lemma check_fd_correct_witness :
  valid_table T_grid ∧ [0] ≠ [] ∧ 1 < length T_grid ∧
  cache_get (pm_init T_grid) [0] = Ok [{[0; 1]}; {[2; 3]}] ∧
  partition_of T_grid (attrs [0]) [{[0; 1]}; {[2; 3]}] ∧
  ∃ b, check_fd T_grid (pm_init T_grid) [0] 1 = Ok b ∧
       (b = true ↔ determines T_grid (attrs [0]) 1).
Proof.
  assert (valid_table T_grid) as HT.
  { intros d Hd. unfold T_grid in Hd.
    repeat (apply elem_of_cons in Hd as [->|Hd]; [by vm_compute|]).
    by apply elem_of_nil in Hd. }
  assert (partition_of T_grid (attrs [0]) [{[0; 1]}; {[2; 3]}]) as Hp.
  { rewrite attrs_singleton. by apply partition_of_column. }
  split_and!; [done|done|simpl; lia|done|done|].
  exact (check_fd_correct T_grid (pm_init T_grid) [0] 1 _ HT
           ltac:(done) ltac:(simpl; lia) eq_refl Hp).
Defined.

(** ** What the rules mean *)

Section rules_facts.
Context (T : list (list (gset nat))).

Lemma subset_witness (V S : gset nat) : V ⊂ S → ∃ x, x ∈ S ∧ x ∉ V.
Proof.
  intros [H1 H2]. destruct (decide (S ∖ V = ∅)) as [He|Hne].
  - exfalso. apply H2. intros x Hx.
    destruct (decide (x ∈ V)) as [|Hn]; [done|].
    assert (x ∈ S ∖ V) as Hin by (by apply elem_of_difference).
    rewrite He in Hin. by apply elem_of_empty in Hin.
  - apply set_choose_L in Hne as [x [? ?]%elem_of_difference]. eauto.
Qed.

Lemma elem_of_without X a x z :
  NoDup X → X !! a = Some x → z ∈ without X a ↔ z ∈ X ∧ z ≠ x.
Proof.
  intros Hnd Ha. pose proof (take_drop_middle X a x Ha) as E.
  assert (z ∈ X ↔ z ∈ take a X ∨ z = x ∨ z ∈ drop (S a) X) as ->.
  { rewrite <-E at 1. by rewrite elem_of_app, elem_of_cons. }
  rewrite <-E in Hnd. apply NoDup_app in Hnd as (_ & H2 & H3).
  apply NoDup_cons in H3 as [H3 _].
  unfold without. rewrite elem_of_app. split.
  - intros [Hz|Hz].
    + split; [by left|]. intros ->. apply (H2 x Hz). by left.
    + split; [by right; right|]. by intros ->.
  - intros [[?|[?|?]] ?]; by auto.
Qed.

Lemma attrs_without X a x :
  NoDup X → X !! a = Some x → attrs (without X a) = attrs X ∖ {[x]}.
Proof.
  intros Hnd Ha. apply set_eq. intros z.
  rewrite elem_of_difference, elem_of_singleton, !elem_of_attrs.
  by apply elem_of_without.
Qed.

Lemma subset_without X (V : gset nat) :
  NoDup X → V ⊂ attrs X →
  ∃ a x, X !! a = Some x ∧ x ∉ V ∧ V ⊆ attrs (without X a).
Proof.
  intros Hnd HV. destruct (subset_witness _ _ HV) as (x & Hx & HxV).
  apply elem_of_attrs, list_elem_of_lookup in Hx as [a Ha].
  exists a, x. split_and!; [done..|].
  rewrite (attrs_without X a x) by done.
  intros z Hz. apply elem_of_difference. split.
  - by apply HV.
  - rewrite elem_of_singleton. by intros ->.
Qed.

Lemma attrs_nil_inv X : attrs X = ∅ → X = [].
Proof.
  destruct X as [|x X]; [done|]. intros H.
  assert (x ∈ attrs (x :: X)) as Hx by (apply elem_of_attrs; left).
  rewrite H in Hx. by apply elem_of_empty in Hx.
Qed.

Lemma attrs_nonempty X : X ≠ [] → attrs X ≠ ∅.
Proof. intros HX He. by apply HX, attrs_nil_inv. Qed.

Lemma le_sorted_NoDup_ssorted X :
  StronglySorted (≤) X → NoDup X → ssorted X.
Proof.
  unfold ssorted. induction 1 as [|x X _ IH Hx]; intros Hnd; [constructor|].
  apply NoDup_cons in Hnd as [Hn Hnd]. constructor; [by apply IH|].
  rewrite Forall_forall in *. intros z Hz.
  assert (z ≠ x) by (by intros ->). specialize (Hx z Hz). lia.
Qed.

Lemma ssorted_merge_sort X : NoDup X → ssorted (merge_sort (≤) X).
Proof.
  intros Hnd. apply le_sorted_NoDup_ssorted.
  - apply StronglySorted_merge_sort; apply _.
  - by rewrite merge_sort_Permutation.
Qed.

Lemma elem_of_merge_sort x (X : list nat) : x ∈ merge_sort (≤) X ↔ x ∈ X.
Proof. by rewrite merge_sort_Permutation. Qed.

Lemma ssorted_tuple_of S : ssorted (tuple_of S).
Proof. apply ssorted_merge_sort, NoDup_elements. Qed.

Lemma elem_of_tuple_of x S : x ∈ tuple_of S ↔ x ∈ S.
Proof. unfold tuple_of. by rewrite elem_of_merge_sort, elem_of_elements. Qed.

Lemma attrs_tuple_of S : attrs (tuple_of S) = S.
Proof. apply set_eq. intros x. by rewrite elem_of_attrs, elem_of_tuple_of. Qed.

Lemma length_tuple_of S : length (tuple_of S) = size S.
Proof. unfold tuple_of. by rewrite merge_sort_Permutation. Qed.

Lemma size_attrs X : NoDup X → size (attrs X) = length X.
Proof. intros H. unfold attrs. by rewrite size_list_to_set. Qed.

Lemma tuple_of_attrs X : ssorted X → tuple_of (attrs X) = X.
Proof.
  intros HX. apply ssorted_ext; [apply ssorted_tuple_of|done|].
  intros x. by rewrite elem_of_tuple_of, elem_of_attrs.
Qed.

Lemma tuple_ok_tuple_of S :
  (∀ x, x ∈ S → x < length T) → tuple_ok T (tuple_of S).
Proof.
  intros HS. split; [apply ssorted_tuple_of|].
  intros x Hx%elem_of_tuple_of. by apply HS.
Qed.

Lemma tuple_ok_without X a : tuple_ok T X → tuple_ok T (without X a).
Proof.
  intros [Hs Hlt]. split; [by apply ssorted_without|].
  intros x Hx. apply Hlt. eapply elem_of_sublist; [done|apply sublist_without].
Qed.

Lemma tuple_ok_sublist X Y : X `sublist_of` Y → tuple_ok T Y → tuple_ok T X.
Proof.
  intros Hsub [Hs Hlt]. split; [by eapply ssorted_sublist|].
  intros x Hx. apply Hlt. by eapply elem_of_sublist.
Qed.

Lemma elem_of_swap_in X b y z :
  z ∈ swap_in X b y ↔ z ∈ without X b ∨ z = y.
Proof.
  unfold swap_in. rewrite elem_of_merge_sort, elem_of_app.
  by rewrite list_elem_of_singleton.
Qed.

Lemma tuple_ok_swap_in X b y :
  tuple_ok T X → y ∉ X → y < length T → tuple_ok T (swap_in X b y).
Proof.
  intros [Hs Hlt] Hy Hyn. split.
  - unfold swap_in. apply ssorted_merge_sort. apply NoDup_app. split_and!.
    + by apply ssorted_NoDup, ssorted_without.
    + intros x Hx ->%list_elem_of_singleton. apply Hy.
      eapply elem_of_sublist; [done|apply sublist_without].
    + apply NoDup_singleton.
  - intros x [Hx| ->]%elem_of_swap_in; [|done].
    apply Hlt. eapply elem_of_sublist; [done|apply sublist_without].
Qed.

Lemma attrs_swap_in X b x y :
  NoDup X → X !! b = Some x →
  attrs (swap_in X b y) = attrs X ∖ {[x]} ∪ {[y]}.
Proof.
  intros Hnd Hb. apply set_eq. intros z.
  rewrite elem_of_union, elem_of_difference, !elem_of_singleton,
    !elem_of_attrs, elem_of_swap_in.
  by rewrite (elem_of_without X b x z).
Qed.

Lemma genS_mono S S' : S' ⊆ S → genS T S → genS T S'.
Proof.
  intros HS Hg V HV Hne. apply Hg; [|done].
  destruct HV as [H1 H2]. split; [by etrans|].
  intros H3. apply H2. by etrans.
Qed.

Lemma genS_empty : genS T ∅.
Proof.
  intros V [H1 H2] Hne _. apply Hne. apply set_eq. intros x. split.
  - apply H1.
  - by intros ?%elem_of_empty.
Qed.

Lemma genS_singleton a : genS T {[a]}.
Proof.
  intros V [H1 H2] Hne _. apply set_choose_L in Hne as [x Hx].
  apply H2. intros z ->%elem_of_singleton.
  by rewrite <-(proj1 (elem_of_singleton x a) (H1 x Hx)).
Qed.

Lemma removedS_mono Z Z' y : Z ⊆ Z' → removedS T Z y → removedS T Z' y.
Proof.
  intros HZ (U & HU & ?). exists U. split; [by etrans|done].
Qed.

Lemma removedS_member Z y : removedS T Z y → y ∈ Z.
Proof. intros (U & HU & _ & Hy & _). by apply HU. Qed.

(** A superkey stays one when an attribute it determines is dropped. *)
Lemma superkey_drop V y :
  determines T V y → superkey T (V ∪ {[y]}) → superkey T V.
Proof.
  intros Hd Hs t u Htu. apply Hs. apply agree_on_union. split; [done|].
  apply agree_on_singleton. by apply Hd.
Qed.

Lemma genS_fd V y :
  determines T V y → ¬ superkey T V → genS T (V ∪ {[y]}).
Proof.
  intros Hd Hn V' [HV' _] _ Hs. apply Hn, (superkey_drop V y); [done|].
  by apply (superkey_mono T V').
Qed.

Lemma min_fd_genS W y : min_fd T W y → genS T W.
Proof.
  intros (_ & _ & _ & Hmin) V HV Hne Hs.
  apply (Hmin V HV Hne). by apply superkey_determines.
Qed.

Lemma proper_subset_nonempty (V W : gset nat) : V ⊂ W → W ≠ ∅.
Proof.
  intros HV ->. destruct (subset_witness _ _ HV) as (x & Hx & _).
  by apply elem_of_empty in Hx.
Qed.

Lemma prune_nodes_binds (l : nat) xs clean st clean' st' :
  store_ok st →
  (∀ X, X ∈ xs → length X = l ∧ X ≠ [] ∧ is_Some (Cplus st !! X) ∧
                 is_ok (is_superkey (pmgr st) X)) →
  foldM prune_at clean xs st = Ok (clean', st') →
  ∀ X y b, X ∈ xs → is_superkey (pmgr st) X = Ok true →
           y ∈ cval st X → y ∉ X → b < length X →
           is_Some (Cplus st' !! swap_in X b y).
Proof.
  revert clean st. induction xs as [|X xs IH];
    intros clean st Hok Hxs E X' y b HX' Hsk' Hy HyX Hb.
  - by apply elem_of_nil in HX'.
  - destruct (Hxs X) as (Hl & HX & HC & Hsk); [set_solver|].
    destruct (prune_at_spec clean X st Hok HX HC Hsk)
      as (clean1 & st1 & new1 & E1 & Hok1 & Hex1 & _ & _ & _ & Hb1 & _).
    simpl in E. unfold bind in E. rewrite E1 in E.
    assert (pmgr st1 = pmgr st) as Hpm by apply Hex1.
    assert (∀ X', X' ∈ xs →
              length X' = l ∧ X' ≠ [] ∧ is_Some (Cplus st1 !! X') ∧
              is_ok (is_superkey (pmgr st1) X')) as Hxs1.
    { intros X1 HX1. destruct (Hxs X1) as (? & ? & [r Hr] & ?); [set_solver|].
      split_and!; [done..| |by rewrite Hpm].
      exists r. by eapply extends_lookup. }
    destruct (prune_nodes_spec l xs clean1 st1 Hok1 Hxs1)
      as (c2 & st2 & E2 & (Hok2 & Hex2 & _) & _).
    assert (st' = st2) as -> by congruence.
    apply elem_of_cons in HX' as [->|HX'].
    + destruct (Hb1 y b Hsk' Hy HyX Hb) as [r Hr].
      exists r. by eapply extends_lookup.
    + eapply IH; [exact Hok1|exact Hxs1|exact E|done|by rewrite Hpm| |done..].
      rewrite (extends_cval st st1); [done..|].
      destruct (Hxs X') as (? & ? & ? & ?); [set_solver|done].
Qed.

Lemma prune_binds (l : nat) (L : gset (list nat)) st L' st' :
  store_ok st →
  (∀ X, X ∈ L → length X = l ∧ X ≠ [] ∧ is_Some (Cplus st !! X) ∧
                is_ok (is_superkey (pmgr st) X)) →
  prune L st = Ok (L', st') →
  ∀ X y b, X ∈ L → is_superkey (pmgr st) X = Ok true →
           y ∈ cval st X → y ∉ X → b < length X →
           is_Some (Cplus st' !! swap_in X b y).
Proof.
  intros Hok HL E X y b HX.
  assert (∀ X, X ∈ elements L →
            length X = l ∧ X ≠ [] ∧ is_Some (Cplus st !! X) ∧
            is_ok (is_superkey (pmgr st) X)) as Hxs.
  { intros X' HX'. apply HL. by apply elem_of_elements. }
  destruct (prune_nodes_spec l (elements L) ∅ st Hok Hxs)
    as (clean & st1 & E1 & _ & Hc).
  unfold prune, bind in E. rewrite E1 in E.
  rewrite remove_tuples_spec in E; [|apply NoDup_elements|].
  2:{ intros X' HX'. apply elem_of_elements, Hc in HX' as [?|[? _]]; set_solver. }
  assert (st' = st1) as -> by congruence.
  eapply prune_nodes_binds; [done..|by apply elem_of_elements].
Qed.

(** The states of one turn: [st1] after [compute_dependencies], [st2]
    after [prune], which leaves [Lp] of the level. *)
Lemma run_body_steps L l st Lcur m L' l' st' :
  level_ok T L l st Lcur m →
  run_body T (L, l) st = Ok ((L', l'), st') →
  ∃ st1 st2 Lp next m',
    l' = S l ∧ st' = next_state l st st2 m' ∧
    cd_post T st (elements Lcur) st1 ∧
    prune_post (pmgr st) st1 (elements Lcur) l st2 ∧
    (∀ X, X ∈ Lp ↔
          X ∈ Lcur ∧ cval st1 X ≠ ∅ ∧ is_superkey (pmgr st) X = Ok false) ∧
    gen_post Lp l m m' next ∧
    level_ok T L' (S l) st' next m' ∧
    (∀ X y b, X ∈ Lcur → is_superkey (pmgr st) X = Ok true →
              y ∈ cval st1 X → y ∉ X → b < length X →
              is_Some (Cplus st2 !! swap_in X b y)).
Proof.
  intros Hok Hbody.
  pose proof Hok as [Hpos Hlen Hcur Hlev Hdom Hm Hst Hkeys Htup Hpart Hbelow Hprev].
  destruct (run_body_spec T _ _ _ _ _ Hok)
    as (L2 & st'2 & next2 & m'2 & E & _ & Hok').
  rewrite E in Hbody. injection Hbody as <- <- <-.
  destruct (compute_dependencies_spec T Lcur st Hst) as (st1 & E1 & Hcd).
  { intros X HX. by eapply level_ok_cd_ready. }
  pose proof Hcd as (Hst1 & Hex1 & Hother1 & HL1 & _).
  assert (pmgr st1 = pmgr st) as Hpm1 by apply Hex1.
  assert (∀ X, X ∈ Lcur →
            length X = l ∧ X ≠ [] ∧ is_Some (Cplus st1 !! X) ∧
            is_ok (is_superkey (pmgr st1) X)) as Hready.
  { intros X HX. destruct (Htup X HX) as (_ & HlenX & _).
    split_and!; [done| | |].
    - intros ->. simpl in HlenX. lia.
    - apply HL1. set_solver.
    - rewrite Hpm1. unfold is_superkey, cache_get. rewrite HlenX, Hm.
      apply Hpart in HX as [d ->]. by eexists. }
  destruct (prune_spec l Lcur st1 Hst1 Hready) as (Lp & st2 & E2 & Hpr & HLp).
  pose proof (prune_binds l Lcur st1 Lp st2 Hst1 Hready E2) as Hbind.
  rewrite Hpm1 in Hpr, HLp, Hbind.
  pose proof Hpr as (Hst2 & Hex2 & Hnew2 & _).
  assert (pmgr st2 = pmgr st) as Hpm2 by (rewrite <-Hpm1; apply Hex2).
  assert (∀ X, X ∈ Lp → X ∈ Lcur) as HLpL by (intros X HX; apply HLp in HX; tauto).
  destruct (generate_next_level_spec Lp st2 l m) as (next & m' & E3 & Hgen).
  { by rewrite Hpm2. }
  { done. }
  { by rewrite Hpm2. }
  { intros X HX%HLpL. split; [by apply Htup|by apply Hpart]. }
  rewrite Hpm2 in E3.
  assert (is_Some (cache (pmgr st) !! (l - 1))) as [prev Hprev'].
  { apply elem_of_dom. rewrite Hdom. set_solver. }
  assert (run_body T (L, l) st
          = Ok ((<[l := None]> (<[l := Some Lp]> L ++ [Some next]), S l),
                next_state l st st2 m')) as E'.
  { unfold run_body. rewrite Hcur. unfold bind at 1. rewrite E1.
    unfold bind at 1. rewrite E2. unfold bind at 1. rewrite E3.
    unfold bind, memory_wipe, pm_update, purge_old_level, ret. simpl.
    rewrite decide_False by lia.
    replace (l - 0) with l by lia. replace (S l - 2) with (l - 1) by lia.
    rewrite lookup_insert_ne by lia. rewrite Hprev'.
    rewrite Nat.add_1_r. unfold next_state.
    replace (S l - 1) with l by lia. reflexivity. }
  rewrite E in E'. injection E' as -> ->.
  assert (m'2 = m') as ->.
  { pose proof (lo_cache _ _ _ _ _ _ Hok') as Hm'. simpl in Hm'.
    rewrite lookup_delete_ne in Hm' by lia.
    rewrite lookup_insert_eq in Hm'. congruence. }
  assert (next2 = next) as ->.
  { apply set_eq. intros X. rewrite (lo_part _ _ _ _ _ _ Hok' X).
    destruct Hgen as (_ & Hd & _). apply Hd. }
  exists st1, st2, Lp, next, m'. by split_and!.
Qed.

Lemma level_superkey L l st Lcur m X :
  level_ok T L l st Lcur m → cache_ok T (pmgr st) → X ∈ Lcur →
  ∃ b, is_superkey (pmgr st) X = Ok b ∧ (b = true ↔ superkey T (attrs X)).
Proof.
  intros Hok Hc HX.
  destruct (lo_tuple _ _ _ _ _ _ Hok X HX) as (_ & Hlen & _).
  pose proof (lo_cache _ _ _ _ _ _ Hok) as Hm.
  destruct (proj1 (lo_part _ _ _ _ _ _ Hok X) HX) as [d Hd].
  assert (cache_get (pmgr st) X = Ok d) as Hget.
  { unfold cache_get. by rewrite Hlen, Hm, Hd. }
  assert (partition_of T (attrs X) d) as Hp by (by eapply Hc).
  destruct (is_superkey_meaning T _ _ _ Hget Hp) as [E Hiff].
  eexists. split; [exact E|]. rewrite <-Hiff. apply bool_decide_eq_true.
Qed.

Lemma level_fd L l st Lcur m X a y :
  valid_table T → level_ok T L l st Lcur m → cache_ok T (pmgr st) →
  X ∈ Lcur → X !! a = Some y →
  fd_holds T (pmgr st) X y ↔
  without X a ≠ [] ∧ determines T (attrs (without X a)) y.
Proof.
  intros HT Hok Hc HX Ha.
  destruct (lo_tuple _ _ _ _ _ _ Hok X HX) as (Hs & Hlen & Hlt).
  assert (a < length X) as Hal by (by eapply lookup_lt_Some).
  unfold fd_holds. rewrite (lhs_of_lookup X a y); [|by apply ssorted_NoDup|done].
  destruct (decide (without X a = [])) as [E|Hne].
  { rewrite E. simpl. split; [done|]. by intros [? _]. }
  assert (2 ≤ l) as Hl2.
  { destruct (without X a) eqn:E; [done|].
    apply (f_equal length) in E. rewrite length_without in E by done.
    simpl in E. lia. }
  destruct (lo_prev _ _ _ _ _ _ Hok Hl2) as (mp & Hmp & Hsub).
  destruct (Hsub X a HX Hal) as [d Hd].
  assert (cache_get (pmgr st) (without X a) = Ok d) as Hget.
  { unfold cache_get. rewrite length_without by done. by rewrite Hlen, Hmp, Hd. }
  assert (partition_of T (attrs (without X a)) d) as Hp by (by eapply Hc).
  destruct (lookup_lt_is_Some_2 T y) as [dy Hdy].
  { apply Hlt. by eapply list_elem_of_lookup_2. }
  destruct (check_fd_meaning T _ _ y d dy HT Hne Hget Hp Hdy) as [E Hiff].
  rewrite E, <-Hiff. destruct (PPattern.leq d dy); simpl; naive_solver.
Qed.

Lemma attrs_without_subseteq X a : attrs (without X a) ⊆ attrs X.
Proof.
  intros x. rewrite !elem_of_attrs. intros Hx.
  eapply elem_of_sublist; [done|apply sublist_without].
Qed.

Lemma removedS_split X y :
  NoDup X →
  removedS T (attrs X) y ↔
  (∃ a, a < length X ∧ removedS T (attrs (without X a)) y) ∨
  (genS T (attrs X) ∧ y ∈ attrs X ∧ attrs X ∖ {[y]} ≠ ∅ ∧
   determines T (attrs X ∖ {[y]}) y).
Proof.
  intros Hnd. split.
  - intros (U & HU & Hg & Hy & Hne & Hd).
    destruct (decide (U = attrs X)) as [->|Hneq]; [by right|]. left.
    assert (U ⊂ attrs X) as Hstrict.
    { split; [done|]. intros H. apply Hneq. apply set_eq. intros x.
      split; [apply HU|apply H]. }
    destruct (subset_without X U Hnd Hstrict) as (a & x & Ha & _ & Hsub).
    exists a. split; [by eapply lookup_lt_Some|]. by exists U.
  - intros [(a & _ & Hr)|(Hg & Hy & Hne & Hd)].
    + eapply removedS_mono; [apply attrs_without_subseteq|done].
    + by exists (attrs X).
Qed.

(** The value at a node from the values just below: [top] says that the
    node itself removes [y]. *)
Lemma closed_form_node st X (top : nat → Prop) y :
  NoDup X → X ≠ [] →
  (∀ a, a < length X → closed_form T st (without X a)) →
  (top y ↔ genS T (attrs X) ∧ y ∈ attrs X ∧ attrs X ∖ {[y]} ≠ ∅ ∧
           determines T (attrs X ∖ {[y]}) y) →
  meet_below st X y ∧ ¬ top y ↔ y < length T ∧ ¬ removedS T (attrs X) y.
Proof.
  intros Hnd Hne Hsub Htop. rewrite (removedS_split X y Hnd), Htop.
  assert (0 < length X) as Hlen by (destruct X; [done|simpl; lia]).
  split.
  - intros [Hm Hn]. split; [by apply (Hsub 0 Hlen y), Hm|].
    intros [(a & Ha & Hr)|Hr]; [|done].
    by apply (Hsub a Ha y) in Hr; [|apply Hm].
  - intros [Hy Hn]. split.
    + intros a Ha. apply (Hsub a Ha y). split; [done|].
      intros Hr. apply Hn. left. eauto.
    + intros Hr. apply Hn. by right.
Qed.

Lemma keys_cd L l st Lcur m st1 :
  valid_table T → level_ok T L l st Lcur m → sem_ok T l st Lcur →
  cd_post T st (elements Lcur) st1 →
  ∀ Z, is_Some (Cplus st1 !! Z) → tuple_ok T Z ∧ closed_form T st1 Z.
Proof.
  intros HT Hok Hsem (Hst1 & Hex1 & Hother & HL1 & _) Z HZ.
  pose proof (se_cache _ _ _ _ Hsem) as Hc.
  destruct (decide (Z ∈ Lcur)) as [Hin|Hnin].
  - destruct (proj1 (se_level _ _ _ _ Hsem Z) Hin) as (Htup & Hlen & Hg).
    split; [done|]. intros y.
    destruct (HL1 Z) as [_ Hval]; [by apply elem_of_elements|].
    rewrite Hval.
    assert (NoDup Z) as Hnd by (by apply ssorted_NoDup, Htup).
    apply (closed_form_node st Z (λ y, y ∈ Z ∧ fd_holds T (pmgr st) Z y)).
    + done.
    + intros ->. pose proof (lo_pos _ _ _ _ _ _ Hok). simpl in Hlen. lia.
    + intros a Ha. apply (se_keys _ _ _ _ Hsem).
      by apply (lo_below _ _ _ _ _ _ Hok).
    + split.
      * intros [Hy Hfd]. apply list_elem_of_lookup in Hy as [a Ha].
        apply (level_fd L l st Lcur m Z a y) in Hfd as [Hne Hd]; [|done..].
        rewrite <-(attrs_without Z a y) by done.
        split_and!; [done| |by apply attrs_nonempty|done].
        apply elem_of_attrs. by eapply list_elem_of_lookup_2.
      * intros (_ & Hy & Hne & Hd). apply elem_of_attrs in Hy.
        split; [done|]. apply list_elem_of_lookup in Hy as [a Ha].
        apply (level_fd L l st Lcur m Z a y); [done..|].
        rewrite (attrs_without Z a y) by done. split; [|done].
        intros E. apply Hne. by rewrite <-(attrs_without Z a y), E.
  - rewrite Hother in HZ by (by rewrite elem_of_elements).
    destruct (se_keys _ _ _ _ Hsem Z HZ) as [Htup Hcf]. split; [done|].
    intros y. rewrite (extends_cval st st1); [apply Hcf|apply Hok|done..].
Qed.

Lemma keys_prune L l st Lcur m st1 st2 :
  level_ok T L l st Lcur m → sem_ok T l st Lcur →
  store_ok st1 → extends st st1 →
  (∀ X, X ∈ Lcur → is_Some (Cplus st1 !! X)) →
  (∀ Z, is_Some (Cplus st1 !! Z) → tuple_ok T Z ∧ closed_form T st1 Z) →
  prune_post (pmgr st) st1 (elements Lcur) l st2 →
  ∀ Z, is_Some (Cplus st2 !! Z) → tuple_ok T Z ∧ closed_form T st2 Z.
Proof.
  intros Hok Hsem Hst1 Hex1 HL1 Hk1 (Hst2 & Hex2 & Hnew & _).
  assert (∀ k Z, length Z = k → is_Some (Cplus st2 !! Z) →
                 tuple_ok T Z ∧ closed_form T st2 Z) as H; [|by eauto].
  induction k as [k IH] using lt_wf_ind. intros Z Hk HZ.
  destruct (Cplus st1 !! Z) as [r|] eqn:E.
  - destruct (Hk1 Z) as [Htup Hcf]; [by eauto|]. split; [done|].
    intros y. rewrite (extends_cval st1 st2); [apply Hcf|done..|by eauto].
  - destruct (Hnew Z E HZ)
      as [(Hne & Hsub & Hval) (X & y0 & b & HX & Hsk & Hy0 & Hy0X & Hb & Hsl)].
    apply elem_of_elements in HX.
    destruct (proj1 (se_level _ _ _ _ Hsem X) HX) as (HtX & HlX & HgX).
    assert (y0 < length T) as Hy0n.
    { destruct (Hk1 X (HL1 X HX)) as [_ Hcf]. by apply Hcf in Hy0 as [? _]. }
    assert (tuple_ok T Z) as Htup.
    { eapply tuple_ok_sublist; [done|]. by apply tuple_ok_swap_in. }
    assert (length Z ≤ l) as Hle.
    { apply sublist_length in Hsl. rewrite length_swap_in in Hsl by done. lia. }
    assert (0 < length Z) as Hpos by (destruct Z; [done|simpl; lia]).
    split; [done|]. intros y. rewrite Hval.
    rewrite <-(closed_form_node st2 Z (λ _, False) y).
    + unfold meet_below. tauto.
    + by apply ssorted_NoDup, Htup.
    + done.
    + intros a Ha. apply (IH (length (without Z a))); [|done|by apply Hsub].
      rewrite length_without by done. lia.
    + split; [done|]. intros (Hg & _).
      assert (is_Some (Cplus st1 !! Z)) as [r Hr]; [|congruence].
      destruct (decide (length Z < l)) as [Hlt|Hge].
      * destruct (se_bound _ _ _ _ Hsem Z Htup Hlt Hg) as [r Hr].
        exists r. by eapply extends_lookup.
      * apply HL1, (se_level _ _ _ _ Hsem). split_and!; [done|lia|done].
Qed.

Lemma subset_by (V S : gset nat) x : V ⊆ S → x ∈ S → x ∉ V → V ⊂ S.
Proof. intros HV Hx HxV. split; [done|]. intros H. by apply HxV, H. Qed.

Lemma union_difference_singleton (V : gset nat) y :
  y ∉ V → (V ∪ {[y]}) ∖ {[y]} = V.
Proof.
  intros Hy. apply set_eq. intros z.
  rewrite elem_of_difference, elem_of_union, elem_of_singleton. split.
  - by intros [[?|?] ?].
  - intros Hz. split; [by left|]. by intros ->.
Qed.

Lemma level_next L l st Lcur m st1 Lp m' next :
  level_ok T L l st Lcur m → sem_ok T l st Lcur →
  (∀ X, X ∈ Lcur → is_Some (Cplus st1 !! X)) →
  (∀ Z, is_Some (Cplus st1 !! Z) → tuple_ok T Z ∧ closed_form T st1 Z) →
  (∀ X, X ∈ Lp ↔
        X ∈ Lcur ∧ cval st1 X ≠ ∅ ∧ is_superkey (pmgr st) X = Ok false) →
  gen_post Lp l m m' next →
  ∀ X, X ∈ next ↔ tuple_ok T X ∧ length X = S l ∧ genS T (attrs X).
Proof.
  intros Hok Hsem HL1 Hk1 HLp (Hn & _ & _) X.
  pose proof (lo_pos _ _ _ _ _ _ Hok) as Hpos.
  pose proof (se_cache _ _ _ _ Hsem) as Hc.
  rewrite Hn, (next_level_sorted Lp l X); [|done|].
  2:{ intros Y HY. apply HLp in HY as [HY _].
      destruct (lo_tuple _ _ _ _ _ _ Hok Y HY) as (? & ? & _). done. }
  split.
  - intros (HsX & HlX & Had).
    assert (NoDup X) as Hnd by (by apply ssorted_NoDup).
    split_and!; [split; [done|]|done|].
    + intros x Hx. apply list_elem_of_lookup in Hx as [a Ha].
      assert (∃ a', a' < length X ∧ a' ≠ a) as (a' & Ha' & Hne).
      { destruct a; [exists 1|exists 0]; split; lia. }
      destruct (lookup_lt_is_Some_2 X a' Ha') as [x' Hx'].
      assert (without X a' ∈ Lcur) as Hin by (by apply HLp, Had).
      destruct (lo_tuple _ _ _ _ _ _ Hok _ Hin) as (_ & _ & Hlt).
      apply Hlt, (elem_of_without X a' x'); [done..|].
      split; [by eapply list_elem_of_lookup_2|].
      intros ->. apply Hne. by eapply NoDup_lookup.
    + intros V HV Hne Hs.
      destruct (subset_without X V Hnd HV) as (a & x & Ha & _ & Hsub).
      assert (a < length X) as Hal by (by eapply lookup_lt_Some).
      destruct (proj1 (HLp _) (Had a Hal)) as (Hin & _ & Hsk).
      destruct (level_superkey _ _ _ _ _ _ Hok Hc Hin) as (b & Eb & Hb).
      assert (b = false) as -> by congruence.
      assert (false = true); [|done]. apply Hb.
      by apply (superkey_mono T V).
  - intros (Htup & HlX & Hg). split_and!; [apply Htup|done|].
    assert (NoDup X) as Hnd by (by apply ssorted_NoDup, Htup).
    intros a Ha. apply HLp.
    destruct (lookup_lt_is_Some_2 X a Ha) as [x Hx].
    assert (x ∈ attrs X) as HxX.
    { apply elem_of_attrs. by eapply list_elem_of_lookup_2. }
    assert (x ∉ attrs (without X a)) as HxW.
    { rewrite (attrs_without X a x) by done.
      rewrite elem_of_difference, elem_of_singleton. by intros [_ ?]. }
    assert (length (without X a) = l) as HlW.
    { rewrite length_without by done. lia. }
    assert (without X a ∈ Lcur) as Hin.
    { apply (se_level _ _ _ _ Hsem). split_and!.
      - by apply tuple_ok_without.
      - done.
      - eapply genS_mono; [apply attrs_without_subseteq|done]. }
    split_and!.
    + done.
    + destruct (Hk1 _ (HL1 _ Hin)) as [_ Hcf].
      assert (x ∈ cval st1 (without X a)) as Hxc.
      { apply Hcf. split.
        - apply Htup. by eapply list_elem_of_lookup_2.
        - by intros ?%removedS_member. }
      intros He. rewrite He in Hxc. by apply elem_of_empty in Hxc.
    + destruct (level_superkey _ _ _ _ _ _ Hok Hc Hin) as (b & Eb & Hb).
      destruct b; [exfalso|done].
      apply (Hg (attrs (without X a))).
      * by apply (subset_by _ _ x); [apply attrs_without_subseteq|..].
      * apply attrs_nonempty. intros E. rewrite E in HlW. simpl in HlW. lia.
      * by apply Hb.
Qed.

Lemma rules_cd L l st Lcur m W y :
  valid_table T → level_ok T L l st Lcur m → sem_ok T l st Lcur →
  (∃ X, X ∈ elements Lcur ∧ y ∈ X ∧ W = lhs_of X y ∧ meet_below st X y ∧
        fd_holds T (pmgr st) X y)
  ↔ tuple_ok T W ∧ y < length T ∧ min_fd T (attrs W) y ∧
    ¬ superkey T (attrs W) ∧ S (length W) = l.
Proof.
  intros HT Hok Hsem.
  pose proof (lo_pos _ _ _ _ _ _ Hok) as Hpos.
  pose proof (se_cache _ _ _ _ Hsem) as Hc.
  split.
  - intros (X & HX & Hy & -> & Hmeet & Hfd). apply elem_of_elements in HX.
    destruct (proj1 (se_level _ _ _ _ Hsem X) HX) as (HtX & HlX & HgX).
    assert (NoDup X) as Hnd by (by apply ssorted_NoDup, HtX).
    pose proof Hy as HyX. apply list_elem_of_lookup in Hy as [a Ha].
    assert (a < length X) as Hal by (by eapply lookup_lt_Some).
    rewrite (lhs_of_lookup X a y) by done.
    apply (level_fd L l st Lcur m X a y) in Hfd as [Hne Hd]; [|done..].
    pose proof (attrs_without X a y Hnd Ha) as HW.
    assert (y ∉ attrs (without X a)) as HyW.
    { rewrite HW, elem_of_difference, elem_of_singleton. by intros [_ ?]. }
    assert (attrs (without X a) ⊂ attrs X) as Hstrict.
    { apply (subset_by _ _ y); [apply attrs_without_subseteq| |done].
      by apply elem_of_attrs. }
    split_and!.
    + by apply tuple_ok_without.
    + by apply HtX.
    + split_and!; [by apply attrs_nonempty|done..|].
      intros V HV HVne HdV.
      destruct (subset_witness _ _ HV) as (x & Hx & HxV).
      assert (x ∈ X ∧ x ≠ y) as [HxX Hxy].
      { rewrite HW, elem_of_difference, elem_of_singleton, elem_of_attrs in Hx.
        done. }
      apply list_elem_of_lookup in HxX as [a' Ha'].
      assert (a' < length X) as Hal' by (by eapply lookup_lt_Some).
      destruct (se_keys _ _ _ _ Hsem (without X a')) as [_ Hcf].
      { by apply (lo_below _ _ _ _ _ _ Hok). }
      destruct (proj1 (Hcf y) (Hmeet a' Hal')) as [_ Hnr]. apply Hnr.
      assert (y ∉ V) as HyV by (intros ?; by apply HyW, HV).
      exists (V ∪ {[y]}). split_and!.
      * rewrite (attrs_without X a' x) by done. intros z Hz.
        rewrite elem_of_difference, elem_of_singleton.
        apply elem_of_union in Hz as [Hz| ->%elem_of_singleton].
        -- split; [by apply Hstrict, HV|]. by intros ->.
        -- split; [by apply elem_of_attrs|done].
      * eapply genS_mono; [|exact HgX]. intros z Hz.
        apply elem_of_union in Hz as [Hz| ->%elem_of_singleton].
        -- by apply Hstrict, HV.
        -- by apply elem_of_attrs.
      * apply elem_of_union. right. by apply elem_of_singleton.
      * by rewrite union_difference_singleton.
      * by rewrite union_difference_singleton.
    + by apply HgX; [|apply attrs_nonempty].
    + rewrite length_without by done. lia.
  - intros (HtW & Hyn & (HWne & HyW & Hd & Hmin) & Hnsk & Hlen).
    set (X := tuple_of (attrs W ∪ {[y]})).
    assert (attrs X = attrs W ∪ {[y]}) as HaX by apply attrs_tuple_of.
    assert (tuple_ok T X) as HtX.
    { apply tuple_ok_tuple_of. intros x [Hx| ->%elem_of_singleton]%elem_of_union.
      - by apply HtW, elem_of_attrs.
      - done. }
    assert (NoDup W) as HndW by (by apply ssorted_NoDup, HtW).
    assert (NoDup X) as Hnd by (by apply ssorted_NoDup, HtX).
    assert (length X = l) as HlX.
    { unfold X. rewrite length_tuple_of, size_union.
      - rewrite size_singleton, size_attrs by done. lia.
      - intros z Hz ->%elem_of_singleton. done. }
    assert (X ∈ Lcur) as HX.
    { apply (se_level _ _ _ _ Hsem). split_and!; [done..|].
      rewrite HaX. by apply genS_fd. }
    assert (y ∈ X) as HyX.
    { apply elem_of_attrs. rewrite HaX, elem_of_union, elem_of_singleton. auto. }
    pose proof HyX as Hy'. apply list_elem_of_lookup in Hy' as [a Ha].
    assert (without X a = W) as HWa.
    { apply ssorted_ext; [by apply ssorted_without, HtX|apply HtW|].
      intros x. rewrite (elem_of_without X a y x) by done.
      rewrite <-!elem_of_attrs, HaX, elem_of_union, elem_of_singleton. split.
      - by intros [[?|?] ?].
      - intros Hx. split; [by left|]. by intros ->. }
    exists X. split_and!.
    + by apply elem_of_elements.
    + done.
    + by rewrite (lhs_of_lookup X a y).
    + intros a' Ha'. destruct (lookup_lt_is_Some_2 X a' Ha') as [x' Hx'].
      destruct (se_keys _ _ _ _ Hsem (without X a')) as [_ Hcf].
      { by apply (lo_below _ _ _ _ _ _ Hok). }
      apply Hcf. split; [done|].
      intros (U & HU & _ & HyU & HUne & HdU).
      rewrite (attrs_without X a' x'), HaX in HU by done.
      assert (x' ≠ y) as Hxy.
      { intros ->. apply HU in HyU.
        rewrite elem_of_difference, elem_of_singleton in HyU. by destruct HyU. }
      assert (x' ∈ attrs W) as HxW.
      { assert (x' ∈ attrs X) as Hin
          by (apply elem_of_attrs; by eapply list_elem_of_lookup_2).
        rewrite HaX, elem_of_union, elem_of_singleton in Hin.
        by destruct Hin. }
      apply (Hmin (U ∖ {[y]})); [|done..].
      apply (subset_by _ _ x'); [|done|].
      * intros z [Hz Hzy]%elem_of_difference. apply HU in Hz.
        rewrite elem_of_difference, elem_of_union in Hz.
        by destruct Hz as [[?|?] _].
      * intros [Hz _]%elem_of_difference. apply HU in Hz.
        rewrite elem_of_difference, elem_of_singleton in Hz. by destruct Hz.
    + apply (level_fd L l st Lcur m X a y); [done..|]. rewrite HWa.
      split; [|done]. intros ->. by apply HWne.
Qed.

Lemma cval_elem_bound st Z y : y ∈ cval st Z → is_Some (Cplus st !! Z).
Proof.
  unfold cval. destruct (Cplus st !! Z); [by eauto|].
  by intros ?%elem_of_empty.
Qed.

Lemma rules_prune L l st Lcur m st1 st2 W y :
  level_ok T L l st Lcur m → sem_ok T l st Lcur →
  (∀ X, X ∈ Lcur → is_Some (Cplus st1 !! X)) →
  (∀ Z, is_Some (Cplus st1 !! Z) → tuple_ok T Z ∧ closed_form T st1 Z) →
  (∀ Z, is_Some (Cplus st2 !! Z) → tuple_ok T Z ∧ closed_form T st2 Z) →
  (∀ X y b, X ∈ Lcur → is_superkey (pmgr st) X = Ok true →
            y ∈ cval st1 X → y ∉ X → b < length X →
            is_Some (Cplus st2 !! swap_in X b y)) →
  (W ∈ elements Lcur ∧ is_superkey (pmgr st) W = Ok true ∧
   y ∈ cval st1 W ∧ y ∉ W ∧ swap_test st2 W y)
  ↔ tuple_ok T W ∧ y < length T ∧ min_fd T (attrs W) y ∧
    superkey T (attrs W) ∧ length W = l.
Proof.
  intros Hok Hsem HL1 Hk1 Hk2 Hbind.
  pose proof (lo_pos _ _ _ _ _ _ Hok) as Hpos.
  pose proof (se_cache _ _ _ _ Hsem) as Hc.
  split.
  - intros (HW & Hsk & Hy & HyW & Hswap). apply elem_of_elements in HW.
    destruct (proj1 (se_level _ _ _ _ Hsem W) HW) as (HtW & HlW & HgW).
    assert (NoDup W) as Hnd by (by apply ssorted_NoDup, HtW).
    destruct (level_superkey _ _ _ _ _ _ Hok Hc HW) as (b & Eb & Hb).
    assert (b = true) as -> by congruence.
    assert (superkey T (attrs W)) as HskW by (by apply Hb).
    destruct (Hk1 W (HL1 W HW)) as [_ Hcf1].
    destruct (proj1 (Hcf1 y) Hy) as [Hyn _].
    assert (W ≠ []) as HWne by (intros ->; simpl in HlW; lia).
    split_and!; [done..| |done|done].
    split_and!.
    + by apply attrs_nonempty.
    + by rewrite elem_of_attrs.
    + by apply superkey_determines.
    + intros V HV HVne HdV.
      destruct (subset_without W V Hnd HV) as (b0 & x & Hb0 & HxV & Hsub).
      assert (b0 < length W) as Hbl by (by eapply lookup_lt_Some).
      pose proof (Hswap b0 Hbl) as Hin.
      destruct (Hk2 _ (cval_elem_bound _ _ _ Hin)) as [_ Hcf2].
      destruct (proj1 (Hcf2 y) Hin) as [_ Hnr]. apply Hnr.
      assert (y ∉ V) as HyV.
      { intros HyV. apply HyW, elem_of_attrs. by apply HV. }
      exists (V ∪ {[y]}). split_and!.
      * rewrite (attrs_swap_in W b0 x y) by done.
        rewrite (attrs_without W b0 x) in Hsub by done.
        intros z [Hz|Hz]%elem_of_union; apply elem_of_union; [left|right]; auto.
      * apply genS_fd; [done|]. by apply HgW.
      * apply elem_of_union. right. by apply elem_of_singleton.
      * by rewrite union_difference_singleton.
      * by rewrite union_difference_singleton.
  - intros (HtW & Hyn & Hmin & Hsk & HlW).
    pose proof (min_fd_genS _ _ Hmin) as HgW.
    destruct Hmin as (HWne & HyW & Hd & Hmin).
    assert (NoDup W) as Hnd by (by apply ssorted_NoDup, HtW).
    assert (W ∈ Lcur) as HW by (by apply (se_level _ _ _ _ Hsem)).
    destruct (level_superkey _ _ _ _ _ _ Hok Hc HW) as (b & Eb & Hb).
    assert (b = true) as -> by (by apply Hb).
    destruct (Hk1 W (HL1 W HW)) as [_ Hcf1].
    assert (y ∈ cval st1 W) as Hy.
    { apply Hcf1. split; [done|]. by intros ?%removedS_member. }
    assert (y ∉ W) as HyW' by (by rewrite <-elem_of_attrs).
    split_and!; [by apply elem_of_elements|done..|].
    intros b0 Hb0. destruct (lookup_lt_is_Some_2 W b0 Hb0) as [x Hx].
    destruct (Hk2 (swap_in W b0 y)) as [_ Hcf2]; [by apply Hbind|].
    apply Hcf2. split; [done|].
    intros (U & HU & _ & HyU & HUne & HdU).
    rewrite (attrs_swap_in W b0 x y) in HU by done.
    assert (x ∈ attrs W) as HxW.
    { apply elem_of_attrs. by eapply list_elem_of_lookup_2. }
    apply (Hmin (U ∖ {[y]})); [|done..].
    apply (subset_by _ _ x); [|done|].
    + intros z [Hz Hzy]%elem_of_difference. apply HU in Hz.
      rewrite elem_of_union, elem_of_difference in Hz.
      by destruct Hz as [[? _]|?].
    + intros [Hz _]%elem_of_difference. apply HU in Hz.
      rewrite elem_of_union, elem_of_difference, !elem_of_singleton in Hz.
      destruct Hz as [[_ ?]| ->]; done.
Qed.

Lemma found_step l W :
  found T (S l) W ↔
  found T l W ∨ (¬ superkey T (attrs W) ∧ S (length W) = l) ∨
  (superkey T (attrs W) ∧ length W = l).
Proof.
  unfold found. split.
  - intros [[Hs Hl]|[Hs Hl]].
    + destruct (decide (length W < l)); [by left; left|].
      right; right. split; [done|lia].
    + destruct (decide (S (length W) < l)); [by left; right|].
      right; left. split; [done|lia].
  - intros [[[Hs Hl]|[Hs Hl]]|[[Hs Hl]|[Hs Hl]]].
    + left. split; [done|lia].
    + right. split; [done|lia].
    + right. split; [done|lia].
    + left. split; [done|lia].
Qed.

Lemma sem_ok_start :
  valid_table T →
  sem_ok T 1 (tane_init T) (list_to_set ((λ i, [i]) <$> R T)).
Proof.
  intros HT. split.
  - by apply cache_ok_init.
  - intros X. rewrite elem_of_list_to_set, list_elem_of_fmap. split.
    + intros (i & -> & Hi). unfold R in Hi. apply elem_of_seq in Hi.
      split_and!.
      * split; [repeat constructor|].
        intros x ->%list_elem_of_singleton. lia.
      * done.
      * rewrite attrs_singleton. apply genS_singleton.
    + intros ((_ & Hlt) & Hlen & _).
      destruct X as [|i [|??]]; simpl in Hlen; try lia.
      exists i. split; [done|]. apply elem_of_seq.
      assert (i < length T) by (apply Hlt; left). lia.
  - intros Z [r Hr]. simpl in Hr.
    apply lookup_singleton_Some in Hr as [<- <-]. split.
    + split; [constructor|]. by intros x ?%elem_of_nil.
    + intros y. unfold cval. simpl. rewrite lookup_singleton_eq. simpl.
      rewrite elem_of_list_to_set. unfold R. rewrite elem_of_seq. split.
      * intros [_ ?]. split; [lia|]. by intros ?%removedS_member.
      * intros [? _]. lia.
  - intros Z _ Hlen _. destruct Z; [|simpl in Hlen; lia].
    simpl. by rewrite lookup_singleton_eq.
  - intros Z _ HZ Hlen. destruct Z; [done|simpl in Hlen; lia].
  - intros W y. simpl. split; [by intros ?%elem_of_nil|].
    intros (_ & _ & (Hne & _) & [[_ Hl]|[_ Hl]]); [|lia].
    destruct W; [by destruct Hne|simpl in Hl; lia].
Qed.

Lemma sem_ok_turn L l st Lcur m L' l' st' :
  valid_table T → level_ok T L l st Lcur m → sem_ok T l st Lcur →
  run_body T (L, l) st = Ok ((L', l'), st') →
  ∃ next m', l' = S l ∧ level_ok T L' (S l) st' next m' ∧
             sem_ok T (S l) st' next.
Proof.
  intros HT Hok Hsem Hbody.
  destruct (run_body_steps _ _ _ _ _ _ _ _ Hok Hbody)
    as (st1 & st2 & Lp & next & m' & -> & -> & Hcd & Hpr & HLp & Hgen & Hok' & Hbind).
  exists next, m'. split; [done|]. split; [done|].
  pose proof (se_cache _ _ _ _ Hsem) as Hc.
  pose proof (lo_store _ _ _ _ _ _ Hok) as Hst.
  pose proof Hcd as (Hst1 & Hex1 & _ & HL1' & new1 & Hr1 & Hn1).
  pose proof Hpr as (Hst2 & Hex2 & _ & new2 & Hr2 & Hn2).
  assert (∀ X, X ∈ Lcur → is_Some (Cplus st1 !! X)) as HL1.
  { intros X HX. apply HL1'. by apply elem_of_elements. }
  pose proof (keys_cd _ _ _ _ _ _ HT Hok Hsem Hcd) as Hk1.
  pose proof (keys_prune _ _ _ _ _ _ _ Hok Hsem Hst1 Hex1 HL1 Hk1 Hpr) as Hk2.
  split.
  - eapply cache_ok_turn; [exact Hok|exact Hc|].
    exists st1, st2, Lp. by split_and!.
  - by eapply level_next.
  - intros Z HZ. simpl in HZ. destruct (Hk2 Z HZ) as [Htup Hcf].
    split; [done|]. exact Hcf.
  - intros Z Htup Hlen Hg. simpl.
    destruct (decide (length Z < l)) as [Hlt|Hge].
    + destruct (se_bound _ _ _ _ Hsem Z Htup Hlt Hg) as [r Hr].
      exists r. eapply extends_lookup; [exact Hex2|].
      by eapply extends_lookup.
    + destruct (HL1 Z) as [r Hr].
      { apply (se_level _ _ _ _ Hsem). split_and!; [done|lia|done]. }
      exists r. by eapply extends_lookup.
  - intros Z Htup HZ Hlen Hg.
    destruct (decide (length Z < l)) as [Hlt|Hge].
    + by apply (se_dec _ _ _ _ Hsem).
    + assert (Z ∈ Lcur) as Hin.
      { apply (se_level _ _ _ _ Hsem). split_and!; [done|lia|done]. }
      destruct (level_superkey _ _ _ _ _ _ Hok Hc Hin) as (b & _ & Hb).
      destruct b; [left; by apply Hb|right].
      intros Hs. by apply Hb in Hs.
  - intros W y. simpl.
    rewrite Hr2, Hr1, !elem_of_app, Hn1, Hn2.
    rewrite (rules_cd L l st Lcur m W y HT Hok Hsem).
    rewrite (rules_prune L l st Lcur m st1 st2 W y Hok Hsem HL1 Hk1 Hk2 Hbind).
    rewrite (se_rules _ _ _ _ Hsem), found_step. tauto.
Qed.

Lemma loop_head_sem_ok L l st :
  valid_table T → loop_head T (L, l) st →
  ∃ Lcur m, level_ok T L l st Lcur m ∧ sem_ok T l st Lcur.
Proof.
  intros HT H. remember (L, l) as Ll eqn:E. revert L l E.
  induction H as [|[L0 l0] st0 [L1 l1] st' _ IH _ Hbody]; intros L l E.
  - injection E as <- <-. eexists _, _. split.
    + apply level_ok_start.
    + by apply sem_ok_start.
  - injection E as -> ->.
    destruct (IH L0 l0 eq_refl) as (Lcur & m & Hok & Hsem).
    destruct (sem_ok_turn _ _ _ _ _ _ _ _ HT Hok Hsem Hbody)
      as (next & m' & -> & Hok' & Hsem').
    eauto.
Qed.

(** No set of a level is as long as an empty level. *)
Lemma gen_short l st Z :
  sem_ok T l st ∅ → tuple_ok T Z → genS T (attrs Z) → length Z < l.
Proof.
  intros Hsem Htup Hg. destruct (decide (length Z < l)) as [|Hge]; [done|].
  assert (take l Z ∈ (∅ : gset (list nat))) as Hin; [|by apply elem_of_empty in Hin].
  apply (se_level _ _ _ _ Hsem). split_and!.
  - eapply tuple_ok_sublist; [apply sublist_take|done].
  - rewrite length_take. lia.
  - eapply genS_mono; [|done]. intros x. rewrite !elem_of_attrs.
    intros Hx. eapply elem_of_sublist; [done|apply sublist_take].
Qed.

Lemma rules_at_end L l st W y :
  valid_table T → loop_head T (L, l) st → level_nonempty L l = Ok false →
  (W, y) ∈ rules st ↔
  tuple_ok T W ∧ y < length T ∧ min_fd T (attrs W) y.
Proof.
  intros HT Hhead Hempty.
  destruct (loop_head_sem_ok _ _ _ HT Hhead) as (Lcur & m & Hok & Hsem).
  rewrite (level_nonempty_level_ok T _ _ _ _ _ Hok) in Hempty.
  assert (Lcur = ∅) as ->.
  { destruct (decide (Lcur = ∅)) as [|Hne]; [done|].
    by rewrite bool_decide_eq_true_2 in Hempty. }
  rewrite (se_rules _ _ _ _ Hsem). split; [tauto|].
  intros (Htup & Hyn & Hmin). split_and!; [done..|].
  pose proof (min_fd_genS _ _ Hmin) as Hg.
  pose proof (gen_short _ _ _ Hsem Htup Hg) as Hlen.
  destruct Hmin as (Hne & HyW & Hd & _).
  assert (W ≠ []) as HW by (intros ->; by apply Hne).
  destruct (se_dec _ _ _ _ Hsem W Htup HW Hlen Hg) as [Hs|Hn]; [by left|].
  right. split; [done|].
  assert (NoDup W) as Hnd by (by apply ssorted_NoDup, Htup).
  assert (length (tuple_of (attrs W ∪ {[y]})) = S (length W)) as <-.
  { rewrite length_tuple_of, size_union.
    - rewrite size_singleton, size_attrs by done. lia.
    - intros z Hz ->%elem_of_singleton. done. }
  apply (gen_short _ st).
  - done.
  - apply tuple_ok_tuple_of. intros x [Hx| ->%elem_of_singleton]%elem_of_union.
    + by apply Htup, elem_of_attrs.
    + done.
  - rewrite attrs_tuple_of. by apply genS_fd.
Qed.

Lemma run_ends fuel st :
  run T fuel = Ok st →
  ∃ L l, loop_head T (L, l) st ∧ level_nonempty L l = Ok false.
Proof.
  intros Hrun.
  destruct (run_iters_spec T fuel _ _ _ (head_start T))
    as (L' & l' & st' & Lcur' & m' & E & Hh & Hok & _).
  unfold run, run_start in Hrun. rewrite E in Hrun.
  destruct (level_nonempty L' l') as [[|]|] eqn:El; try done.
  injection Hrun as <-. eauto.
Qed.

End rules_facts.

(** X21.  What the rules are at every head of the loop.  On a table of
    stripped partitions, at the head of the loop at level [l] the rules
    recorded so far are exactly the minimal dependencies [W → y] ([W] a
    non-empty increasing tuple of columns, [y] a column outside [W], [W]
    determines [y] and no non-empty proper subset of [W] does) that the
    levels below [l] find: those whose left-hand side is a superkey of
    fewer than [l] attributes, recorded by [prune], and those whose
    left-hand side is no superkey and has fewer than [l - 1] attributes,
    recorded by [compute_dependencies]. *)
Theorem rules_at_loop_head (T : list (list (gset nat)))
    (L : list (option (gset (list nat)))) (l : nat) (st : TANE)
    (W : list nat) (y : nat) :
  valid_table T → loop_head T (L, l) st →
  (W, y) ∈ rules st ↔
  tuple_ok T W ∧ y < length T ∧ min_fd T (attrs W) y ∧ found T l W.
Proof.
  intros HT Hhead.
  destruct (loop_head_sem_ok T _ _ _ HT Hhead) as (Lcur & m & _ & Hsem).
  apply (se_rules _ _ _ _ Hsem).
Qed.

Lemma rules_at_loop_head_witness :
  valid_table T_grid ∧
  ∃ Ll' st',
    run_body T_grid (run_start T_grid) (tane_init T_grid) = Ok (Ll', st') ∧
    (([0; 1], 0) ∈ rules st' ↔
     tuple_ok T_grid [0; 1] ∧ 0 < length T_grid ∧
     min_fd T_grid (attrs [0; 1]) 0 ∧ found T_grid 2 [0; 1]).
Proof.
  assert (valid_table T_grid) as HT.
  { intros d Hd. unfold T_grid in Hd.
    repeat (apply elem_of_cons in Hd as [->|Hd]; [by vm_compute|]).
    by apply elem_of_nil in Hd. }
  split; [exact HT|].
  destruct (run_body_spec T_grid _ _ _ _ _ (level_ok_start T_grid))
    as (L' & st' & next & m' & E & _ & _).
  exists (L', 2), st'. split; [exact E|].
  apply (rules_at_loop_head T_grid L' 2 st' [0; 1] 0 HT).
  eapply head_step; [apply head_start|done|exact E].
Defined.

(** X22.  What [run] returns.  On a table of stripped partitions, when
    [run] ends its rules are exactly the minimal dependencies of the table
    with a non-empty left-hand side: [(W, y)] is recorded if and only if
    [W] is a non-empty increasing tuple of columns, [y] is a column outside
    [W], any two rows that agree on [W] agree on [y], and no non-empty
    proper subset of [W] determines [y]. *)
Theorem run_finds_minimal_dependencies (T : list (list (gset nat)))
    (fuel : nat) (st : TANE) (W : list nat) (y : nat) :
  valid_table T → run T fuel = Ok st →
  (W, y) ∈ rules st ↔ tuple_ok T W ∧ y < length T ∧ min_fd T (attrs W) y.
Proof.
  intros HT Hrun. destruct (run_ends T fuel st Hrun) as (L & l & Hhead & He).
  by apply (rules_at_end T L l).
Qed.

Lemma run_finds_minimal_dependencies_witness :
  valid_table T_keep ∧
  ∃ st, run T_keep (length T_keep + 0) = Ok st ∧
        (([2], 0) ∈ rules st ↔
         tuple_ok T_keep [2] ∧ 0 < length T_keep ∧
         min_fd T_keep (attrs [2]) 0).
Proof.
  assert (valid_table T_keep) as HT.
  { intros d Hd. unfold T_keep in Hd.
    repeat (apply elem_of_cons in Hd as [->|Hd]; [by vm_compute|]).
    by apply elem_of_nil in Hd. }
  split; [exact HT|].
  destruct (run_spec T_keep 0) as (L & l & st & E & _).
  exists st. split; [exact E|].
  exact (run_finds_minimal_dependencies T_keep _ st [2] 0 HT E).
Defined.

(** X23.  What a level holds.  On a table of stripped partitions, at every
    head of the loop the current level [L[l]] is exactly the set of
    increasing tuples of [l] columns none of whose non-empty proper
    subsets is a superkey: [prune] drops the superkeys, and
    [generate_next_level] forms the tuples all of whose immediate subsets
    were kept. *)
Theorem level_holds_candidates (T : list (list (gset nat)))
    (L : list (option (gset (list nat)))) (l : nat) (st : TANE)
    (Lcur : gset (list nat)) (X : list nat) :
  valid_table T → loop_head T (L, l) st → L !! l = Some (Some Lcur) →
  X ∈ Lcur ↔ tuple_ok T X ∧ length X = l ∧ genS T (attrs X).
Proof.
  intros HT Hhead HL.
  destruct (loop_head_sem_ok T _ _ _ HT Hhead) as (Lcur' & m & Hok & Hsem).
  assert (Lcur' = Lcur) as ->.
  { pose proof (lo_cur _ _ _ _ _ _ Hok). congruence. }
  apply (se_level _ _ _ _ Hsem).
Qed.

Lemma level_holds_candidates_witness :
  valid_table T_grid ∧
  ∃ L' st' next,
    run_body T_grid (run_start T_grid) (tane_init T_grid) = Ok ((L', 2), st') ∧
    L' !! 2 = Some (Some next) ∧
    ([0; 1] ∈ next ↔
     tuple_ok T_grid [0; 1] ∧ length [0; 1] = 2 ∧ genS T_grid (attrs [0; 1])).
Proof.
  assert (valid_table T_grid) as HT.
  { intros d Hd. unfold T_grid in Hd.
    repeat (apply elem_of_cons in Hd as [->|Hd]; [by vm_compute|]).
    by apply elem_of_nil in Hd. }
  split; [exact HT|].
  destruct (run_body_spec T_grid _ _ _ _ _ (level_ok_start T_grid))
    as (L' & st' & next & m' & E & _ & Hok).
  exists L', st', next. split; [exact E|].
  split; [exact (lo_cur _ _ _ _ _ _ Hok)|].
  apply (level_holds_candidates T_grid L' 2 st' next [0; 1] HT).
  - eapply head_step; [apply head_start|done|exact E].
  - exact (lo_cur _ _ _ _ _ _ Hok).
Defined.

(** X24.  The value of [Cplus] in closed form.  On a table of stripped
    partitions, at every head of the loop a key [Z] bound in [Cplus] is an
    increasing tuple of columns, and [Cplus[Z]] holds exactly the columns
    [y] for which no set [U] of a level, within [Z], holds [y] together
    with a non-empty rest that determines [y]; in particular every column
    outside [Z] stays in [Cplus[Z]]. *)
Theorem Cplus_closed_form (T : list (list (gset nat)))
    (Ll : list (option (gset (list nat))) * nat) (st : TANE) (Z : list nat) :
  valid_table T → loop_head T Ll st → is_Some (Cplus st !! Z) →
  tuple_ok T Z ∧
  (∀ y, y ∈ cval st Z ↔ y < length T ∧ ¬ removedS T (attrs Z) y) ∧
  (∀ y, y < length T → y ∉ Z → y ∈ cval st Z).
Proof.
  intros HT Hhead HZ. destruct Ll as [L l].
  destruct (loop_head_sem_ok T _ _ _ HT Hhead) as (Lcur & m & _ & Hsem).
  destruct (se_keys _ _ _ _ Hsem Z HZ) as [Htup Hcf].
  split_and!; [done|exact Hcf|].
  intros y Hy HyZ. apply Hcf. split; [done|].
  intros Hr%removedS_member. by apply HyZ, elem_of_attrs.
Qed.

Lemma Cplus_closed_form_witness :
  valid_table T_grid ∧
  ∃ Ll' st',
    run_body T_grid (run_start T_grid) (tane_init T_grid) = Ok (Ll', st') ∧
    is_Some (Cplus st' !! [0]) ∧
    tuple_ok T_grid [0] ∧
    (∀ y, y ∈ cval st' [0] ↔
          y < length T_grid ∧ ¬ removedS T_grid (attrs [0]) y) ∧
    (∀ y, y < length T_grid → y ∉ [0] → y ∈ cval st' [0]).
Proof.
  assert (valid_table T_grid) as HT.
  { intros d Hd. unfold T_grid in Hd.
    repeat (apply elem_of_cons in Hd as [->|Hd]; [by vm_compute|]).
    by apply elem_of_nil in Hd. }
  split; [exact HT|].
  destruct (run_body_spec T_grid _ _ _ _ _ (level_ok_start T_grid))
    as (L' & st' & next & m' & E & _ & Hok).
  assert (loop_head T_grid (L', 2) st') as Hhead.
  { eapply head_step; [apply head_start|done|exact E]. }
  assert (is_Some (Cplus st' !! [0])) as HZ.
  { destruct (loop_head_sem_ok T_grid _ _ _ HT Hhead) as (Lcur & m & _ & Hsem).
    apply (se_bound _ _ _ _ Hsem).
    - split; [repeat constructor|]. intros x ->%list_elem_of_singleton.
      simpl. lia.
    - simpl. lia.
    - rewrite attrs_singleton. apply genS_singleton. }
  exists (L', 2), st'. split; [exact E|]. split; [exact HZ|].
  exact (Cplus_closed_form T_grid (L', 2) st' [0] HT Hhead HZ).
Defined.

(** ** No rule is recorded twice *)

Section duplicate_facts.
Context (T : list (list (gset nat))).

Lemma silent_ret {A} (a : A) : silent (ret a).
Proof. by intros st a' st' [= <- <-]. Qed.

Lemma silent_raise {A} e : silent (raise (A:=A) e).
Proof. by intros st a st' ?. Qed.

Lemma silent_bind {A B} (m : M A) (k : A → M B) :
  silent m → (∀ a, silent (k a)) → silent (bind m k).
Proof.
  intros Hm Hk st b st' E. unfold bind in E.
  destruct (m st) as [[a st1]|] eqn:E1; [|done].
  etrans; [by eapply Hk|by eapply Hm].
Qed.

Lemma silent_mapM {A B} (f : A → M B) l :
  (∀ x, silent (f x)) → silent (mapM f l).
Proof.
  intros Hf. induction l as [|x l IH]; simpl; [apply silent_ret|].
  apply silent_bind; [done|]. intros y.
  apply silent_bind; [done|]. intros ys. apply silent_ret.
Qed.

Lemma silent_foldM {A B} (f : B → A → M B) b l :
  (∀ b x, silent (f b x)) → silent (foldM f b l).
Proof.
  intros Hf. revert b. induction l as [|x l IH]; intros b; simpl;
    [apply silent_ret|].
  apply silent_bind; [done|]. intros b'. apply IH.
Qed.

Lemma silent_pm_read {A} (f : PartitionsManager → res A) : silent (pm_read f).
Proof.
  intros st a st' E. unfold pm_read in E.
  destruct (f (pmgr st)); [|done]. by injection E as <- <-.
Qed.

Lemma silent_pm_update f : silent (pm_update f).
Proof.
  intros st a st' E. unfold pm_update in E.
  destruct (f (pmgr st)); [|done]. by injection E as <- <-.
Qed.

Lemma silent_deref r : silent (deref r).
Proof. by intros st a st' [= <- <-]. Qed.

Lemma silent_reduce_intersection refs : silent (reduce_intersection refs).
Proof.
  destruct refs as [|r [|r' refs]].
  - apply silent_raise.
  - apply silent_ret.
  - by intros st a st' [= <- <-].
Qed.

Lemma silent_set_remove r y : silent (set_remove r y).
Proof.
  intros st a st' E. unfold set_remove in E.
  case_decide; [|done]. by injection E as <- <-.
Qed.

Lemma silent_getitem_rec n key : silent (getitem_rec n key).
Proof.
  revert key. induction n as [|n IH]; intros key st r st' E; simpl in E.
  - destruct (Cplus st !! key); [|done]. by injection E as <- <-.
  - destruct (Cplus st !! key); [by injection E as <- <-|].
    revert E. apply silent_bind.
    { apply silent_mapM. intros i. apply IH. }
    intros refs. apply silent_bind; [apply silent_reduce_intersection|].
    intros r' st1 a st2 [= <- <-]. done.
Qed.

Lemma silent_getitem key : silent (getitem key).
Proof. apply silent_getitem_rec. Qed.

Lemma silent_generate_next_level L : silent (generate_next_level L).
Proof.
  unfold generate_next_level.
  apply silent_bind; [apply silent_pm_update|]. intros _.
  apply silent_foldM. intros next k. apply silent_foldM.
  intros next' [i j]. unfold generate_pair.
  apply silent_bind; [apply silent_pm_read|]. intros li.
  apply silent_bind; [apply silent_pm_read|]. intros lj.
  destruct (forallb _ _); [|apply silent_ret].
  apply silent_bind; [apply silent_pm_update|]. intros _.
  apply silent_ret.
Qed.

Lemma appends_silent {A} P (m : M A) : silent m → appends P m.
Proof.
  intros Hm st a st' E. exists []. rewrite app_nil_r.
  split_and!; [by eapply Hm|constructor|]. by intros r ?%elem_of_nil.
Qed.

Lemma appends_mono {A} (P Q : list nat * nat → Prop) (m : M A) :
  (∀ r, P r → Q r) → appends P m → appends Q m.
Proof.
  intros HPQ Hm st a st' E. destruct (Hm st a st' E) as (new & ? & ? & ?).
  exists new. split_and!; [done..|]. auto.
Qed.

Lemma appends_append_rule r : appends (λ r', r' = r) (append_rule r).
Proof.
  intros st a st' [= <- <-]. exists [r]. simpl.
  split_and!; [done|apply NoDup_singleton|].
  by intros r' ->%list_elem_of_singleton.
Qed.

Lemma appends_bind {A B} P Q (m : M A) (k : A → M B) :
  appends P m → (∀ a, appends Q (k a)) → (∀ r, P r → Q r → False) →
  appends (λ r, P r ∨ Q r) (bind m k).
Proof.
  intros Hm Hk Hdis st b st' E. unfold bind in E.
  destruct (m st) as [[a st1]|] eqn:E1; [|done].
  destruct (Hm st a st1 E1) as (new1 & Hr1 & Hnd1 & HP).
  destruct (Hk a st1 b st' E) as (new2 & Hr2 & Hnd2 & HQ).
  exists (new1 ++ new2). split_and!.
  - by rewrite Hr2, Hr1, app_assoc.
  - apply NoDup_app. split_and!; [done| |done].
    intros r H1 H2. by apply (Hdis r); [apply HP|apply HQ].
  - intros r [?|?]%elem_of_app; auto.
Qed.

Lemma appends_bind_l {A B} P (m : M A) (k : A → M B) :
  silent m → (∀ a, appends P (k a)) → appends P (bind m k).
Proof.
  intros Hm Hk. eapply appends_mono; [|apply (appends_bind (λ _, False) P)].
  - by intros r [[]|?].
  - by apply appends_silent.
  - done.
  - by intros r [].
Qed.

Lemma appends_bind_r {A B} P (m : M A) (k : A → M B) :
  appends P m → (∀ a, silent (k a)) → appends P (bind m k).
Proof.
  intros Hm Hk. eapply appends_mono; [|apply (appends_bind P (λ _, False))].
  - by intros r [?|[]].
  - done.
  - intros a. by apply appends_silent.
  - by intros r _ [].
Qed.

Lemma appends_foldM {A B} (P : A → list nat * nat → Prop)
    (f : B → A → M B) (b : B) (ys : list A) :
  NoDup ys → (∀ b y, y ∈ ys → appends (P y) (f b y)) →
  (∀ y y' r, y ∈ ys → y' ∈ ys → y ≠ y' → P y r → P y' r → False) →
  appends (λ r, ∃ y, y ∈ ys ∧ P y r) (foldM f b ys).
Proof.
  intros Hnd. revert b. induction Hnd as [|y ys Hy Hnd IH]; intros b Hf Hdis.
  - apply appends_silent, silent_ret.
  - simpl. eapply appends_mono;
      [|apply (appends_bind (P y) (λ r, ∃ y', y' ∈ ys ∧ P y' r))].
    + intros r [?|(y' & ? & ?)]; [exists y|exists y']; split; auto; set_solver.
    + apply Hf. by left.
    + intros b'. apply IH.
      * intros b0 y' Hy'. apply Hf. by right.
      * intros y1 y2 r H1 H2. apply Hdis; by right.
    + intros r HP (y' & Hy' & HP'). apply (Hdis y y' r); [by left|by right| |done..].
      by intros ->.
Qed.

Lemma appends_forM {A} (P : A → list nat * nat → Prop)
    (f : A → M unit) (ys : list A) :
  NoDup ys → (∀ y, y ∈ ys → appends (P y) (f y)) →
  (∀ y y' r, y ∈ ys → y' ∈ ys → y ≠ y' → P y r → P y' r → False) →
  appends (λ r, ∃ y, y ∈ ys ∧ P y r) (forM ys f).
Proof.
  intros Hnd. induction Hnd as [|y ys Hy Hnd IH]; intros Hf Hdis.
  - apply appends_silent, silent_ret.
  - simpl. eapply appends_mono;
      [|apply (appends_bind (P y) (λ r, ∃ y', y' ∈ ys ∧ P y' r))].
    + intros r [?|(y' & ? & ?)]; [exists y|exists y']; split; auto; set_solver.
    + apply Hf. by left.
    + intros _. apply IH.
      * intros y' Hy'. apply Hf. by right.
      * intros y1 y2 r H1 H2. apply Hdis; by right.
    + intros r HP (y' & Hy' & HP'). apply (Hdis y y' r); [by left|by right| |done..].
      by intros ->.
Qed.

Lemma appends_compute_dependencies_at X y :
  appends (λ r, r = (lhs_of X y, y)) (compute_dependencies_at T X y).
Proof.
  unfold compute_dependencies_at. intros st a st' E. revert st a st' E.
  unfold bind at 1, pm_read at 1. intros st a st' E.
  unfold lhs_of. destruct (index X y) as [i|e]; [|done]. revert st a st' E.
  change (appends (λ r, r = (without X i, y))
    (do holds <- pm_read (λ pm, check_fd T pm (without X i) y);
     if (holds : bool) then
       append_rule (without X i, y);;
       (do r <- getitem X; set_remove r y);;
       getitem X;; getitem X;; ret tt
     else ret tt)).
  apply appends_bind_l; [apply silent_pm_read|].
  intros [|]; [|apply appends_silent, silent_ret].
  apply appends_bind_r; [apply appends_append_rule|]. intros _.
  apply silent_bind.
  { apply silent_bind; [apply silent_getitem|]. intros r'.
    apply silent_set_remove. }
  intros _. apply silent_bind; [apply silent_getitem|]. intros _.
  apply silent_bind; [apply silent_getitem|]. intros _.
  apply silent_ret.
Qed.

Lemma lhs_of_inj X X' y :
  ssorted X → ssorted X' → y ∈ X → y ∈ X' →
  lhs_of X y = lhs_of X' y → X = X'.
Proof.
  intros Hs Hs' Hy Hy' E.
  pose proof (ssorted_NoDup _ Hs) as Hnd.
  pose proof (ssorted_NoDup _ Hs') as Hnd'.
  apply list_elem_of_lookup in Hy as [a Ha], Hy' as [a' Ha'].
  rewrite (lhs_of_lookup X a y), (lhs_of_lookup X' a' y) in E by done.
  apply ssorted_ext; [done..|]. intros x.
  destruct (decide (x = y)) as [->|Hne].
  - split; intros _; by eapply list_elem_of_lookup_2.
  - pose proof (elem_of_without X a y x Hnd Ha) as H1.
    pose proof (elem_of_without X' a' y x Hnd' Ha') as H2.
    rewrite E in H1. tauto.
Qed.

Lemma appends_compute_dependencies (L : gset (list nat)) :
  (∀ X, X ∈ L → ssorted X) →
  appends (λ r, ∃ X y, X ∈ L ∧ y ∈ X ∧ r = (lhs_of X y, y))
          (compute_dependencies T L).
Proof.
  intros HL. unfold compute_dependencies.
  eapply appends_mono;
    [|apply (appends_forM (λ X r, ∃ y, y ∈ X ∧ r = (lhs_of X y, y)))].
  - intros r (X & HX & y & Hy & ->). exists X, y.
    split_and!; [by apply elem_of_elements|done..].
  - apply NoDup_elements.
  - intros X HX. apply appends_bind_l; [apply silent_getitem|]. intros r.
    apply appends_bind_l; [apply silent_deref|]. intros s.
    eapply appends_mono;
      [|apply (appends_forM (λ y r, r = (lhs_of X y, y)))].
    + intros r0 (y & Hy & ->). exists y. split; [|done].
      apply elem_of_elements, elem_of_intersection in Hy as [_ Hy].
      by apply elem_of_list_to_set in Hy.
    + apply NoDup_elements.
    + intros y _. apply appends_compute_dependencies_at.
    + intros y y' r0 _ _ Hne -> [= _ ?]. done.
  - intros X X' r HX HX' Hne (y & Hy & ->) (y' & Hy' & [= E <-]).
    apply Hne, (lhs_of_inj X X' y); [apply HL|apply HL|done..];
      by apply elem_of_elements.
Qed.

Lemma appends_prune (L : gset (list nat)) :
  appends (λ r, r.1 ∈ L) (prune L).
Proof.
  unfold prune. apply appends_bind_r.
  - eapply appends_mono; [|apply (appends_foldM (λ X r, r.1 = X))].
    + intros r (X & HX & <-). by apply elem_of_elements.
    + apply NoDup_elements.
    + intros c X _. unfold prune_at.
      apply appends_bind_l; [apply silent_getitem|]. intros r.
      apply appends_bind_l; [apply silent_deref|]. intros s.
      apply appends_bind_l; [apply silent_pm_read|].
      intros [|]; [|apply appends_silent, silent_ret].
      apply appends_bind_r; [|intros _; apply silent_ret].
      apply appends_bind_l; [apply silent_getitem|]. intros r'.
      apply appends_bind_l; [apply silent_deref|]. intros s'.
      eapply appends_mono; [|apply (appends_forM (λ y r, r = (X, y)))].
      * by intros r0 (y & _ & ->).
      * apply NoDup_filter, NoDup_elements.
      * intros y _. unfold prune_try.
        apply appends_bind_l;
          [apply silent_mapM; intros b; apply silent_getitem|].
        intros refs. apply appends_bind_l; [apply silent_reduce_intersection|].
        intros r2. apply appends_bind_l; [apply silent_deref|]. intros s2.
        case_decide; [apply appends_append_rule|apply appends_silent, silent_ret].
      * intros y y' r0 _ _ Hne -> [= ?]. done.
    + intros X X' r _ _ Hne <- ?. done.
  - intros clean. apply silent_foldM. intros L' X. unfold set_remove_tuple.
    case_decide; [apply silent_ret|apply silent_raise].
Qed.

Lemma appends_run_body L l Lcur :
  L !! l = Some (Some Lcur) → 0 < l →
  (∀ X, X ∈ Lcur → ssorted X ∧ length X = l) →
  appends (λ r, (∃ X y, X ∈ Lcur ∧ y ∈ X ∧ r = (lhs_of X y, y)) ∨
                r.1 ∈ Lcur)
          (run_body T (L, l)).
Proof.
  intros HL Hpos Htup. unfold run_body. rewrite HL.
  apply appends_bind.
  - apply appends_compute_dependencies. intros X HX. by apply Htup.
  - intros _. apply appends_bind_r; [apply appends_prune|]. intros Lp.
    apply silent_bind; [apply silent_generate_next_level|]. intros next.
    apply silent_bind; [apply silent_pm_update|]. intros _.
    apply silent_ret.
  - intros r (X & y & HX & Hy & ->) Hin. simpl in Hin.
    destruct (Htup X HX) as [Hs Hl], (Htup _ Hin) as [_ Hl'].
    destruct (lhs_of_without X y Hy) as (a & Ha & E). rewrite E in Hl'.
    rewrite length_without in Hl' by done. lia.
Qed.

Lemma rules_NoDup L l st :
  valid_table T → loop_head T (L, l) st → NoDup (rules st).
Proof.
  intros HT H. remember (L, l) as Ll eqn:E. revert L l E.
  induction H as [|[L0 l0] st0 [L1 l1] st' Hhead IH _ Hbody]; intros L l E.
  - constructor.
  - injection E as -> ->. specialize (IH L0 l0 eq_refl).
    destruct (loop_head_sem_ok T _ _ _ HT Hhead) as (Lcur & m & Hok & Hsem).
    destruct (appends_run_body L0 l0 Lcur (lo_cur _ _ _ _ _ _ Hok)
                (lo_pos _ _ _ _ _ _ Hok)) with st0 (L, l) st'
      as (new & Hr & Hnd & Hnew); [|done|].
    { intros X HX. destruct (lo_tuple _ _ _ _ _ _ Hok X HX) as (? & ? & _).
      done. }
    rewrite Hr. apply NoDup_app. split_and!; [done| |done].
    intros [W y] Hold Hin.
    apply (se_rules _ _ _ _ Hsem) in Hold as (HtW & _ & Hmin & Hfound).
    destruct (Hnew _ Hin) as [(X & y' & HX & Hy & [= -> <-])|HW].
    + destruct (proj1 (se_level _ _ _ _ Hsem X) HX) as (HtX & HlX & HgX).
      assert (NoDup X) as HndX by (by apply ssorted_NoDup, HtX).
      pose proof Hy as Hy'. apply list_elem_of_lookup in Hy' as [a Ha].
      assert (a < length X) by (by eapply lookup_lt_Some).
      rewrite (lhs_of_lookup X a y) in Hmin, Hfound by done.
      unfold found in Hfound. rewrite length_without in Hfound by done.
      destruct Hfound as [[Hs _]|[_ Hl]]; [|lia].
      apply (HgX (attrs (without X a))); [|apply Hmin|done].
      apply (subset_by _ _ y); [apply attrs_without_subseteq| |].
      * by apply elem_of_attrs.
      * rewrite (attrs_without X a y), elem_of_difference, elem_of_singleton
          by done. by intros [_ ?].
    + simpl in HW. destruct (lo_tuple _ _ _ _ _ _ Hok W HW) as (_ & Hl & _).
      destruct Hfound as [[_ ?]|[_ ?]]; lia.
Qed.

End duplicate_facts.

(** X25.  No rule is recorded twice.  On a table of stripped partitions,
    at every head of the loop of [run], and so when [run] ends, the list
    of rules has no duplicate. *)
Theorem rules_no_duplicates (T : list (list (gset nat))) :
  valid_table T →
  (∀ Ll st, loop_head T Ll st → NoDup (rules st)) ∧
  (∀ fuel st, run T fuel = Ok st → NoDup (rules st)).
Proof.
  intros HT. split.
  - intros [L l] st Hhead. by apply (rules_NoDup T L l).
  - intros fuel st Hrun.
    destruct (run_ends T fuel st Hrun) as (L & l & Hhead & _).
    by apply (rules_NoDup T L l).
Qed.

Lemma rules_no_duplicates_witness :
  valid_table T_keep ∧
  (∀ Ll st, loop_head T_keep Ll st → NoDup (rules st)) ∧
  (∀ fuel st, run T_keep fuel = Ok st → NoDup (rules st)).
Proof.
  assert (valid_table T_keep) as HT.
  { intros d Hd. unfold T_keep in Hd.
    repeat (apply elem_of_cons in Hd as [->|Hd]; [by vm_compute|]).
    by apply elem_of_nil in Hd. }
  split; [exact HT|]. exact (rules_no_duplicates T_keep HT).
Defined.

(** ** The order of the rules *)

Section order_facts.
Context (T : list (list (gset nat))).

Lemma adds_appends {A} P (m : M A) : appends P m → adds P m.
Proof.
  intros Hm st a st' E. destruct (Hm st a st' E) as (new & ? & _ & ?).
  exists new. split; [done|]. by apply Forall_forall.
Qed.

Lemma adds_silent {A} P (m : M A) : silent m → adds P m.
Proof. intros Hm. by apply adds_appends, appends_silent. Qed.

Lemma adds_bind {A B} P (m : M A) (k : A → M B) :
  adds P m → (∀ a, adds P (k a)) → adds P (bind m k).
Proof.
  intros Hm Hk st b st' E. unfold bind in E.
  destruct (m st) as [[a st1]|] eqn:E1; [|done].
  destruct (Hm st a st1 E1) as (new1 & Hr1 & HP).
  destruct (Hk a st1 b st' E) as (new2 & Hr2 & HQ).
  exists (new1 ++ new2). split.
  - by rewrite Hr2, Hr1, app_assoc.
  - by apply Forall_app.
Qed.

Lemma adds_forM {A} P (f : A → M unit) (ys : list A) :
  (∀ y, y ∈ ys → adds P (f y)) → adds P (forM ys f).
Proof.
  induction ys as [|y ys IH]; intros Hf; simpl.
  - apply adds_silent, silent_ret.
  - apply adds_bind; [apply Hf; by left|]. intros _.
    apply IH. intros y' Hy'. apply Hf. by right.
Qed.

Lemma adds_compute_dependencies_at X y :
  adds (λ r, r.1 ≠ [] ∧ S (length r.1) = length X)
       (compute_dependencies_at T X y).
Proof.
  intros st a st' E. unfold compute_dependencies_at in E.
  unfold bind at 1, pm_read at 1 in E.
  destruct (index X y) as [i|e] eqn:Ei; [|done].
  unfold bind at 1, pm_read at 1 in E.
  destruct (check_fd T (pmgr st) (without X i) y) as [[|]|e] eqn:Ec; [| |done].
  - assert (i < length X) as Hi.
    { unfold index in Ei.
      destruct (list_find (λ z, z = y) X) as [[i' z]|] eqn:Ef; [|done].
      injection Ei as ->. apply list_find_Some in Ef as (Hl & _).
      by eapply lookup_lt_Some. }
    assert (without X i ≠ []) as Hne.
    { intros Hnil. rewrite Hnil in Ec. done. }
    revert E. apply adds_bind.
    + apply adds_appends.
      eapply appends_mono; [|apply appends_append_rule].
      intros r ->. simpl. split; [done|].
      rewrite length_without by done. lia.
    + intros _. apply adds_silent.
      apply silent_bind.
      { apply silent_bind; [apply silent_getitem|]. intros r'.
        apply silent_set_remove. }
      intros _. apply silent_bind; [apply silent_getitem|]. intros _.
      apply silent_bind; [apply silent_getitem|]. intros _.
      apply silent_ret.
  - injection E as <- <-. exists []. by rewrite app_nil_r.
Qed.

Lemma adds_compute_dependencies (L : gset (list nat)) l :
  (∀ X, X ∈ L → length X = l) →
  adds (λ r, r.1 ≠ [] ∧ S (length r.1) = l) (compute_dependencies T L).
Proof.
  intros HL. unfold compute_dependencies. apply adds_forM.
  intros X HX%elem_of_elements%HL.
  apply adds_bind; [apply adds_silent, silent_getitem|]. intros r.
  apply adds_bind; [apply adds_silent, silent_deref|]. intros s.
  apply adds_forM. intros y _. rewrite <-HX.
  apply adds_compute_dependencies_at.
Qed.

(** One turn appends the rules of [compute_dependencies], then those of
    [prune]. *)
Lemma run_body_rules L l Lcur st Ll' st' :
  L !! l = Some (Some Lcur) → (∀ X, X ∈ Lcur → length X = l) →
  run_body T (L, l) st = Ok (Ll', st') →
  ∃ new1 new2,
    rules st' = rules st ++ new1 ++ new2 ∧
    Forall (λ r, r.1 ≠ [] ∧ S (length r.1) = l) new1 ∧
    Forall (λ r, length r.1 = l) new2.
Proof.
  intros HL Hlen E. unfold run_body in E. rewrite HL in E.
  unfold bind at 1 in E.
  destruct (compute_dependencies T Lcur st) as [[[] st1]|] eqn:E1; [|done].
  destruct (adds_compute_dependencies Lcur l Hlen st tt st1 E1)
    as (new1 & Hr1 & H1).
  assert (adds (λ r, r.1 ∈ Lcur)
            (do Lp <- prune Lcur;
             let L0 := <[l := Some Lp]> L in
             do next_L <- generate_next_level Lp;
             let L1 := L0 ++ [Some next_L] in
             let l0 := l + 1 in
             let L2 := <[l0 - 1 := None]> L1 in
             memory_wipe;; ret (L2, l0))) as Hrest.
  { apply adds_bind; [apply adds_appends, appends_prune|]. intros Lp.
    apply adds_silent.
    apply silent_bind; [apply silent_generate_next_level|]. intros next.
    apply silent_bind; [apply silent_pm_update|]. intros _.
    apply silent_ret. }
  destruct (Hrest st1 Ll' st' E) as (new2 & Hr2 & H2).
  exists new1, new2. split_and!.
  - by rewrite Hr2, Hr1, app_assoc.
  - done.
  - eapply Forall_impl; [done|]. intros r Hr. simpl in Hr. by apply Hlen.
Qed.

Lemma by_size_const (rs : list (list nat * nat)) n :
  Forall (λ r, length r.1 = n) rs → by_size rs.
Proof.
  unfold by_size. induction 1 as [|r rs Hr Hrs IH]; constructor; [done|].
  eapply Forall_impl; [done|]. intros r' Hr'. simpl in *. lia.
Qed.

Lemma rules_in_order L l st :
  loop_head T (L, l) st →
  Forall (λ r, 0 < length r.1 < l) (rules st) ∧ by_size (rules st).
Proof.
  intros H. remember (L, l) as Ll eqn:E. revert L l E.
  induction H as [|[L0 l0] st0 [L1 l1] st' Hhead IH _ Hbody]; intros L l E.
  - split; constructor.
  - injection E as -> ->. destruct (IH L0 l0 eq_refl) as [Hall Hsort].
    destruct (loop_head_level_ok T _ _ _ Hhead) as (Lcur & m & Hok).
    destruct (run_body_inv T _ _ _ _ _ _ Hbody) as (_ & _ & _ & _ & -> & _).
    destruct (run_body_rules L0 l0 Lcur st0 (L, l0 + 1) st'
                (lo_cur _ _ _ _ _ _ Hok)) as (new1 & new2 & Hr & H1 & H2);
      [|done|].
    { intros X HX. by destruct (lo_tuple _ _ _ _ _ _ Hok X HX) as (_ & ? & _). }
    pose proof (lo_pos _ _ _ _ _ _ Hok) as Hpos.
    rewrite Hr. split.
    + rewrite !Forall_app. split_and!.
      * eapply Forall_impl; [done|]. intros r ?. simpl in *. lia.
      * eapply Forall_impl; [done|]. intros r [Hne ?]. simpl in *.
        destruct r.1; [done|simpl in *; lia].
      * eapply Forall_impl; [done|]. intros r ?. simpl in *. lia.
    + unfold by_size. apply StronglySorted_app_2; [|done|].
      * intros r r' Hr1 Hr2. rewrite Forall_forall in Hall, H1, H2.
        specialize (Hall r Hr1). simpl in Hall.
        apply elem_of_app in Hr2 as [Hr2|Hr2].
        -- destruct (H1 r' Hr2). lia.
        -- specialize (H2 r' Hr2). simpl in H2. lia.
      * apply StronglySorted_app_2.
        -- intros r r' Hr1 Hr2. rewrite Forall_forall in H1, H2.
           destruct (H1 r Hr1). specialize (H2 r' Hr2). simpl in H2. lia.
        -- apply (by_size_const _ (l0 - 1)).
           eapply Forall_impl; [done|]. intros r [_ ?]. simpl in *. lia.
        -- by apply (by_size_const _ l0).
Qed.

End order_facts.

(** X26.  The rules come out level by level.  For any table, at the head
    of the loop of [run] at level [l] every recorded rule has a left-hand
    side of at least one and fewer than [l] attributes, and along the list
    the sizes of the left-hand sides never decrease: one turn appends the
    rules of [compute_dependencies], with [l - 1] attributes on the left,
    and then those of [prune], with [l]. *)
Theorem rules_level_by_level (T : list (list (gset nat)))
    (L : list (option (gset (list nat)))) (l : nat) (st : TANE) :
  loop_head T (L, l) st →
  Forall (λ r, 0 < length r.1 < l) (rules st) ∧ by_size (rules st).
Proof. apply rules_in_order. Qed.

Lemma rules_level_by_level_witness :
  ∃ Ll' st',
    run_body T_grid (run_start T_grid) (tane_init T_grid) = Ok (Ll', st') ∧
    Forall (λ r, 0 < length r.1 < 2) (rules st') ∧ by_size (rules st').
Proof.
  destruct (run_body_spec T_grid _ _ _ _ _ (level_ok_start T_grid))
    as (L' & st' & next & m' & E & _ & _).
  exists (L', 2), st'. split; [exact E|].
  apply (rules_level_by_level T_grid L' 2 st').
  eapply head_step; [apply head_start|done|exact E].
Defined.

(** ** The rules of a completed run *)

Section relation_facts.
Context (T : list (list (gset nat))).

Lemma fd_in_determines n S y :
  rows_ok n T → S ≠ ∅ → fd_in n T S y ↔ determines T S y.
Proof.
  intros Hrows HS. split.
  - intros Hfd t u Htu. destruct (decide (t = u)) as [->|Hne]; [by left|].
    apply set_choose_L in HS as [a Ha].
    destruct (Htu a Ha) as [?|(d & c & Hd & Hc & Ht & Hu)]; [done|].
    apply list_elem_of_lookup_2 in Hd.
    apply Hfd; [by eapply Hrows..|done].
  - intros Hd t u _ _. apply Hd.
Qed.

Lemma rules_after_run fuel st W y :
  valid_table T → run T fuel = Ok st →
  (W, y) ∈ rules st ↔ tuple_ok T W ∧ y < length T ∧ min_fd T (attrs W) y.
Proof.
  intros HT Hrun. destruct (run_ends T fuel st Hrun) as (L & l & Hhead & He).
  by apply (rules_at_end T L l).
Qed.

Lemma min_fd_in n W y :
  rows_ok n T →
  min_fd T (attrs W) y ↔
  W ≠ [] ∧ y ∉ W ∧ fd_in n T (attrs W) y ∧
  ∀ V, V ⊂ attrs W → V ≠ ∅ → ¬ fd_in n T V y.
Proof.
  intros Hrows. unfold min_fd. rewrite <-elem_of_attrs. split.
  - intros (Hne & Hy & Hd & Hmin). split_and!.
    + intros ->. by apply Hne.
    + done.
    + by apply fd_in_determines.
    + intros V HV HVne Hfd. apply (Hmin V HV HVne).
      by apply (fd_in_determines n).
  - intros (Hne & Hy & Hd & Hmin).
    assert (attrs W ≠ ∅) as Hne' by (by apply attrs_nonempty).
    split_and!; [done..| |].
    + by apply (fd_in_determines n).
    + intros V HV HVne Hfd. apply (Hmin V HV HVne).
      by apply fd_in_determines.
Qed.

End relation_facts.

Lemma valid_table_T_xor : valid_table T_xor.
Proof.
  intros d Hd. unfold T_xor in Hd.
  repeat (apply elem_of_cons in Hd as [->|Hd]; [by vm_compute|]).
  by apply elem_of_nil in Hd.
Qed.

Lemma valid_table_T_const : valid_table T_const.
Proof.
  intros d Hd. unfold T_const in Hd.
  repeat (apply elem_of_cons in Hd as [->|Hd]; [by vm_compute|]).
  by apply elem_of_nil in Hd.
Qed.

Lemma rows_ok_T_xor : rows_ok 4 T_xor.
Proof.
  intros d c t Hd Hc Ht. unfold T_xor in Hd.
  repeat (apply elem_of_cons in Hd as [->|Hd];
    [repeat (apply elem_of_cons in Hc as [->|Hc];
       [apply elem_of_union in Ht as [Ht|Ht];
        apply elem_of_singleton in Ht; lia|]);
     by apply elem_of_nil in Hc|]).
  by apply elem_of_nil in Hd.
Qed.

Lemma rows_ok_T_const : rows_ok 2 T_const.
Proof.
  intros d c t Hd Hc Ht. unfold T_const in Hd.
  repeat (apply elem_of_cons in Hd as [->|Hd];
    [repeat (apply elem_of_cons in Hc as [->|Hc];
       [apply elem_of_union in Ht as [Ht|Ht];
        apply elem_of_singleton in Ht; lia|]);
     by apply elem_of_nil in Hc|]).
  by apply elem_of_nil in Hd.
Qed.

Lemma run_T_xor_rule :
  ∃ st, run T_xor 4 = Ok st ∧ ([0; 1], 2) ∈ rules st.
Proof.
  destruct (run T_xor 4) as [st|] eqn:E; vm_compute in E; [|done].
  injection E as <-. eexists. split; [reflexivity|].
  vm_compute. set_solver.
Qed.

Lemma run_T_const_rules :
  ∃ st, run T_const 2 = Ok st ∧ rules st = [([1], 0)].
Proof.
  destruct (run T_const 2) as [st|] eqn:E; vm_compute in E; [|done].
  injection E as <-. eexists. split; reflexivity.
Qed.

Lemma constant_column_T_const : fd_in 2 T_const ∅ 0.
Proof.
  intros t u Ht Hu _. right. exists [{[0; 1]}], {[0; 1]}.
  split_and!; [done|by left| |].
  - destruct t as [|[|]]; [set_solver..|lia].
  - destruct u as [|[|]]; [set_solver..|lia].
Qed.

(** C1.  Soundness of the rules.  On a table of stripped partitions,
    every rule [(W, y)] that a completed run has recorded, by
    [compute_dependencies] or by [prune], holds in the table: any two rows
    that agree on every attribute of [W] agree on [y]; and the stripped
    partition of [W] refines the stripped partition of [y]. *)
Theorem rules_sound (T : list (list (gset nat))) (fuel : nat) (st : TANE)
    (W : list nat) (y : nat) :
  valid_table T → run T fuel = Ok st → (W, y) ∈ rules st →
  (∀ t u, agree_on T (attrs W) t u → agree T y t u) ∧
  ∀ d dy, partition_of T (attrs W) d → partition_of T {[y]} dy →
          PPattern.leq d dy = true.
Proof.
  intros HT Hrun Hin.
  apply (rules_after_run T fuel st W y HT Hrun) in Hin
    as (_ & _ & _ & _ & Hd & _).
  split; [exact Hd|]. intros d dy Hp Hpy. by apply (partition_of_leq T (attrs W) d y dy).
Qed.

Lemma rules_sound_witness :
  valid_table T_xor ∧
  ∃ st, run T_xor 4 = Ok st ∧ ([0; 1], 2) ∈ rules st ∧
        (∀ t u, agree_on T_xor (attrs [0; 1]) t u → agree T_xor 2 t u) ∧
        ∀ d dy, partition_of T_xor (attrs [0; 1]) d →
                partition_of T_xor {[2]} dy → PPattern.leq d dy = true.
Proof.
  split; [exact valid_table_T_xor|].
  destruct run_T_xor_rule as (st & E & Hin).
  exists st. split; [exact E|]. split; [exact Hin|].
  exact (rules_sound T_xor 4 st [0; 1] 2 valid_table_T_xor E Hin).
Defined.

(** C2 (as stated, refuted).  On the relation of two rows whose first
    column is constant and whose second column tells the rows apart, the
    dependency with the empty left-hand side [∅ → 0] holds, so it is a
    minimal non-trivial dependency of the relation; the run does not record
    it, and records [(1,) → 0], which is not minimal. *)
Lemma rules_differ_on_constant_column :
  valid_table T_const ∧ rows_ok 2 T_const ∧
  ∃ st, run T_const 2 = Ok st ∧
        fd_in 2 T_const ∅ 0 ∧ 0 ∉ (∅ : gset nat) ∧
        ([], 0) ∉ rules st ∧
        ([1], 0) ∈ rules st ∧ (∅ : gset nat) ⊂ attrs [1].
Proof.
  split; [exact valid_table_T_const|]. split; [exact rows_ok_T_const|].
  destruct run_T_const_rules as (st & E & Hr).
  exists st. split; [exact E|]. rewrite Hr.
  split_and!.
  - exact constant_column_T_const.
  - by intros ?%elem_of_empty.
  - by intros [=]%list_elem_of_singleton.
  - by apply list_elem_of_singleton.
  - apply (subset_by _ _ 1); [by intros ? ?%elem_of_empty| |].
    + apply elem_of_attrs. by left.
    + by intros ?%elem_of_empty.
Qed.

(** C2 (amended).  On a relation of [n] rows given as a table of stripped
    partitions, of any size, the rules that a completed run has recorded,
    none of them twice, are exactly the dependencies [W → y] with [W] a
    non-empty increasing tuple of columns, [y] a column outside [W], that
    hold on the relation and are minimal among the non-empty left-hand
    sides: no non-empty proper subset of [W] determines [y]. *)
Theorem rules_complete (T : list (list (gset nat))) (n fuel : nat)
    (st : TANE) :
  valid_table T → rows_ok n T → run T fuel = Ok st →
  NoDup (rules st) ∧
  ∀ W y, (W, y) ∈ rules st ↔
         ssorted W ∧ (∀ x, x ∈ W → x < length T) ∧ y < length T ∧
         W ≠ [] ∧ y ∉ W ∧ fd_in n T (attrs W) y ∧
         ∀ V, V ⊂ attrs W → V ≠ ∅ → ¬ fd_in n T V y.
Proof.
  intros HT Hrows Hrun. split.
  - destruct (run_ends T fuel st Hrun) as (L & l & Hhead & _).
    by apply (rules_NoDup T L l).
  - intros W y. rewrite (rules_after_run T fuel st W y HT Hrun).
    rewrite (min_fd_in T n W y Hrows). unfold tuple_ok. tauto.
Qed.

Lemma rules_complete_witness :
  valid_table T_xor ∧ rows_ok 4 T_xor ∧
  ∃ st, run T_xor 4 = Ok st ∧
        NoDup (rules st) ∧
        ∀ W y, (W, y) ∈ rules st ↔
               ssorted W ∧ (∀ x, x ∈ W → x < length T_xor) ∧
               y < length T_xor ∧
               W ≠ [] ∧ y ∉ W ∧ fd_in 4 T_xor (attrs W) y ∧
               ∀ V, V ⊂ attrs W → V ≠ ∅ → ¬ fd_in 4 T_xor V y.
Proof.
  split; [exact valid_table_T_xor|]. split; [exact rows_ok_T_xor|].
  destruct run_T_xor_rule as (st & E & _).
  exists st. split; [exact E|].
  exact (rules_complete T_xor 4 4 st valid_table_T_xor rows_ok_T_xor E).
Defined.

(** C3 (as stated, refuted).  On the relation of two rows whose first
    column is constant, the run records the rule [(1,) → 0] although the
    empty set, a proper subset of its left-hand side, determines [0]. *)
Lemma rule_not_minimal_on_constant_column :
  valid_table T_const ∧ rows_ok 2 T_const ∧
  ∃ st, run T_const 2 = Ok st ∧ ([1], 0) ∈ rules st ∧
        (∅ : gset nat) ⊂ attrs [1] ∧ fd_in 2 T_const ∅ 0.
Proof.
  split; [exact valid_table_T_const|]. split; [exact rows_ok_T_const|].
  destruct run_T_const_rules as (st & E & Hr).
  exists st. split; [exact E|]. rewrite Hr.
  split_and!.
  - by apply list_elem_of_singleton.
  - apply (subset_by _ _ 1); [by intros ? ?%elem_of_empty| |].
    + apply elem_of_attrs. by left.
    + by intros ?%elem_of_empty.
  - exact constant_column_T_const.
Qed.

(** C3 (amended).  On a relation of [n] rows given as a table of stripped
    partitions, for every rule [(W, y)] that a completed run has recorded,
    no non-empty proper subset of [W] determines [y] on the relation.  The
    empty left-hand side is not examined: [check_fd] answers [False] on
    it. *)
Theorem rules_minimal (T : list (list (gset nat))) (n fuel : nat)
    (st : TANE) (W : list nat) (y : nat) :
  valid_table T → rows_ok n T → run T fuel = Ok st → (W, y) ∈ rules st →
  W ≠ [] ∧ ∀ V, V ⊂ attrs W → V ≠ ∅ → ¬ fd_in n T V y.
Proof.
  intros HT Hrows Hrun Hin.
  apply (rules_after_run T fuel st W y HT Hrun) in Hin as (_ & _ & Hmin).
  apply (min_fd_in T n W y Hrows) in Hmin as (Hne & _ & _ & Hmin).
  by split.
Qed.

Lemma rules_minimal_witness :
  valid_table T_xor ∧ rows_ok 4 T_xor ∧
  ∃ st, run T_xor 4 = Ok st ∧ ([0; 1], 2) ∈ rules st ∧
        [0; 1] ≠ [] ∧
        ∀ V, V ⊂ attrs [0; 1] → V ≠ ∅ → ¬ fd_in 4 T_xor V 2.
Proof.
  split; [exact valid_table_T_xor|]. split; [exact rows_ok_T_xor|].
  destruct run_T_xor_rule as (st & E & Hin).
  exists st. split; [exact E|]. split; [exact Hin|].
  exact (rules_minimal T_xor 4 4 st [0; 1] 2
           valid_table_T_xor rows_ok_T_xor E Hin).
Defined.
